(** * Relay layout inference (layout_infer.cc)

    A shallow embedding of the [LayoutInferencer] class of
    [src/relay/pass/layout_infer.cc] and of the free function
    [CollectLayoutInfo], followed by the properties of the engine that the
    design document states about it.

    Conventions of the embedding.
    - An [Expr] is a reference to an immutable node.  The layout map is keyed
      by node identity ([NodeHash]/[NodeEqual] on the pointer), so every node
      of the embedding carries its address [ref]; a shared sub-expression is
      the same sub-tree occurring more than once.
    - [Map<Expr, RelayLayout>] and [std::unordered_map<Expr, int>] are finite
      maps over addresses.  [layout_timestamp_[expr]] value-initialises a
      missing key to [0]; no read distinguishes that from an absent key, so
      the read is a lookup with default [0].  The visitor that keeps the
      inserted keys is [StampKeys.VisitExpr]; the two visitors go through
      states that no read tells apart.
    - [LOG(FATAL)] and failed [CHECK]s abort the run: the methods run in a
      state-and-error monad, [Fatal] carrying the message.
    - [timestamp_] is an [int] that is only ever incremented; it is modelled
      by an unbounded integer (signed overflow has no defined behaviour), and
      what is stated of its value is stated for as long as it stays within
      the values of an [int].
    - The loop of [Infer] has no bound: the embedding takes a fuel and
      answers [None] when the fuel does not suffice. *)

From stdpp Require Import gmap strings list fin_maps fin_sets.

Set Warnings "-register-all".
Local Open Scope Z_scope.

(** ** Layout values *)

(** Modelled from the spec: [Layout] of tvm/data_layout.h, which is not among
    the sources.  An opaque symbolic tag compared by equality only, with the
    distinguished value [Undef]. *)
Inductive Layout : Type :=
| Undef
| LayoutTag (name : string).

#[global] Instance Layout_eq_dec : EqDecision Layout.
Proof. solve_decision. Defined.

(** Modelled from the spec: [RelayLayout] of tvm/relay/layout.h, which is not
    among the sources: a single-tensor layout or a tuple of layouts;
    [Equals] is structural equality. *)
Inductive RelayLayout : Type :=
| TensorLayout (layout : Layout)
| TupleLayout (fields : list Layout).

#[global] Instance RelayLayout_eq_dec : EqDecision RelayLayout.
Proof. solve_decision. Defined.

(** ** Static types and expression nodes *)

Inductive Ty : Type :=
| TensorType (shape : list Z) (dtype : string)
| TupleType (fields : list Ty)
| FuncType (arg_types : list Ty) (ret_type : Ty).

(** The attribute payload of a call; the engine only hands it to the rule. *)
Inductive Attrs : Type :=
| NoAttrs
| AttrsDict (entries : list (string * string)).

Inductive Expr : Type :=
| VarNode (ref : N) (checked_type : Ty)
| GlobalVarNode (ref : N) (checked_type : Ty)
| ConstantNode (ref : N) (checked_type : Ty)
| TupleNode (ref : N) (checked_type : Ty) (fields : list Expr)
| TupleGetItemNode (ref : N) (checked_type : Ty) (tuple : Expr) (index : nat)
| OpNode (ref : N) (checked_type : Ty) (name : string)
| LetNode (ref : N) (checked_type : Ty) (var value body : Expr)
| IfNode (ref : N) (checked_type : Ty) (cond true_branch false_branch : Expr)
| CallNode (ref : N) (checked_type : Ty) (op : Expr) (args : list Expr)
           (attrs : Attrs)
| FunctionNode (ref : N) (checked_type : Ty) (params : list Expr) (body : Expr)
| MatchNode (ref : N) (checked_type : Ty) (data : Expr)
| RefCreateNode (ref : N) (checked_type : Ty) (value : Expr)
| RefReadNode (ref : N) (checked_type : Ty) (r : Expr)
| RefWriteNode (ref : N) (checked_type : Ty) (r value : Expr)
| ConstructorNode (ref : N) (checked_type : Ty) (name_hint : string).

(** The address of a node: the key under which the maps know it. *)
Definition ref_of (e : Expr) : N :=
  match e with
  | VarNode ref _ | GlobalVarNode ref _ | ConstantNode ref _
  | TupleNode ref _ _ | TupleGetItemNode ref _ _ _ | OpNode ref _ _
  | LetNode ref _ _ _ _ | IfNode ref _ _ _ _ | CallNode ref _ _ _ _
  | FunctionNode ref _ _ _ | MatchNode ref _ _ | RefCreateNode ref _ _
  | RefReadNode ref _ _ | RefWriteNode ref _ _ _ | ConstructorNode ref _ _ =>
      ref
  end.

Definition checked_type (e : Expr) : Ty :=
  match e with
  | VarNode _ ty | GlobalVarNode _ ty | ConstantNode _ ty
  | TupleNode _ ty _ | TupleGetItemNode _ ty _ _ | OpNode _ ty _
  | LetNode _ ty _ _ _ | IfNode _ ty _ _ _ | CallNode _ ty _ _ _
  | FunctionNode _ ty _ _ | MatchNode _ ty _ | RefCreateNode _ ty _
  | RefReadNode _ ty _ | RefWriteNode _ ty _ _ | ConstructorNode _ ty _ =>
      ty
  end.

(** The node kinds, as the dispatch of [ExprFunctor::VisitExpr] sees them. *)
Inductive Kind : Type :=
| KVar | KGlobalVar | KConstant | KTuple | KTupleGetItem | KOp | KLet | KIf
| KCall | KFunction | KMatch | KRefCreate | KRefRead | KRefWrite
| KConstructor.

#[global] Instance Kind_eq_dec : EqDecision Kind.
Proof. solve_decision. Defined.

Definition kind_of (e : Expr) : Kind :=
  match e with
  | VarNode _ _ => KVar
  | GlobalVarNode _ _ => KGlobalVar
  | ConstantNode _ _ => KConstant
  | TupleNode _ _ _ => KTuple
  | TupleGetItemNode _ _ _ _ => KTupleGetItem
  | OpNode _ _ _ => KOp
  | LetNode _ _ _ _ _ => KLet
  | IfNode _ _ _ _ _ => KIf
  | CallNode _ _ _ _ _ => KCall
  | FunctionNode _ _ _ _ => KFunction
  | MatchNode _ _ _ => KMatch
  | RefCreateNode _ _ _ => KRefCreate
  | RefReadNode _ _ _ => KRefRead
  | RefWriteNode _ _ _ _ => KRefWrite
  | ConstructorNode _ _ _ => KConstructor
  end.

(** The kinds the visitor handles; every other kind is a [LOG(FATAL)]. *)
Definition supported_kind (k : Kind) : bool :=
  match k with
  | KVar | KCall | KFunction => true
  | _ => false
  end.

(** ** The state-and-error monad of the methods *)

Inductive Res (A : Type) : Type :=
| Ok (a : A)
| Fatal (msg : string).
Arguments Ok {A} a.
Arguments Fatal {A} msg.

Record LayoutInferencer : Type := mkLayoutInferencer {
  layout_map_ : gmap N RelayLayout;
  layout_timestamp_ : gmap N Z;
  modified_ : bool;
  timestamp_ : Z
}.

Definition M (A : Type) : Type := LayoutInferencer → Res (A * LayoutInferencer).

Definition ret {A} (a : A) : M A := λ st, Ok (a, st).

Definition bind {A B} (c : M A) (k : A → M B) : M B :=
  λ st, match c st with
        | Ok (a, st') => k a st'
        | Fatal msg => Fatal msg
        end.

Definition fatal {A} (msg : string) : M A := λ _, Fatal msg.

Notation "'let*' x ':=' c 'in' k" := (bind c (λ x, k))
  (at level 10, x pattern, c at level 100, k at level 200).

(** Field updates. *)
Definition set_layout (ref : N) (layout : RelayLayout)
    (st : LayoutInferencer) : LayoutInferencer :=
  mkLayoutInferencer (<[ref := layout]> (layout_map_ st))
    (layout_timestamp_ st) (modified_ st) (timestamp_ st).

Definition set_modified (b : bool) (st : LayoutInferencer) : LayoutInferencer :=
  mkLayoutInferencer (layout_map_ st) (layout_timestamp_ st) b (timestamp_ st).

Definition set_layout_timestamp (ref : N) (t : Z)
    (st : LayoutInferencer) : LayoutInferencer :=
  mkLayoutInferencer (layout_map_ st) (<[ref := t]> (layout_timestamp_ st))
    (modified_ st) (timestamp_ st).

(** [timestamp_++].  The generation is an [int]; it is an integer here,
    which is the same for as long as it stays within the values of an
    [int]. *)
Definition incr_timestamp (st : LayoutInferencer) : LayoutInferencer :=
  mkLayoutInferencer (layout_map_ st) (layout_timestamp_ st) (modified_ st)
    (timestamp_ st + 1).

(** [layout_timestamp_[expr]], as a value: a missing key reads as [0].  The
    key that [operator[]] inserts when it reads a missing one is not kept
    here; [StampKeys] below is the visitor that keeps it, and the two go
    through states that no read tells apart. *)
Definition timestamp_of (ref : N) (st : LayoutInferencer) : Z :=
  default 0 (layout_timestamp_ st !! ref).

(** [layout_map_[expr]]: [Map::operator[]] is [at], which fails on a missing
    key. *)
Definition layout_at (ref : N) : M RelayLayout :=
  λ st, match layout_map_ st !! ref with
        | Some layout => Ok (layout, st)
        | None => Fatal "Map::at: key not found"
        end.

(** ** The two constructors *)

(** [LayoutInferencer()]. *)
Definition LayoutInferencer_new : LayoutInferencer :=
  mkLayoutInferencer ∅ ∅ false 0.

(** [LayoutInferencer(in_layouts)] initialises [layout_map_] only: the members
    [modified_] and [timestamp_] are left with indeterminate values, which are
    parameters here. *)
Definition LayoutInferencer_seeded (in_layouts : gmap N RelayLayout)
    (modified0 : bool) (timestamp0 : Z) : LayoutInferencer :=
  mkLayoutInferencer in_layouts ∅ modified0 timestamp0.

(** ** Layout cache *)

Definition num_outputs (ty : Ty) : nat :=
  match ty with
  | TupleType fields => length fields
  | _ => 1%nat
  end.

Definition GetCachedLayout (expr : Expr) (default_layout : Layout)
    : M RelayLayout :=
  λ st,
    match layout_map_ st !! ref_of expr with
    | Some layout => Ok (layout, st)
    | None =>
        let n := num_outputs (checked_type expr) in
        let olayout :=
          if decide (n = 1%nat) then TensorLayout default_layout
          else TupleLayout (replicate n default_layout) in
        Ok (olayout, set_layout (ref_of expr) olayout (set_modified true st))
    end.

Definition UpdateLayoutCache (ref : N) (layout : RelayLayout)
    (st : LayoutInferencer) : LayoutInferencer :=
  match layout_map_ st !! ref with
  | Some old =>
      if decide (old = layout) then st
      else set_modified true (set_layout ref layout st)
  | None => set_modified true (set_layout ref layout st)
  end.

(** Modelled from the spec: [LayoutReporterNode] of tvm/relay/layout.h, which
    is not among the sources.  It is made from the nodes of a call and their
    current layouts, and a rule leaves its proposals in [results], which the
    engine reads as pairs of a node and a layout, in their order. *)
Record LayoutReporter : Type := mkLayoutReporter {
  nodes : list N;
  layouts : list RelayLayout;
  results : list (N * RelayLayout)
}.

Definition LayoutReporterNode_make (nodes : list N)
    (layouts : list RelayLayout) : LayoutReporter :=
  mkLayoutReporter nodes layouts [].

(** [UpdateLayoutCache(reporter)]. *)
Definition UpdateLayoutCache_all (results : list (N * RelayLayout))
    (st : LayoutInferencer) : LayoutInferencer :=
  foldl (λ s it, UpdateLayoutCache it.1 it.2 s) st results.

(** Modelled from the spec: the rule type [FInferLayout], declared outside the
    sources.  Its arguments are those the call visitor passes; a rule is
    external and free of side effects other than on the reporter, which it
    returns here with its success flag. *)
Definition FInferLayout : Type :=
  list RelayLayout → list Ty → nat → Attrs → LayoutReporter →
  bool * LayoutReporter.

(** [Downcast<Op>(call->op)] checks that the operator is an [OpNode]. *)
Definition Downcast_Op (op : Expr) : Res string :=
  match op with
  | OpNode _ _ name => Ok name
  | _ => Fatal "Downcast to relay.Op failed"
  end.

Section Visitor.

(** The attribute map [Op::GetAttr<FInferLayout>("FInferLayout")]: the rules,
    by operator. *)
Variable finfer_layout : string → option FInferLayout.

(** [GetLayout], open in the visit of its argument. *)
Definition GetLayout_with (visit : M RelayLayout) (ref : N) : M RelayLayout :=
  λ st,
    if bool_decide (layout_map_ st !! ref = None)
       || bool_decide (timestamp_of ref st < timestamp_ st)
    then
      (let* layout := visit in
       let* _ := (λ s, Ok (tt, set_layout ref layout s)) in
       layout_at ref) st
    else layout_at ref st.

Section CallArgs.

Variable get : Expr → M RelayLayout.

(** The loop over [call->args]: three arrays grow in step. *)
Fixpoint collect_args (args : list Expr) (layouts : list RelayLayout)
    (types : list Ty) (nodes : list N)
    : M (list RelayLayout * list Ty * list N) :=
  match args with
  | [] => ret (layouts, types, nodes)
  | arg :: rest =>
      let* arg_layout := get arg in
      collect_args rest (layouts ++ [arg_layout])
        (types ++ [checked_type arg]) (nodes ++ [ref_of arg])
  end.

End CallArgs.

(** What the call visitor does once its arrays are assembled: look the rule
    up, run it, merge its proposals when it succeeds, stamp the call. *)
Definition infer_call (node : Expr) (op : Expr) (num_args : nat)
    (attrs : Attrs) (layouts : list RelayLayout) (types : list Ty)
    (nodes : list N) : M RelayLayout :=
  λ st,
    match Downcast_Op op with
    | Fatal msg => Fatal msg
    | Ok name =>
        let st1 :=
          match finfer_layout name with
          | Some rule =>
              let reporter := LayoutReporterNode_make nodes layouts in
              let '(infer_success, reporter') :=
                rule layouts types num_args attrs reporter in
              if infer_success then UpdateLayoutCache_all (results reporter') st
              else st
          | None => st
          end in
        let st2 := set_layout_timestamp (ref_of node) (timestamp_ st1) st1 in
        GetCachedLayout node Undef st2
    end.

(** [VisitExpr] dispatches on the kind of the node to [VisitExpr_]. *)
Fixpoint VisitExpr (e : Expr) : M RelayLayout :=
  match e with
  | VarNode _ _ => GetCachedLayout e Undef
  | GlobalVarNode _ _ => fatal "GlobalVarNode"
  | ConstantNode _ _ => fatal "ConstantNode"
  | TupleNode _ _ _ => fatal "TupleNode"
  | TupleGetItemNode _ _ _ _ => fatal "TupleGetItemNode"
  | OpNode _ _ _ => fatal "OpNode"
  | LetNode _ _ _ _ _ => fatal "LetNode"
  | IfNode _ _ _ _ _ => fatal "IfNode"
  | CallNode _ ty op args attrs =>
      let* (layouts, types, nodes) :=
        collect_args (λ arg, GetLayout_with (VisitExpr arg) (ref_of arg))
          args [] [] [] in
      let* own := GetCachedLayout e Undef in
      infer_call e op (length args) attrs (layouts ++ [own]) (types ++ [ty])
        (nodes ++ [ref_of e])
  | FunctionNode _ _ _ body => VisitExpr body
  | MatchNode _ _ _ => fatal "MatchNode"
  | RefCreateNode _ _ _ => fatal "RefCreateNode"
  | RefReadNode _ _ _ => fatal "RefReadNode"
  | RefWriteNode _ _ _ _ => fatal "RefWriteNode"
  | ConstructorNode _ _ _ => fatal "ConstructorNode"
  end.

Definition GetLayout (expr : Expr) : M RelayLayout :=
  GetLayout_with (VisitExpr expr) (ref_of expr).

(** The arrays of a call node: the layouts, types and addresses of its
    arguments, then those of the call itself. *)
Definition call_inputs (call : Expr) (args : list Expr)
    : M (list RelayLayout * list Ty * list N) :=
  let* (layouts, types, nodes) := collect_args GetLayout args [] [] [] in
  let* own := GetCachedLayout call Undef in
  ret (layouts ++ [own], types ++ [checked_type call], nodes ++ [ref_of call]).

(** ** The fixed-point driver *)

(** [while (modified_) body]. *)
Fixpoint while_modified (fuel : nat)
    (body : LayoutInferencer → option (Res LayoutInferencer))
    (st : LayoutInferencer) : option (Res LayoutInferencer) :=
  if modified_ st then
    match fuel with
    | O => None
    | S fuel' =>
        match body st with
        | Some (Ok st') => while_modified fuel' body st'
        | other => other
        end
    end
  else Some (Ok st).

Fixpoint Infer (fuel : nat) (expr : Expr) (st : LayoutInferencer)
    : option (Res LayoutInferencer) :=
  match fuel with
  | O => None
  | S fuel' =>
      match VisitExpr expr st with
      | Fatal msg => Some (Fatal msg)
      | Ok (_, st1) =>
          while_modified fuel'
            (λ s, Infer fuel' expr (incr_timestamp (set_modified false s)))
            st1
      end
  end.

End Visitor.

(** ** Export *)

Definition layout_array (layout : RelayLayout) : list Layout :=
  match layout with
  | TensorLayout l => [l]
  | TupleLayout fields => fields
  end.

(** The member [CollectLayoutInfo]: one [Set] per entry of [layout_map_]. *)
Definition CollectLayoutInfo (st : LayoutInferencer)
    : gmap N (list Layout) * LayoutInferencer :=
  (foldl (λ map iter, <[iter.1 := layout_array iter.2]> map) ∅
     (map_to_list (layout_map_ st)), st).

(** The free function [CollectLayoutInfo(expr, in_layouts)]. *)
Definition CollectLayoutInfo_of (finfer_layout : string → option FInferLayout)
    (fuel : nat) (expr : Expr) (in_layouts : gmap N RelayLayout)
    (modified0 : bool) (timestamp0 : Z)
    : option (Res (gmap N (list Layout))) :=
  match Infer finfer_layout fuel expr
          (LayoutInferencer_seeded in_layouts modified0 timestamp0) with
  | None => None
  | Some (Fatal msg) => Some (Fatal msg)
  | Some (Ok st) => Some (Ok (CollectLayoutInfo st).1)
  end.

(** * Notions used in the statements *)

(** ** Node kinds, arity and defaults *)

(** The message each [VisitExpr_] without a body logs: the name of its node
    type. *)
Definition node_type_name (k : Kind) : string :=
  match k with
  | KVar => "VarNode"
  | KGlobalVar => "GlobalVarNode"
  | KConstant => "ConstantNode"
  | KTuple => "TupleNode"
  | KTupleGetItem => "TupleGetItemNode"
  | KOp => "OpNode"
  | KLet => "LetNode"
  | KIf => "IfNode"
  | KCall => "CallNode"
  | KFunction => "FunctionNode"
  | KMatch => "MatchNode"
  | KRefCreate => "RefCreateNode"
  | KRefRead => "RefReadNode"
  | KRefWrite => "RefWriteNode"
  | KConstructor => "ConstructorNode"
  end.

(** The twelve kinds whose [VisitExpr_] is a [LOG(FATAL)]. *)
Definition unsupported_kinds : list Kind :=
  [KGlobalVar; KConstant; KTuple; KTupleGetItem; KOp; KLet; KIf; KMatch;
   KRefCreate; KRefRead; KRefWrite; KConstructor].

(** The number of tensors a layout describes. *)
Definition RelayLayout_arity (layout : RelayLayout) : nat :=
  match layout with
  | TensorLayout _ => 1%nat
  | TupleLayout fields => length fields
  end.

(** The default the code builds: a tuple layout unless there is exactly one
    output. *)
Definition default_layout_of (ty : Ty) : RelayLayout :=
  match ty with
  | TupleType fields =>
      if decide (length fields = 1%nat) then TensorLayout Undef
      else TupleLayout (replicate (length fields) Undef)
  | _ => TensorLayout Undef
  end.

(** ** The nodes a visit reaches *)

(** The sub-expressions a visit can reach: the arguments of calls and the
    bodies of functions. *)
Fixpoint subexprs (e : Expr) : list Expr :=
  e :: match e with
       | CallNode _ _ _ args _ => flat_map subexprs args
       | FunctionNode _ _ _ body => subexprs body
       | _ => []
       end.

(** [e] is an argument of a call that a visit of [root] can reach. *)
Definition is_call_arg (root e : Expr) : Prop :=
  ∃ ref ty op args attrs,
    CallNode ref ty op args attrs ∈ subexprs root ∧ e ∈ args.

(** The addresses of the nodes a visit of [root] can reach. *)
Definition refs_of (root : Expr) : gset N :=
  list_to_set (ref_of <$> subexprs root).

(** The node whose entry a visit returns: a function stands for its body. *)
Fixpoint core (e : Expr) : Expr :=
  match e with
  | FunctionNode _ _ _ body => core body
  | _ => e
  end.

(** Addresses identify nodes: two reachable nodes at one address are the
    same node. *)
Definition wf_refs (root : Expr) : Prop :=
  ∀ a b, a ∈ subexprs root → b ∈ subexprs root →
         ref_of a = ref_of b → a = b.

(** Every node a visit of [root] reaches is of a kind the visitor handles,
    and the operator of every call is an [OpNode]. *)
Definition supported_expr (root : Expr) : Prop :=
  ∀ e, e ∈ subexprs root →
    supported_kind (kind_of e) = true ∧
    match e with
    | CallNode _ _ op _ _ => kind_of op = KOp
    | _ => True
    end.

(** No call that a visit of [root] reaches has a function as an argument. *)
Definition no_function_args (root : Expr) : Prop :=
  ∀ e, is_call_arg root e → kind_of e ≠ KFunction.

(** ** Steps of a visit *)

(** A node is recomputed by [GetLayout] when it has no entry or its stamp is
    older than the running generation. *)
Definition stale (ref : N) (st : LayoutInferencer) : Prop :=
  layout_map_ st !! ref = None ∨ timestamp_of ref st < timestamp_ st.

(** The state after the rule of operator [name] has run on the assembled
    arrays and its proposals, if it succeeded, have been merged. *)
Definition merged_state (finfer : string → option FInferLayout)
    (name : string) (num_args : nat) (attrs : Attrs)
    (inputs : list RelayLayout * list Ty * list N)
    (st : LayoutInferencer) : LayoutInferencer :=
  match finfer name with
  | Some rule =>
      let '(infer_success, reporter) :=
        rule inputs.1.1 inputs.1.2 num_args attrs
          (LayoutReporterNode_make inputs.2 inputs.1.1) in
      if infer_success then UpdateLayoutCache_all (results reporter) st
      else st
  | None => st
  end.

(** Within one round the generation stays, the modified flag is not cleared,
    entries are not removed, and a stamp changes only to the running
    generation. *)
Definition round_step (st st' : LayoutInferencer) : Prop :=
  timestamp_ st' = timestamp_ st ∧
  (modified_ st = true → modified_ st' = true) ∧
  (∀ n, is_Some (layout_map_ st !! n) → is_Some (layout_map_ st' !! n)) ∧
  (∀ n, layout_timestamp_ st' !! n = layout_timestamp_ st !! n ∨
        layout_timestamp_ st' !! n = Some (timestamp_ st)).

(** ** Rules and their proposals *)

(** The reporter protocol: a rule that succeeds reports layouts for nodes of
    the reporter it was handed, and for no other node. *)
Definition proposals_for_nodes (finfer : string → option FInferLayout)
    : Prop :=
  ∀ name rule layouts types num_args attrs reporter reporter',
    finfer name = Some rule →
    rule layouts types num_args attrs reporter = (true, reporter') →
    ∀ it, it ∈ results reporter' → it.1 ∈ nodes reporter.

(** The proposals of a rule, merged in their order into the map [m]: each is
    for one of [nodes], and is the entry its node has at that moment or ranks
    strictly above it. *)
Fixpoint monotone_merge (rank : RelayLayout → nat) (nodes : list N)
    (results : list (N * RelayLayout)) (m : gmap N RelayLayout) : Prop :=
  match results with
  | [] => True
  | it :: rest =>
      it.1 ∈ nodes ∧
      (∀ old, m !! it.1 = Some old → it.2 = old ∨ (rank old < rank it.2)%nat) ∧
      monotone_merge rank nodes rest (<[it.1 := it.2]> m)
  end.

(** A rule set is monotone on [root] for a specificity [rank] when, whenever
    the rule of a call of [root] runs and succeeds, its proposals are a
    monotone merge into the map of that moment. *)
Definition monotone_rules (finfer : string → option FInferLayout)
    (rank : RelayLayout → nat) (root : Expr) : Prop :=
  ∀ ref ty op args attrs name rule st inputs st1 reporter,
    CallNode ref ty op args attrs ∈ subexprs root →
    call_inputs finfer (CallNode ref ty op args attrs) args st
      = Ok (inputs, st1) →
    Downcast_Op op = Ok name →
    finfer name = Some rule →
    rule inputs.1.1 inputs.1.2 (length args) attrs
      (LayoutReporterNode_make inputs.2 inputs.1.1) = (true, reporter) →
    monotone_merge rank inputs.2 (results reporter) (layout_map_ st1).

(** How a run of [Infer] that terminates ends: with the flag down after a
    visit of the root that changed no entry; or, when the expression holds a
    node the visitor does not handle, with the fatal error. *)
Definition settles (finfer : string → option FInferLayout) (root : Expr)
    (res : Res LayoutInferencer) : Prop :=
  match res with
  | Ok st' =>
      modified_ st' = false ∧
      ∃ st r, VisitExpr finfer root st = Ok (r, st') ∧
              layout_map_ st = layout_map_ st'
  | Fatal _ => ¬ supported_expr root
  end.

(** ** Rounds that leave the flag down *)

(** A stretch of a round in which the flag stays down: the generation
    stays; a stamp changes only to the running generation; an entry changes
    only when it is the entry of a function that was due for recomputation,
    and then to the entry of the node the function stands for. *)
Definition quiet_step (root : Expr) (st st' : LayoutInferencer) : Prop :=
  modified_ st = false ∧ modified_ st' = false ∧
  timestamp_ st' = timestamp_ st ∧
  (∀ n, layout_timestamp_ st' !! n = layout_timestamp_ st !! n ∨
        layout_timestamp_ st' !! n = Some (timestamp_ st)) ∧
  (∀ n, layout_map_ st' !! n = layout_map_ st !! n ∨
        (stale n st ∧
         ∃ ty params body v,
           FunctionNode n ty params body ∈ subexprs root ∧
           layout_map_ st' !! n = Some v ∧
           layout_map_ st' !! ref_of (core body) = Some v)).

(** A stretch of a round, and what it is when the flag is still down at its
    end. *)
Definition quiet_round (root : Expr) (st st' : LayoutInferencer) : Prop :=
  round_step st st' ∧ (modified_ st' = false → quiet_step root st st').

(** * The design document, as worded *)

(** The default of the design document, by the shape of the static type: a
    tensor layout for a tensor, a tuple layout of as many fields for a tuple;
    it says nothing of other types. *)
Definition spec_default_layout (ty : Ty) : option RelayLayout :=
  match ty with
  | TensorType _ _ => Some (TensorLayout Undef)
  | TupleType fields => Some (TupleLayout (replicate (length fields) Undef))
  | FuncType _ _ => None
  end.

(** C2 as worded: a node without an entry gets that default, inserted and
    returned, and the flag is raised. *)
Definition default_insertion_claim : Prop :=
  ∀ (expr : Expr) (st : LayoutInferencer) (olayout : RelayLayout),
    layout_map_ st !! ref_of expr = None →
    spec_default_layout (checked_type expr) = Some olayout →
    ∃ st', GetCachedLayout expr Undef st = Ok (olayout, st') ∧
           layout_map_ st' !! ref_of expr = Some olayout ∧
           modified_ st' = true.

(** C5 as worded: after the visit of a call whose operator has no rule no
    entry has another value, and the layout the call had is returned. *)
Definition unregistered_call_claim : Prop :=
  ∀ finfer ref ty oref oty name args attrs st r st',
    finfer name = None →
    VisitExpr finfer (CallNode ref ty (OpNode oref oty name) args attrs) st
      = Ok (r, st') →
    (∀ n v, layout_map_ st !! n = Some v → layout_map_ st' !! n = Some v) ∧
    (∀ v, layout_map_ st !! ref = Some v → r = v).

(** C4 as worded, in three parts: a proposal of the wrong arity aborts the
    visit of the call; so does a pre-seeded entry of the wrong arity when its
    node is visited; and no visit changes the arity of an entry. *)
Definition proposal_arity_claim : Prop :=
  ∀ finfer ref ty op args attrs st inputs st1 name rule reporter a layout,
    let call := CallNode ref ty op args attrs in
    call_inputs finfer call args st = Ok (inputs, st1) →
    Downcast_Op op = Ok name →
    finfer name = Some rule →
    rule inputs.1.1 inputs.1.2 (length args) attrs
      (LayoutReporterNode_make inputs.2 inputs.1.1) = (true, reporter) →
    a ∈ call :: args →
    (ref_of a, layout) ∈ results reporter →
    RelayLayout_arity layout ≠ num_outputs (checked_type a) →
    ∃ msg, VisitExpr finfer call st = Fatal msg.

(** The second part: a pre-seeded entry of the wrong arity. *)
Definition seeded_arity_claim : Prop :=
  ∀ finfer in_layouts modified0 timestamp0 x ty layout,
    in_layouts !! x = Some layout →
    RelayLayout_arity layout ≠ num_outputs ty →
    ∃ msg, VisitExpr finfer (VarNode x ty)
             (LayoutInferencer_seeded in_layouts modified0 timestamp0)
           = Fatal msg.

(** The third part: the arity of an entry never changes. *)
Definition arity_stable_claim : Prop :=
  ∀ finfer e st r st' n v v',
    VisitExpr finfer e st = Ok (r, st') →
    layout_map_ st !! n = Some v →
    layout_map_ st' !! n = Some v' →
    RelayLayout_arity v' = RelayLayout_arity v.

(** C3 as worded: with a specificity that cannot grow for ever and a rule
    set whose proposals are monotone for it, [Infer] terminates. *)
Definition monotone_convergence_claim : Prop :=
  ∀ finfer rank bound root st,
    (∀ layout, (rank layout ≤ bound)%nat) →
    monotone_rules finfer rank root →
    ∃ fuel, Infer finfer fuel root st ≠ None.

(** * Example programs *)

(** ** One convolution

    [conv2d(x, w)] with a rule that, as long as it sees nothing but [Undef],
    proposes [NCHW] for the data and the result and [OIHW] for the weight,
    and declines otherwise. *)

Definition tensor4 : Ty := TensorType [1; 3; 224; 224] "float32".
Definition NCHW : RelayLayout := TensorLayout (LayoutTag "NCHW").
Definition NHWC : RelayLayout := TensorLayout (LayoutTag "NHWC").
Definition OIHW : RelayLayout := TensorLayout (LayoutTag "OIHW").

Definition var_x : Expr := VarNode 1 tensor4.
Definition var_w : Expr := VarNode 2 tensor4.
Definition op_conv2d : Expr :=
  OpNode 10 (FuncType [tensor4; tensor4] tensor4) "nn.conv2d".
Definition call_conv2d : Expr :=
  CallNode 3 tensor4 op_conv2d [var_x; var_w] NoAttrs.

Definition conv2d_rule : FInferLayout :=
  λ layouts types num_args attrs reporter,
    match layouts, nodes reporter with
    | [TensorLayout Undef; TensorLayout Undef; TensorLayout Undef],
      [data; weight; out] =>
        (true, mkLayoutReporter (nodes reporter) layouts
                 [(data, NCHW); (weight, OIHW); (out, NCHW)])
    | _, _ => (false, reporter)
    end.

Definition conv2d_rules (name : string) : option FInferLayout :=
  if decide (name = "nn.conv2d") then Some conv2d_rule else None.

(** An operator without a rule, applied to the convolution. *)
Definition op_copy : Expr := OpNode 11 (FuncType [tensor4] tensor4) "copy".
Definition call_copy : Expr := CallNode 4 tensor4 op_copy [call_conv2d] NoAttrs.

(** ** A rule that ignores the type of its operand *)

(** A rule that proposes a layout of two fields for its first operand,
    whatever the type of that operand. *)
Definition pair_rule : FInferLayout :=
  λ layouts types num_args attrs reporter,
    match nodes reporter with
    | data :: _ =>
        (true, mkLayoutReporter (nodes reporter) layouts
                 [(data, TupleLayout [LayoutTag "NCHW"; LayoutTag "NHWC"])])
    | [] => (false, reporter)
    end.

Definition pair_rules (name : string) : option FInferLayout :=
  if decide (name = "split") then Some pair_rule else None.

Definition op_split : Expr := OpNode 12 (FuncType [tensor4] tensor4) "split".
Definition call_split : Expr := CallNode 5 tensor4 op_split [var_x] NoAttrs.

(** ** A function as an argument *)

(** Two ranks: [Undef] for a tensor, and everything else. *)
Definition rank01 (layout : RelayLayout) : nat :=
  if decide (layout = TensorLayout Undef) then 0%nat else 1%nat.

(** A call whose argument is a function, with a rule that proposes [NCHW]
    for that argument as long as it sees [Undef] there. *)
Definition var_y : Expr := VarNode 6 tensor4.
Definition fn_arg : Expr := FunctionNode 7 (FuncType [] tensor4) [] var_y.
Definition op_apply : Expr :=
  OpNode 13 (FuncType [FuncType [] tensor4] tensor4) "apply".
Definition call_apply : Expr := CallNode 8 tensor4 op_apply [fn_arg] NoAttrs.

Definition apply_rule : FInferLayout :=
  λ layouts types num_args attrs reporter,
    match layouts, nodes reporter with
    | TensorLayout Undef :: _, fn :: _ =>
        (true, mkLayoutReporter (nodes reporter) layouts [(fn, NCHW)])
    | _, _ => (false, reporter)
    end.

Definition apply_rules (name : string) : option FInferLayout :=
  if decide (name = "apply") then Some apply_rule else None.

(** The state in which round [k] of [Infer] on [call_apply] starts. *)
Definition apply_state (k : Z) : LayoutInferencer :=
  mkLayoutInferencer
    {[6%N := TensorLayout Undef; 7%N := NCHW; 8%N := TensorLayout Undef]}
    {[8%N := k - 1]} false k.

(** * Further notions *)

(** ** Entries for the nodes of an expression *)

(** Every variable and every call that a visit of [e] can reach has an
    entry. *)
Definition covered (e : Expr) (m : gmap N RelayLayout) : Prop :=
  ∀ a, a ∈ subexprs e → kind_of a = KVar ∨ kind_of a = KCall →
       is_Some (m !! ref_of a).

(** A map is closed on [root] when a node of [root] has an entry only if the
    variables and calls below it have one too. *)
Definition closed (root : Expr) (m : gmap N RelayLayout) : Prop :=
  ∀ a, a ∈ subexprs root → is_Some (m !! ref_of a) → covered a m.

(** Every entry of a node of [root] has the arity of the static type of the
    node. *)
Definition arity_ok (root : Expr) (m : gmap N RelayLayout) : Prop :=
  ∀ e layout, e ∈ subexprs root → m !! ref_of e = Some layout →
    RelayLayout_arity layout = num_outputs (checked_type e).

(** Why a visit of [e] can end in the fatal error [msg]: a node of a kind the
    visitor does not handle, or a call whose operator is not an [OpNode]. *)
Definition failure_cause (e : Expr) (msg : string) : Prop :=
  ∃ e', e' ∈ subexprs e ∧
    ((supported_kind (kind_of e') = false ∧
      msg = node_type_name (kind_of e')) ∨
     (∃ ref ty op args attrs,
        e' = CallNode ref ty op args attrs ∧ kind_of op ≠ KOp ∧
        msg = "Downcast to relay.Op failed")).

(** * The first revision of the pass

    The earlier [layout_infer.cc]: the class has the layout map as its only
    member, [GetLayout] is the cached-or-default lookup, the call visitor
    does not visit the arguments of the call, and [Infer] is one visit. *)

Module FirstRevision.

(** Modelled from the spec: the reporter of this revision, declared outside
    the sources.  It is made from the nodes of a call, and a rule leaves its
    proposals in [layout_map], read as pairs in their order. *)
Record LayoutReporter : Type := mkLayoutReporter {
  nodes : list N;
  layout_map : list (N * RelayLayout)
}.

Definition LayoutReporterNode_make (nodes : list N) : LayoutReporter :=
  mkLayoutReporter nodes [].

(** Modelled from the spec: the rule type of this revision, declared outside
    the sources; its arguments are those the call visitor passes. *)
Definition FInferLayout : Type :=
  list RelayLayout → list Ty → nat → Attrs → LayoutReporter →
  bool * LayoutReporter.

(** The methods thread the one member, [layout_map_]. *)
Definition M (A : Type) : Type :=
  gmap N RelayLayout → Res (A * gmap N RelayLayout).

Definition GetLayout (expr : Expr) (default_layout : Layout)
    : M RelayLayout :=
  λ layout_map_,
    match layout_map_ !! ref_of expr with
    | None =>
        let n := num_outputs (checked_type expr) in
        let olayout :=
          if decide (n = 1%nat) then TensorLayout default_layout
          else TupleLayout (replicate n default_layout) in
        Ok (olayout, <[ref_of expr := olayout]> layout_map_)
    | Some layout => Ok (layout, layout_map_)
    end.

(** The loop over [call->args]. *)
Fixpoint collect_args (args : list Expr) (layouts : list RelayLayout)
    (types : list Ty) (nodes : list N)
    : M (list RelayLayout * list Ty * list N) :=
  match args with
  | [] => λ layout_map_, Ok ((layouts, types, nodes), layout_map_)
  | arg :: rest =>
      λ layout_map_,
        match GetLayout arg Undef layout_map_ with
        | Ok (arg_layout, layout_map_1) =>
            collect_args rest (layouts ++ [arg_layout])
              (types ++ [checked_type arg]) (nodes ++ [ref_of arg])
              layout_map_1
        | Fatal msg => Fatal msg
        end
  end.

(** The loop over [reporter->layout_map]: one [Set] per pair. *)
Definition Set_all (results : list (N * RelayLayout))
    (layout_map_ : gmap N RelayLayout) : gmap N RelayLayout :=
  foldl (λ map it, <[it.1 := it.2]> map) layout_map_ results.

Section Visitor.

Variable finfer_layout : string → option FInferLayout.

(** The state after the rule of operator [name], if there is one, has run
    and its proposals, if it succeeded, have been stored. *)
Definition run_rule (name : string) (num_args : nat) (attrs : Attrs)
    (layouts : list RelayLayout) (types : list Ty) (nodes : list N)
    (layout_map_ : gmap N RelayLayout) : gmap N RelayLayout :=
  match finfer_layout name with
  | Some rule =>
      let '(infer_success, reporter) :=
        rule layouts types num_args attrs (LayoutReporterNode_make nodes) in
      if infer_success then Set_all (layout_map reporter) layout_map_
      else layout_map_
  | None => layout_map_
  end.

Fixpoint VisitExpr (e : Expr) : M RelayLayout :=
  match e with
  | VarNode _ _ => GetLayout e Undef
  | GlobalVarNode _ _ => λ _, Fatal "GlobalVarNode"
  | ConstantNode _ _ => λ _, Fatal "ConstantNode"
  | TupleNode _ _ _ => λ _, Fatal "TupleNode"
  | TupleGetItemNode _ _ _ _ => λ _, Fatal "TupleGetItemNode"
  | OpNode _ _ _ => λ _, Fatal "OpNode"
  | LetNode _ _ _ _ _ => λ _, Fatal "LetNode"
  | IfNode _ _ _ _ _ => λ _, Fatal "IfNode"
  | CallNode _ ty op args attrs =>
      λ layout_map_,
        match collect_args args [] [] [] layout_map_ with
        | Fatal msg => Fatal msg
        | Ok ((layouts, types, nodes), layout_map_1) =>
            match GetLayout e Undef layout_map_1 with
            | Fatal msg => Fatal msg
            | Ok (own, layout_map_2) =>
                match Downcast_Op op with
                | Fatal msg => Fatal msg
                | Ok name =>
                    let layouts := layouts ++ [own] in
                    let layout_map_3 :=
                      run_rule name (length args) attrs layouts
                        (types ++ [ty]) (nodes ++ [ref_of e]) layout_map_2 in
                    match last layouts with
                    | Some layout => Ok (layout, layout_map_3)
                    | None => Fatal "Array: index out of range"
                    end
                end
            end
        end
  | FunctionNode _ _ _ body => VisitExpr body
  | MatchNode _ _ _ => λ _, Fatal "MatchNode"
  | RefCreateNode _ _ _ => λ _, Fatal "RefCreateNode"
  | RefReadNode _ _ _ => λ _, Fatal "RefReadNode"
  | RefWriteNode _ _ _ _ => λ _, Fatal "RefWriteNode"
  | ConstructorNode _ _ _ => λ _, Fatal "ConstructorNode"
  end.

(** [Infer]: one visit; the expression is returned as it came. *)
Definition Infer (expr : Expr) (layout_map_ : gmap N RelayLayout)
    : Res (Expr * gmap N RelayLayout) :=
  match VisitExpr expr layout_map_ with
  | Ok (_, layout_map_1) => Ok (expr, layout_map_1)
  | Fatal msg => Fatal msg
  end.

End Visitor.

(** The member [CollectLayoutInfo]. *)
Definition CollectLayoutInfo_member (layout_map_ : gmap N RelayLayout)
    : gmap N (list Layout) :=
  foldl (λ map iter, <[iter.1 := layout_array iter.2]> map) ∅
    (map_to_list layout_map_).

(** [InferLayout(expr, mod_ref)]: a new inferencer, one [Infer]. *)
Definition InferLayout (finfer_layout : string → option FInferLayout)
    (expr : Expr) : Res Expr :=
  match Infer finfer_layout expr ∅ with
  | Ok (e, _) => Ok e
  | Fatal msg => Fatal msg
  end.

(** The free function [CollectLayoutInfo(expr)]. *)
Definition CollectLayoutInfo (finfer_layout : string → option FInferLayout)
    (expr : Expr) : Res (gmap N (list Layout)) :=
  match Infer finfer_layout expr ∅ with
  | Ok (_, layout_map_) => Ok (CollectLayoutInfo_member layout_map_)
  | Fatal msg => Fatal msg
  end.

End FirstRevision.

(** The rules of the two revisions agree when, operator by operator, the
    rule of one succeeds and reports exactly as the rule of the other does
    on the same arrays and nodes. *)
Definition rules_agree (finfer0 : string → option FirstRevision.FInferLayout)
    (finfer : string → option FInferLayout) : Prop :=
  ∀ name,
    match finfer0 name, finfer name with
    | None, None => True
    | Some rule0, Some rule =>
        ∀ layouts types num_args attrs nodes,
          let out0 := rule0 layouts types num_args attrs
                        (FirstRevision.LayoutReporterNode_make nodes) in
          let out := rule layouts types num_args attrs
                       (LayoutReporterNode_make nodes layouts) in
          out0.1 = out.1 ∧ FirstRevision.layout_map out0.2 = results out.2
    | _, _ => False
    end.

(** The rule of the convolution, for the reporter of the first revision. *)
Definition conv2d_rule0 : FirstRevision.FInferLayout :=
  λ layouts types num_args attrs reporter,
    match layouts, FirstRevision.nodes reporter with
    | [TensorLayout Undef; TensorLayout Undef; TensorLayout Undef],
      [data; weight; out] =>
        (true, FirstRevision.mkLayoutReporter (FirstRevision.nodes reporter)
                 [(data, NCHW); (weight, OIHW); (out, NCHW)])
    | _, _ => (false, reporter)
    end.

Definition conv2d_rules0 (name : string)
    : option FirstRevision.FInferLayout :=
  if decide (name = "nn.conv2d") then Some conv2d_rule0 else None.

(** * The proposals of a run *)

(** The proposals that are merged during a visit, in the order in which
    [UpdateLayoutCache(reporter)] reads them: what the rule of each visited
    call reported when it succeeded.  The states in which the rules run are
    those the visitor goes through. *)

Section Proposals.

Variable finfer_layout : string → option FInferLayout.

(** What the rule of operator [name] reports on the arrays of a call; nothing
    when the operator has no rule or the rule declines. *)
Definition rule_proposals (name : string) (num_args : nat) (attrs : Attrs)
    (inputs : list RelayLayout * list Ty * list N)
    : list (N * RelayLayout) :=
  match finfer_layout name with
  | Some rule =>
      let '(infer_success, reporter) :=
        rule inputs.1.1 inputs.1.2 num_args attrs
          (LayoutReporterNode_make inputs.2 inputs.1.1) in
      if infer_success then results reporter else []
  | None => []
  end.

(** [GetLayout] visits its argument only when the node is due. *)
Definition GetLayout_proposals_with
    (visit_proposals : LayoutInferencer → list (N * RelayLayout)) (ref : N)
    : LayoutInferencer → list (N * RelayLayout) :=
  λ st,
    if bool_decide (layout_map_ st !! ref = None)
       || bool_decide (timestamp_of ref st < timestamp_ st)
    then visit_proposals st
    else [].

Section CallArgs.

Variable get : Expr → M RelayLayout.
Variable get_proposals : Expr → LayoutInferencer → list (N * RelayLayout).

(** The loop over [call->args]. *)
Fixpoint args_proposals (args : list Expr) (st : LayoutInferencer)
    : list (N * RelayLayout) :=
  match args with
  | [] => []
  | arg :: rest =>
      get_proposals arg st ++
      match get arg st with
      | Ok (_, st1) => args_proposals rest st1
      | Fatal _ => []
      end
  end.

End CallArgs.

Fixpoint VisitExpr_proposals (e : Expr) (st : LayoutInferencer)
    : list (N * RelayLayout) :=
  match e with
  | CallNode _ _ op args attrs =>
      args_proposals (GetLayout finfer_layout)
        (λ arg, GetLayout_proposals_with (VisitExpr_proposals arg)
                  (ref_of arg))
        args st ++
      match call_inputs finfer_layout e args st with
      | Ok (inputs, _) =>
          match Downcast_Op op with
          | Ok name => rule_proposals name (length args) attrs inputs
          | Fatal _ => []
          end
      | Fatal _ => []
      end
  | FunctionNode _ _ _ body => VisitExpr_proposals body st
  | _ => []
  end.

(** The proposals of the rounds of [Infer] that [fuel] allows. *)
Fixpoint Infer_proposals (fuel : nat) (expr : Expr) (st : LayoutInferencer)
    : list (N * RelayLayout) :=
  match fuel with
  | O => []
  | S fuel' =>
      VisitExpr_proposals expr st ++
      match VisitExpr finfer_layout expr st with
      | Ok (_, st1) =>
          if modified_ st1
          then Infer_proposals fuel' expr
                 (incr_timestamp (set_modified false st1))
          else []
      | Fatal _ => []
      end
  end.

End Proposals.

(** The proposals for a node are monotone for a specificity [rank]: each
    later proposal for the node is identical to an earlier one or strictly
    more specific. *)
Definition monotone_proposals (rank : RelayLayout → nat)
    (proposals : list (N * RelayLayout)) : Prop :=
  ∀ i j n earlier later,
    (i < j)%nat →
    proposals !! i = Some (n, earlier) →
    proposals !! j = Some (n, later) →
    later = earlier ∨ (rank earlier < rank later)%nat.

(** C3 as worded, with the proposals in the order of the run: when they are
    monotone for a specificity that cannot grow for ever, [Infer]
    terminates. *)
Definition monotone_run_convergence_claim : Prop :=
  ∀ finfer rank bound root st,
    (∀ layout, (rank layout ≤ bound)%nat) →
    (∀ fuel, monotone_proposals rank (Infer_proposals finfer fuel root st)) →
    ∃ fuel, Infer finfer fuel root st ≠ None.

(** The last proposal made for each node. *)
Definition last_proposals (proposals : list (N * RelayLayout))
    : gmap N RelayLayout :=
  foldl (λ m it, <[it.1 := it.2]> m) ∅ proposals.

(** The level of a node in a run: one for its entry, and one plus its rank
    for the last proposal made for it. *)
Definition level (rank : RelayLayout → nat) (hist : list (N * RelayLayout))
    (st : LayoutInferencer) (n : N) : nat :=
  ((match layout_map_ st !! n with Some _ => 1 | None => 0 end)
   + (match last_proposals hist !! n with
      | Some layout => S (rank layout)
      | None => 0
      end))%nat.

(** How a stretch of a run, from the state [st] with the proposals [hist]
    behind it to the state [st'] with [hist'], moves the levels when the
    entry of every node that has had a proposal is its last proposal: that
    stays so; the flag is not cleared; no level sinks; some level rises
    whenever the flag is raised, and the level of a node rises whenever its
    entry changes; entries are added only for nodes of [root] and for nodes
    that have a proposal; and the map is the same when the flag stays
    down. *)
Definition climbs (rank : RelayLayout → nat) (root : Expr)
    (hist : list (N * RelayLayout)) (st : LayoutInferencer)
    (hist' : list (N * RelayLayout)) (st' : LayoutInferencer) : Prop :=
  last_proposals hist ⊆ layout_map_ st →
  last_proposals hist' ⊆ layout_map_ st' ∧
  (∀ n, is_Some (last_proposals hist !! n) →
        is_Some (last_proposals hist' !! n)) ∧
  (modified_ st = true → modified_ st' = true) ∧
  (∀ n, (level rank hist st n ≤ level rank hist' st' n)%nat) ∧
  (modified_ st' = true →
   modified_ st = true ∨
   ∃ n, (level rank hist st n < level rank hist' st' n)%nat) ∧
  (∀ n, layout_map_ st' !! n ≠ layout_map_ st !! n →
        (level rank hist st n < level rank hist' st' n)%nat) ∧
  (∀ n, is_Some (layout_map_ st' !! n) →
        is_Some (layout_map_ st !! n) ∨ n ∈ refs_of root ∨
        is_Some (last_proposals hist' !! n)) ∧
  (modified_ st' = false → layout_map_ st' = layout_map_ st).

(** The nodes of [U] that are due: those whose stamp is older than the
    generation. *)
Definition due_set (U : gset N) (st : LayoutInferencer) : gset N :=
  filter (λ n, timestamp_of n st < timestamp_ st) U.

(** The levels of the nodes of [U], summed. *)
Definition levels (rank : RelayLayout → nat) (U : gset N)
    (hist : list (N * RelayLayout)) (st : LayoutInferencer) : nat :=
  sum_list_with (level rank hist st) (elements U).

(** Two inferencers that a visit of [root] does not tell apart: on the nodes
    of [U] they have the same entries, and the same nodes are due. *)
Definition same_view (U : gset N) (st st' : LayoutInferencer) : Prop :=
  (∀ n, n ∈ U → layout_map_ st !! n = layout_map_ st' !! n) ∧
  (∀ n, n ∈ U →
     timestamp_of n st < timestamp_ st ↔ timestamp_of n st' < timestamp_ st').

Definition same_view_result {A} (U : gset N)
    (res res' : Res (A * LayoutInferencer)) : Prop :=
  match res, res' with
  | Ok (a, st), Ok (a', st') => a = a' ∧ same_view U st st'
  | Fatal msg, Fatal msg' => msg = msg'
  | _, _ => False
  end.

(** Every proposal for a node of [root] has the arity of the static type of
    the node. *)
Definition arity_matching (root : Expr) (proposals : list (N * RelayLayout))
    : Prop :=
  ∀ it e, it ∈ proposals → e ∈ subexprs root → ref_of e = it.1 →
    RelayLayout_arity it.2 = num_outputs (checked_type e).

(** ** A rule that proposes the same at every run *)

(** A rule that proposes [NCHW] for its first node and [OIHW] for its
    second, whatever their entries are. *)
Definition fixed_rule : FInferLayout :=
  λ layouts types num_args attrs reporter,
    match nodes reporter with
    | data :: weight :: _ =>
        (true, mkLayoutReporter (nodes reporter) layouts
                 [(data, NCHW); (weight, OIHW)])
    | _ => (false, reporter)
    end.

Definition fixed_rules (name : string) : option FInferLayout :=
  if decide (name = "nn.conv2d") then Some fixed_rule else None.

(** ** A call of tuple type *)

Definition pair_type : Ty := TupleType [tensor4; tensor4].
Definition NCHW_pair : RelayLayout :=
  TupleLayout [LayoutTag "NCHW"; LayoutTag "NCHW"].
Definition op_halves : Expr := OpNode 14 (FuncType [tensor4] pair_type) "halves".
Definition call_halves : Expr := CallNode 30 pair_type op_halves [var_x] NoAttrs.

(** A rule that proposes a tensor layout for its operand and a layout of two
    fields for its result. *)
Definition halves_rule : FInferLayout :=
  λ layouts types num_args attrs reporter,
    match nodes reporter with
    | [data; out] =>
        (true, mkLayoutReporter (nodes reporter) layouts
                 [(data, NCHW); (out, NCHW_pair)])
    | _ => (false, reporter)
    end.

Definition halves_rules (name : string) : option FInferLayout :=
  if decide (name = "halves") then Some halves_rule else None.

(** * The rounds of the driver *)

(** The state in which round [i] of [Infer] starts, when the rounds before it
    have each been followed by another: after each visit of the root the
    flag is cleared and the generation incremented. *)
Fixpoint round_start (finfer_layout : string → option FInferLayout)
    (expr : Expr) (i : nat) (st : LayoutInferencer) : Res LayoutInferencer :=
  match i with
  | O => Ok st
  | S i' =>
      match VisitExpr finfer_layout expr st with
      | Ok (_, st1) =>
          round_start finfer_layout expr i'
            (incr_timestamp (set_modified false st1))
      | Fatal msg => Fatal msg
      end
  end.

(** The values of an [int]. *)
Definition INT_MIN : Z := -2147483648.
Definition INT_MAX : Z := 2147483647.
Definition int_range (z : Z) : Prop := INT_MIN ≤ z ≤ INT_MAX.

(** * The stamp map with its keys

    [layout_timestamp_] is a [std::unordered_map], and its [operator[]]
    inserts a missing key with the value [0] before it reads it.  The visitor
    reads stamps through [operator[]] only, so that a key with the stamp [0]
    and a missing key cannot be told apart, and [timestamp_of] reads without
    inserting.  Here is the visitor with the insertion. *)

Module StampKeys.

(** [layout_timestamp_[expr]], read. *)
Definition stamp_at (ref : N) (st : LayoutInferencer) : Z * LayoutInferencer :=
  match layout_timestamp_ st !! ref with
  | Some t => (t, st)
  | None => (0, set_layout_timestamp ref 0 st)
  end.

Section Visitor.

Variable finfer_layout : string → option FInferLayout.

(** [GetLayout], open in the visit of its argument: the stamp is read, and
    its key inserted, only when the node has an entry. *)
Definition GetLayout_with (visit : M RelayLayout) (ref : N) : M RelayLayout :=
  λ st,
    let visit_and_set : M RelayLayout :=
      let* layout := visit in
      let* _ := (λ s, Ok (tt, set_layout ref layout s)) in
      layout_at ref in
    match layout_map_ st !! ref with
    | None => visit_and_set st
    | Some _ =>
        let '(t, st1) := stamp_at ref st in
        if bool_decide (t < timestamp_ st1) then visit_and_set st1
        else layout_at ref st1
    end.

Fixpoint VisitExpr (e : Expr) : M RelayLayout :=
  match e with
  | VarNode _ _ => GetCachedLayout e Undef
  | GlobalVarNode _ _ => fatal "GlobalVarNode"
  | ConstantNode _ _ => fatal "ConstantNode"
  | TupleNode _ _ _ => fatal "TupleNode"
  | TupleGetItemNode _ _ _ _ => fatal "TupleGetItemNode"
  | OpNode _ _ _ => fatal "OpNode"
  | LetNode _ _ _ _ _ => fatal "LetNode"
  | IfNode _ _ _ _ _ => fatal "IfNode"
  | CallNode _ ty op args attrs =>
      let* (layouts, types, nodes) :=
        collect_args (λ arg, GetLayout_with (VisitExpr arg) (ref_of arg))
          args [] [] [] in
      let* own := GetCachedLayout e Undef in
      infer_call finfer_layout e op (length args) attrs (layouts ++ [own])
        (types ++ [ty]) (nodes ++ [ref_of e])
  | FunctionNode _ _ _ body => VisitExpr body
  | MatchNode _ _ _ => fatal "MatchNode"
  | RefCreateNode _ _ _ => fatal "RefCreateNode"
  | RefReadNode _ _ _ => fatal "RefReadNode"
  | RefWriteNode _ _ _ _ => fatal "RefWriteNode"
  | ConstructorNode _ _ _ => fatal "ConstructorNode"
  end.

Definition GetLayout (expr : Expr) : M RelayLayout :=
  GetLayout_with (VisitExpr expr) (ref_of expr).

End Visitor.

End StampKeys.

(** Two inferencers that no read tells apart: the same layout map, flag and
    generation, and every stamp reads the same. *)
Definition same_reads (st st' : LayoutInferencer) : Prop :=
  layout_map_ st = layout_map_ st' ∧
  modified_ st = modified_ st' ∧
  timestamp_ st = timestamp_ st' ∧
  ∀ n, timestamp_of n st = timestamp_of n st'.

(** Two results that no read tells apart. *)
Definition same_result {A} (res res' : Res (A * LayoutInferencer)) : Prop :=
  match res, res' with
  | Ok (a, st), Ok (a', st') => a = a' ∧ same_reads st st'
  | Fatal msg, Fatal msg' => msg = msg'
  | _, _ => False
  end.

(** ** A rule that propagates *)

(** A rule that proposes, for its result, the layout its operand has. *)
Definition copy_rule : FInferLayout :=
  λ layouts types num_args attrs reporter,
    match layouts, nodes reporter with
    | data_layout :: _, [_; out] =>
        (true, mkLayoutReporter (nodes reporter) layouts [(out, data_layout)])
    | _, _ => (false, reporter)
    end.

Definition propagating_rules (name : string) : option FInferLayout :=
  if decide (name = "nn.conv2d") then Some conv2d_rule
  else if decide (name = "copy") then Some copy_rule
  else None.

(** * Properties *)

(** ** Unfolding the visitor *)

Lemma VisitExpr_call finfer ref ty op args attrs st :
  VisitExpr finfer (CallNode ref ty op args attrs) st =
  (let* (layouts, types, nodes) :=
     call_inputs finfer (CallNode ref ty op args attrs) args in
   infer_call finfer (CallNode ref ty op args attrs) op (length args) attrs
     layouts types nodes) st.
Proof.
  cbn [VisitExpr]. unfold call_inputs, bind, ret, GetLayout.
  destruct (collect_args _ args [] [] [] st) as [[[[ls ts] ns] st1]|msg];
    [|done].
  by destruct (GetCachedLayout _ Undef st1) as [[own st2]|msg].
Qed.

Lemma VisitExpr_function finfer ref ty params body st :
  VisitExpr finfer (FunctionNode ref ty params body) st =
  VisitExpr finfer body st.
Proof. done. Qed.

Lemma VisitExpr_var finfer ref ty st :
  VisitExpr finfer (VarNode ref ty) st =
  GetCachedLayout (VarNode ref ty) Undef st.
Proof. done. Qed.

(** ** Unsupported node kinds *)

Lemma unsupported_kinds_spec k :
  k ∈ unsupported_kinds ↔ supported_kind k = false.
Proof.
  unfold unsupported_kinds. split.
  - rewrite !elem_of_cons, elem_of_nil. intros H.
    repeat (destruct H as [->|H]; [done|]). done.
  - destruct k; try discriminate; intros _;
      repeat (first [apply list_elem_of_here | apply list_elem_of_further]).
Qed.

Lemma VisitExpr_unsupported finfer e st :
  supported_kind (kind_of e) = false →
  VisitExpr finfer e st = Fatal (node_type_name (kind_of e)).
Proof. destruct e; done. Qed.

(** C1.  A node whose kind is none of [Var], [Call], [Function] has one of
    the twelve other kinds, and visiting it is the fatal error of that kind,
    whatever the inferencer holds (its layout map included) and whatever
    rules are registered: no layout is returned, no default is inserted, and
    a run of [Infer] on it ends there. *)
Theorem unsupported_kind_aborts finfer e :
  kind_of e ≠ KVar → kind_of e ≠ KCall → kind_of e ≠ KFunction →
  kind_of e ∈ unsupported_kinds ∧
  ∀ st, VisitExpr finfer e st = Fatal (node_type_name (kind_of e)) ∧
        ∀ fuel, Infer finfer (S fuel) e st
                = Some (Fatal (node_type_name (kind_of e))).
Proof.
  intros HV HC HF.
  assert (supported_kind (kind_of e) = false) as Hk
    by (destruct (kind_of e); done).
  split; [by apply unsupported_kinds_spec|].
  intros st. split; [by apply VisitExpr_unsupported|].
  intros fuel. cbn [Infer]. by rewrite VisitExpr_unsupported.
Qed.

Lemma unsupported_kind_aborts_witness :
  let e := ConstantNode 7 (TensorType [2; 2] "float32") in
  let st := LayoutInferencer_seeded {[7%N := TensorLayout (LayoutTag "NCHW")]}
              false 0 in
  kind_of e ≠ KVar ∧ kind_of e ≠ KCall ∧ kind_of e ≠ KFunction ∧
  VisitExpr (λ _, None) e st = Fatal "ConstantNode" ∧
  Infer (λ _, None) 1 e st = Some (Fatal "ConstantNode").
Proof.
  intros e st. split; [done|]. split; [done|]. split; [done|].
  destruct (unsupported_kind_aborts (λ _, None) e) as [_ Habort];
    [done..|].
  destruct (Habort st) as [Hvisit Hinfer]. split; [exact Hvisit|].
  exact (Hinfer 0%nat).
Defined.

(** ** Default insertion *)

(** A variable whose static type is a tuple of one field gets
    [TensorLayout(Undef)], not a tuple layout of one [Undef]. *)
Lemma default_insertion_one_field_tuple :
  let expr := VarNode 1 (TupleType [TensorType [4] "float32"]) in
  layout_map_ LayoutInferencer_new !! ref_of expr = None ∧
  spec_default_layout (checked_type expr) = Some (TupleLayout [Undef]) ∧
  GetCachedLayout expr Undef LayoutInferencer_new
    = Ok (TensorLayout Undef,
          mkLayoutInferencer {[1%N := TensorLayout Undef]} ∅ true 0) ∧
  ¬ default_insertion_claim.
Proof.
  intros expr. split; [done|]. split; [done|]. split; [done|].
  intros H.
  destruct (H expr LayoutInferencer_new (TupleLayout [Undef]) eq_refl eq_refl)
    as (st' & Heq & _).
  discriminate Heq.
Qed.

Lemma default_layout_of_cases ty :
  match ty with
  | TupleType fields =>
      (length fields = 1%nat → default_layout_of ty = TensorLayout Undef) ∧
      (length fields ≠ 1%nat →
       default_layout_of ty = TupleLayout (replicate (length fields) Undef))
  | _ => default_layout_of ty = TensorLayout Undef
  end.
Proof.
  destruct ty as [| fields |]; cbn; [done| |done].
  destruct (decide (length fields = 1%nat)); split; done.
Qed.

Lemma default_layout_of_arity ty :
  RelayLayout_arity (default_layout_of ty) = num_outputs ty.
Proof.
  destruct ty as [| fields |]; cbn; [done| |done].
  destruct (decide (length fields = 1%nat)) as [->|]; cbn; [done|].
  by rewrite length_replicate.
Qed.

Lemma GetCachedLayout_absent expr st :
  layout_map_ st !! ref_of expr = None →
  GetCachedLayout expr Undef st
  = Ok (default_layout_of (checked_type expr),
        set_layout (ref_of expr) (default_layout_of (checked_type expr))
          (set_modified true st)).
Proof.
  intros Hnone. unfold GetCachedLayout. rewrite Hnone.
  by destruct (checked_type expr) as [| fields |].
Qed.

(** C2, amended.  For a node that has no entry yet, the cached-or-default
    lookup inserts and returns [TensorLayout(Undef)] when the static type is
    not a tuple or is a tuple of exactly one field, and the tuple layout of
    [N] copies of [Undef] when it is a tuple of [N ≠ 1] fields; the insertion
    sets the modified flag and touches nothing else. *)
Theorem default_insertion expr st :
  layout_map_ st !! ref_of expr = None →
  let olayout := default_layout_of (checked_type expr) in
  GetCachedLayout expr Undef st
    = Ok (olayout,
          mkLayoutInferencer (<[ref_of expr := olayout]> (layout_map_ st))
            (layout_timestamp_ st) true (timestamp_ st)) ∧
  match checked_type expr with
  | TupleType fields =>
      (length fields = 1%nat → olayout = TensorLayout Undef) ∧
      (length fields ≠ 1%nat →
       olayout = TupleLayout (replicate (length fields) Undef))
  | _ => olayout = TensorLayout Undef
  end.
Proof.
  intros Hnone olayout. split; [|apply default_layout_of_cases].
  by rewrite GetCachedLayout_absent.
Qed.

Lemma default_insertion_witness :
  let t := TensorType [4] "float32" in
  let expr := VarNode 1 (TupleType [t; t]) in
  layout_map_ LayoutInferencer_new !! ref_of expr = None ∧
  GetCachedLayout expr Undef LayoutInferencer_new
    = Ok (TupleLayout [Undef; Undef],
          mkLayoutInferencer {[1%N := TupleLayout [Undef; Undef]]} ∅ true 0).
Proof.
  intros t expr. split; [done|].
  exact (proj1 (default_insertion expr LayoutInferencer_new eq_refl)).
Defined.

(** ** Pre-seeded entries *)

Lemma GetCachedLayout_present expr default_layout st layout :
  layout_map_ st !! ref_of expr = Some layout →
  GetCachedLayout expr default_layout st = Ok (layout, st).
Proof. intros H. unfold GetCachedLayout. by rewrite H. Qed.

(** C8.  An inferencer constructed from a map that has an entry for a
    variable returns that entry when the variable is visited, and the visit
    changes nothing: the modified flag keeps the value it had, no default is
    inserted. *)
Theorem seeded_var_visit finfer in_layouts (x : N) ty layout modified0
    timestamp0 :
  in_layouts !! x = Some layout →
  VisitExpr finfer (VarNode x ty)
    (LayoutInferencer_seeded in_layouts modified0 timestamp0)
  = Ok (layout, LayoutInferencer_seeded in_layouts modified0 timestamp0).
Proof. intros H. by apply GetCachedLayout_present. Qed.

Lemma seeded_var_visit_witness :
  let NHWC := TensorLayout (LayoutTag "NHWC") in
  let st := LayoutInferencer_seeded {[1%N := NHWC]} false 0 in
  ({[1%N := NHWC]} : gmap N RelayLayout) !! 1%N = Some NHWC ∧
  VisitExpr (λ _, None) (VarNode 1 (TensorType [1; 224; 224; 3] "float32")) st
    = Ok (NHWC, st) ∧
  modified_ st = false.
Proof.
  intros NHWC st. split; [done|]. split; [|done].
  apply (seeded_var_visit (λ _, None) {[1%N := NHWC]} 1
           (TensorType [1; 224; 224; 3] "float32") NHWC false 0).
  done.
Defined.

(** ** Export *)

Lemma foldl_Set_lookup {A B} (f : A → B) (l : list (N * A))
    (m0 : gmap N B) (k : N) (b : B) :
  NoDup l.*1 →
  foldl (λ map iter, <[iter.1 := f iter.2]> map) m0 l !! k = Some b ↔
  (∃ a, (k, a) ∈ l ∧ b = f a) ∨ ((k ∉ l.*1) ∧ m0 !! k = Some b).
Proof.
  revert m0. induction l as [|[k' a'] l IH]; intros m0 Hnd; cbn.
  - split; [intros H; right; split; [apply not_elem_of_nil|done]|].
    intros [(a & Hin & _)|[_ H]]; [by apply elem_of_nil in Hin|done].
  - apply NoDup_cons in Hnd as [Hk' Hnd]. rewrite (IH _ Hnd). split.
    + intros [(a & Hin & ->)|[Hnot Hlk]].
      * left. exists a. split; [by apply list_elem_of_further|done].
      * destruct (decide (k' = k)) as [->|Hne].
        -- rewrite lookup_insert_eq in Hlk. injection Hlk as <-.
           left. exists a'. split; [apply list_elem_of_here|done].
        -- rewrite lookup_insert_ne in Hlk by done. right. split; [|done].
           rewrite elem_of_cons. intros [->|?]; done.
    + intros [(a & Hin & ->)|[Hnot Hlk]].
      * apply elem_of_cons in Hin as [Heq|Hin].
        -- injection Heq as -> ->. right. split; [done|].
           by rewrite lookup_insert_eq.
        -- left. by exists a.
      * rewrite elem_of_cons in Hnot. right. split; [tauto|].
        rewrite lookup_insert_ne; [done|]. intros ->. tauto.
Qed.

(** C9.  The export binds every node that has an entry, and no other, to one
    sequence: the one layout of a tensor entry, the fields of a tuple entry
    in their order; and it leaves the inferencer as it was. *)
Theorem collect_layout_info st :
  (∀ k, (CollectLayoutInfo st).1 !! k
          = layout_array <$> layout_map_ st !! k) ∧
  (∀ k l, layout_map_ st !! k = Some (TensorLayout l) →
          (CollectLayoutInfo st).1 !! k = Some [l]) ∧
  (∀ k fields, layout_map_ st !! k = Some (TupleLayout fields) →
               (CollectLayoutInfo st).1 !! k = Some fields) ∧
  dom (CollectLayoutInfo st).1 = dom (layout_map_ st) ∧
  (CollectLayoutInfo st).2 = st.
Proof.
  assert (∀ k, (CollectLayoutInfo st).1 !! k
               = layout_array <$> layout_map_ st !! k) as Hlk.
  { intros k. apply option_eq. intros b. cbn.
    rewrite foldl_Set_lookup by apply NoDup_fst_map_to_list.
    rewrite fmap_Some. split.
    - intros [(a & Hin & ->)|[_ H]]; [|by rewrite lookup_empty in H].
      exists a. split; [by apply elem_of_map_to_list|done].
    - intros (a & Hlk & ->). left. exists a.
      split; [by apply elem_of_map_to_list|done]. }
  split; [done|]. split; [|split; [|split; [|done]]].
  - intros k l H. by rewrite Hlk, H.
  - intros k fields H. by rewrite Hlk, H.
  - apply set_eq. intros k. rewrite !elem_of_dom, Hlk.
    by rewrite fmap_is_Some.
Qed.

Lemma collect_layout_info_witness :
  let st := mkLayoutInferencer
              {[1%N := NCHW;
                6%N := TupleLayout [LayoutTag "NCHW"; Undef]]} ∅ false 1 in
  (CollectLayoutInfo st).1 !! 1%N = Some [LayoutTag "NCHW"] ∧
  (CollectLayoutInfo st).1 !! 6%N = Some [LayoutTag "NCHW"; Undef] ∧
  (CollectLayoutInfo st).1 !! 2%N = None ∧
  (CollectLayoutInfo st).2 = st.
Proof.
  intros st.
  destruct (collect_layout_info st) as (Hall & Htensor & Htuple & _ & Hsame).
  split; [by apply Htensor|]. split; [by apply Htuple|].
  split; [by rewrite Hall|exact Hsame].
Defined.

(** ** Inversion of the monadic steps *)

Lemma bind_Ok {A B} (c : M A) (k : A → M B) st b st' :
  bind c k st = Ok (b, st') →
  ∃ a st1, c st = Ok (a, st1) ∧ k a st1 = Ok (b, st').
Proof.
  unfold bind. destruct (c st) as [[a st1]|msg]; [|done]. by exists a, st1.
Qed.

Lemma layout_at_Ok ref st r st' :
  layout_at ref st = Ok (r, st') → layout_map_ st !! ref = Some r ∧ st' = st.
Proof.
  unfold layout_at. destruct (layout_map_ st !! ref); [|done].
  by intros [= -> ->].
Qed.

Lemma GetLayout_with_Ok visit ref st r st' :
  GetLayout_with visit ref st = Ok (r, st') →
  (¬ stale ref st ∧ layout_map_ st !! ref = Some r ∧ st' = st) ∨
  (stale ref st ∧ ∃ st1, visit st = Ok (r, st1) ∧ st' = set_layout ref r st1).
Proof.
  unfold GetLayout_with, stale.
  destruct (bool_decide (layout_map_ st !! ref = None)) eqn:Hnone;
    destruct (bool_decide (timestamp_of ref st < timestamp_ st)) eqn:Hold;
    cbn [orb].
  4:{ intros Hat. apply layout_at_Ok in Hat as [Hlk ->].
      apply bool_decide_eq_false in Hnone, Hold. left. tauto. }
  all: intros Hb; right;
    (split; [first [apply bool_decide_eq_true in Hnone; tauto
                   |apply bool_decide_eq_true in Hold; tauto]|]);
    apply bind_Ok in Hb as (layout & st1 & Hv & Hb);
    apply bind_Ok in Hb as ([] & st2 & [= <-] & Hat);
    apply layout_at_Ok in Hat as [Hlk ->];
    cbn in Hlk; rewrite lookup_insert_eq in Hlk; injection Hlk as ->;
    by exists st1.
Qed.

Lemma GetLayout_with_fresh visit ref st r :
  layout_map_ st !! ref = Some r →
  ¬ timestamp_of ref st < timestamp_ st →
  GetLayout_with visit ref st = Ok (r, st).
Proof.
  intros Hlk Hfresh. unfold GetLayout_with.
  rewrite bool_decide_eq_false_2 by (by rewrite Hlk).
  rewrite bool_decide_eq_false_2 by done.
  cbn. unfold layout_at. by rewrite Hlk.
Qed.

Lemma GetLayout_with_stale visit ref st r st1 :
  stale ref st → visit st = Ok (r, st1) →
  GetLayout_with visit ref st = Ok (r, set_layout ref r st1).
Proof.
  intros Hstale Hv. unfold GetLayout_with.
  replace (bool_decide (layout_map_ st !! ref = None)
           || bool_decide (timestamp_of ref st < timestamp_ st)) with true.
  - unfold bind. rewrite Hv. unfold layout_at. cbn.
    by rewrite lookup_insert_eq.
  - symmetry. apply orb_true_iff. rewrite !bool_decide_eq_true. exact Hstale.
Qed.

Lemma GetCachedLayout_Ok expr st r st' :
  GetCachedLayout expr Undef st = Ok (r, st') →
  (layout_map_ st !! ref_of expr = Some r ∧ st' = st) ∨
  (layout_map_ st !! ref_of expr = None ∧
   r = default_layout_of (checked_type expr) ∧
   st' = set_layout (ref_of expr) r (set_modified true st)).
Proof.
  destruct (layout_map_ st !! ref_of expr) as [l|] eqn:Hlk.
  - rewrite (GetCachedLayout_present _ _ _ _ Hlk). intros [= -> ->]. by left.
  - rewrite (GetCachedLayout_absent expr st Hlk).
    intros [= <- <-]. right. done.
Qed.

Lemma GetCachedLayout_total expr st :
  ∃ r st', GetCachedLayout expr Undef st = Ok (r, st').
Proof. unfold GetCachedLayout. destruct (_ !! _); eauto. Qed.

Lemma GetCachedLayout_lookup expr st r st' :
  GetCachedLayout expr Undef st = Ok (r, st') →
  layout_map_ st' !! ref_of expr = Some r.
Proof.
  intros H. apply GetCachedLayout_Ok in H as [[? ->]|(_ & _ & ->)]; [done|].
  cbn. apply lookup_insert_eq.
Qed.

(** ** An induction principle that follows the visitor *)

Lemma Expr_visit_ind (P : Expr → Prop) :
  (∀ ref ty, P (VarNode ref ty)) →
  (∀ ref ty op args attrs,
     Forall P args → P (CallNode ref ty op args attrs)) →
  (∀ ref ty params body, P body → P (FunctionNode ref ty params body)) →
  (∀ e, supported_kind (kind_of e) = false → P e) →
  ∀ e, P e.
Proof.
  intros HV HC HF HU. fix IH 1. intros e.
  destruct e as [| | | | | | | | ref ty op args attrs
                | ref ty params body | | | | |];
    try (by apply HU).
  - apply HV.
  - apply HC. induction args as [|a args IHargs]; constructor; [apply IH|done].
  - apply HF, IH.
Qed.

(** The arguments of a call are resolved from left to right. *)
Lemma collect_args_Ok get args ls ts ns st res st' :
  collect_args get args ls ts ns st = Ok (res, st') →
  ∃ rs, res = (ls ++ rs, ts ++ (checked_type <$> args),
               ns ++ (ref_of <$> args)) ∧
        length rs = length args.
Proof.
  revert ls ts ns st. induction args as [|a args IH]; intros ls ts ns st; cbn.
  - intros [= <- <-]. exists []. by rewrite !app_nil_r.
  - intros Hb. apply bind_Ok in Hb as (r & st1 & _ & Hrest).
    apply IH in Hrest as (rs & -> & Hlen). exists (r :: rs).
    rewrite <- !app_assoc. cbn. by rewrite Hlen.
Qed.

(** ** The call visitor, step by step *)

Lemma VisitExpr_call_Ok finfer ref ty op args attrs st r st' :
  VisitExpr finfer (CallNode ref ty op args attrs) st = Ok (r, st') →
  ∃ inputs st1 name,
    call_inputs finfer (CallNode ref ty op args attrs) args st
      = Ok (inputs, st1) ∧
    Downcast_Op op = Ok name ∧
    let st2 := merged_state finfer name (length args) attrs inputs st1 in
    GetCachedLayout (CallNode ref ty op args attrs) Undef
      (set_layout_timestamp ref (timestamp_ st2) st2) = Ok (r, st').
Proof.
  rewrite VisitExpr_call. intros Hb.
  apply bind_Ok in Hb as ([[ls ts] ns] & st1 & Hin & Hcall).
  unfold infer_call in Hcall.
  destruct (Downcast_Op op) as [name|msg] eqn:Hop; [|done].
  exists (ls, ts, ns), st1, name. done.
Qed.

Lemma VisitExpr_call_intro finfer ref ty op args attrs st inputs st1 name :
  call_inputs finfer (CallNode ref ty op args attrs) args st
    = Ok (inputs, st1) →
  Downcast_Op op = Ok name →
  VisitExpr finfer (CallNode ref ty op args attrs) st =
  let st2 := merged_state finfer name (length args) attrs inputs st1 in
  GetCachedLayout (CallNode ref ty op args attrs) Undef
    (set_layout_timestamp ref (timestamp_ st2) st2).
Proof.
  intros Hin Hop. rewrite VisitExpr_call. unfold bind. rewrite Hin.
  destruct inputs as [[ls ts] ns]. unfold infer_call. by rewrite Hop.
Qed.

Lemma call_inputs_Ok finfer call args st inputs st' :
  call_inputs finfer call args st = Ok (inputs, st') →
  ∃ rs st1 own,
    collect_args (GetLayout finfer) args [] [] [] st
      = Ok ((rs, checked_type <$> args, ref_of <$> args), st1) ∧
    length rs = length args ∧
    GetCachedLayout call Undef st1 = Ok (own, st') ∧
    inputs = (rs ++ [own], (checked_type <$> args) ++ [checked_type call],
              (ref_of <$> args) ++ [ref_of call]).
Proof.
  unfold call_inputs. intros Hb.
  apply bind_Ok in Hb as (res & st1 & Hargs & Hb).
  destruct (collect_args_Ok _ _ _ _ _ _ _ _ Hargs) as (rs & -> & Hlen).
  apply bind_Ok in Hb as (own & st2 & Hown & [= <- <-]).
  by exists rs, st1, own.
Qed.

(** ** Induction over a visit *)

Lemma subexprs_self e : e ∈ subexprs e.
Proof. destruct e; apply list_elem_of_here. Qed.

Lemma subexprs_arg ref ty op args attrs a e :
  a ∈ args → e ∈ subexprs a → e ∈ subexprs (CallNode ref ty op args attrs).
Proof.
  intros Ha He. cbn. apply list_elem_of_further.
  apply list_elem_of_In, in_flat_map. exists a.
  by rewrite <- !list_elem_of_In.
Qed.

Lemma subexprs_body ref ty params body e :
  e ∈ subexprs body → e ∈ subexprs (FunctionNode ref ty params body).
Proof. intros He. cbn. by apply list_elem_of_further. Qed.

Lemma subexprs_trans e1 e2 e3 :
  e1 ∈ subexprs e2 → e2 ∈ subexprs e3 → e1 ∈ subexprs e3.
Proof.
  intros H12. induction e3 as [ref ty|ref ty op args attrs IH
                              |ref ty params body IH|e Hk]
    using Expr_visit_ind.
  - cbn. rewrite list_elem_of_singleton. by intros ->.
  - cbn [subexprs]. rewrite elem_of_cons. intros [->|Hin]; [done|].
    apply list_elem_of_In, in_flat_map in Hin as (a & Ha & Hin).
    apply list_elem_of_In in Ha, Hin.
    apply (subexprs_arg _ _ _ _ _ a); [done|].
    rewrite Forall_forall in IH. by apply IH.
  - cbn [subexprs]. rewrite elem_of_cons. intros [->|Hin]; [done|].
    apply subexprs_body. by apply IH.
  - destruct e; try discriminate; cbn; rewrite list_elem_of_singleton;
      by intros ->.
Qed.

Section VisitInduction.

Variable finfer : string → option FInferLayout.
Variable root : Expr.
Variable R : LayoutInferencer → LayoutInferencer → Prop.

Hypothesis R_refl : ∀ st, R st st.
Hypothesis R_trans : ∀ st1 st2 st3, R st1 st2 → R st2 st3 → R st1 st3.

(** The default insertion of [GetCachedLayout]. *)
Hypothesis R_default : ∀ e st,
  e ∈ subexprs root →
  layout_map_ st !! ref_of e = None →
  R st (set_layout (ref_of e) (default_layout_of (checked_type e))
          (set_modified true st)).

(** The [Set] of [GetLayout] after it has visited a stale node. *)
Hypothesis R_write : ∀ e st r st1,
  e ∈ subexprs root →
  is_call_arg root e →
  stale (ref_of e) st →
  VisitExpr finfer e st = Ok (r, st1) →
  R st st1 →
  R st1 (set_layout (ref_of e) r st1).

(** The rule of a call and the merge of its proposals. *)
Hypothesis R_merge : ∀ ref ty op args attrs name st inputs st1,
  CallNode ref ty op args attrs ∈ subexprs root →
  call_inputs finfer (CallNode ref ty op args attrs) args st
    = Ok (inputs, st1) →
  R st st1 →
  Downcast_Op op = Ok name →
  R st1 (merged_state finfer name (length args) attrs inputs st1).

(** The stamp of a call. *)
Hypothesis R_stamp : ∀ e st,
  e ∈ subexprs root →
  R st (set_layout_timestamp (ref_of e) (timestamp_ st) st).

Lemma GetCachedLayout_R e st r st' :
  e ∈ subexprs root →
  GetCachedLayout e Undef st = Ok (r, st') → R st st'.
Proof.
  intros Hsub H. apply GetCachedLayout_Ok in H as [[_ ->]|(Hn & -> & ->)].
  - apply R_refl.
  - by apply R_default.
Qed.

Lemma GetLayout_R e st r st' :
  e ∈ subexprs root →
  is_call_arg root e →
  (∀ st r st', VisitExpr finfer e st = Ok (r, st') → R st st') →
  GetLayout finfer e st = Ok (r, st') → R st st'.
Proof.
  intros Hsub Harg IH H.
  apply GetLayout_with_Ok in H as [(_ & _ & ->)|(Hst & st1 & Hv & ->)].
  - apply R_refl.
  - eapply R_trans; [by eapply IH|].
    by eapply R_write; [| | |done|eapply IH].
Qed.

Lemma collect_args_R args ls ts ns st res st' :
  (∀ a, a ∈ args → a ∈ subexprs root ∧ is_call_arg root a) →
  Forall (λ a, ∀ st r st', VisitExpr finfer a st = Ok (r, st') → R st st')
    args →
  collect_args (GetLayout finfer) args ls ts ns st = Ok (res, st') →
  R st st'.
Proof.
  intros Hsub IH. revert ls ts ns st.
  induction IH as [|a args Ha _ IHargs]; intros ls ts ns st; cbn.
  - intros [= _ <-]. apply R_refl.
  - intros Hb. apply bind_Ok in Hb as (r & st1 & Hget & Hrest).
    eapply R_trans.
    + eapply GetLayout_R; [| |done..]; apply Hsub, list_elem_of_here.
    + eapply IHargs; [|done]. intros a' Ha'.
      by apply Hsub, list_elem_of_further.
Qed.

Lemma VisitExpr_R e :
  e ∈ subexprs root →
  ∀ st r st', VisitExpr finfer e st = Ok (r, st') → R st st'.
Proof.
  induction e as [ref ty|ref ty op args attrs IH|ref ty params body IH|e Hk]
    using Expr_visit_ind; intros Hsub st r st' Hv.
  - by eapply GetCachedLayout_R.
  - apply VisitExpr_call_Ok in Hv as (inputs & st1 & name & Hin & Hop & Hfin).
    assert (R st st1) as R1.
    { apply call_inputs_Ok in Hin as (rs & st0 & own & Hargs & _ & Hown & _).
      eapply R_trans; [|by eapply GetCachedLayout_R].
      eapply collect_args_R; [| |done].
      - intros a Ha. split; [|by repeat eexists].
        eapply subexprs_trans; [|done].
        eapply subexprs_arg; [done|apply subexprs_self].
      - rewrite Forall_forall in IH. apply Forall_forall. intros a Ha.
        apply IH; [done|]. eapply subexprs_trans; [|done].
        eapply subexprs_arg; [done|apply subexprs_self]. }
    cbn zeta in Hfin.
    eapply R_trans; [exact R1|]. eapply R_trans; [by eapply R_merge|].
    eapply R_trans; [|by eapply GetCachedLayout_R].
    by apply (R_stamp (CallNode ref ty op args attrs)).
  - rewrite VisitExpr_function in Hv. eapply IH; [|done].
    eapply subexprs_trans; [|done]. apply subexprs_body, subexprs_self.
  - by rewrite VisitExpr_unsupported in Hv.
Qed.

End VisitInduction.

(** ** What a visit never undoes *)

Lemma round_step_refl st : round_step st st.
Proof. repeat split; auto. Qed.

Lemma round_step_trans st1 st2 st3 :
  round_step st1 st2 → round_step st2 st3 → round_step st1 st3.
Proof.
  intros (Ht1 & Hm1 & Hd1 & Hs1) (Ht2 & Hm2 & Hd2 & Hs2).
  split; [congruence|]. split; [auto|]. split; [auto|].
  intros n. destruct (Hs2 n) as [->| ->]; [apply Hs1|]. right. congruence.
Qed.

Lemma round_step_set_layout ref layout st :
  round_step st (set_layout ref layout st).
Proof.
  split; [done|]. split; [done|]. split; [|by left].
  intros n Hn. cbn. destruct (decide (ref = n)) as [->|Hne].
  - rewrite lookup_insert_eq. eauto.
  - by rewrite lookup_insert_ne.
Qed.

Lemma round_step_set_modified st : round_step st (set_modified true st).
Proof. split; [done|]. split; [done|]. split; [done|by left]. Qed.

Lemma round_step_stamp ref st :
  round_step st (set_layout_timestamp ref (timestamp_ st) st).
Proof.
  split; [done|]. split; [done|]. split; [done|].
  intros n. cbn. destruct (decide (ref = n)) as [->|Hne].
  - right. apply lookup_insert_eq.
  - left. by rewrite lookup_insert_ne.
Qed.

Lemma UpdateLayoutCache_cases ref layout st :
  (layout_map_ st !! ref = Some layout ∧ UpdateLayoutCache ref layout st = st) ∨
  (layout_map_ st !! ref ≠ Some layout ∧
   UpdateLayoutCache ref layout st
     = set_modified true (set_layout ref layout st)).
Proof.
  unfold UpdateLayoutCache.
  destruct (layout_map_ st !! ref) as [old|]; [|by right].
  destruct (decide (old = layout)) as [->|Hne]; [by left|right].
  split; [congruence|done].
Qed.

(** A relation that holds across every single merge holds across the rule of
    a call. *)
Lemma merged_state_ind (R : LayoutInferencer → LayoutInferencer → Prop)
    finfer name num_args attrs inputs st :
  (∀ s, R s s) → (∀ s1 s2 s3, R s1 s2 → R s2 s3 → R s1 s3) →
  (∀ ref layout s, R s (UpdateLayoutCache ref layout s)) →
  R st (merged_state finfer name num_args attrs inputs st).
Proof.
  intros Hrefl Htrans Hstep. unfold merged_state.
  destruct (finfer name) as [rule|]; [|done].
  destruct (rule _ _ _ _ _) as [[] reporter]; [|done].
  unfold UpdateLayoutCache_all. generalize (results reporter) st.
  intros l. induction l as [|[ref layout] l IH]; intros s; cbn; [done|].
  eapply Htrans; [apply (Hstep ref layout)|apply IH].
Qed.

Lemma round_step_UpdateLayoutCache ref layout st :
  round_step st (UpdateLayoutCache ref layout st).
Proof.
  destruct (UpdateLayoutCache_cases ref layout st) as [[_ ->]|[_ ->]].
  - apply round_step_refl.
  - eapply round_step_trans; [apply round_step_set_layout|].
    apply round_step_set_modified.
Qed.

Lemma VisitExpr_round_step finfer e st r st' :
  VisitExpr finfer e st = Ok (r, st') → round_step st st'.
Proof.
  apply (VisitExpr_R finfer e round_step round_step_refl round_step_trans);
    [| | | |apply subexprs_self].
  - intros e' s _ _. eapply round_step_trans; [apply round_step_set_modified|].
    apply round_step_set_layout.
  - intros e' s r' s1 _ _ _ _ _. apply round_step_set_layout.
  - intros ref ty op args attrs name s inputs s1 _ _ _ _.
    apply merged_state_ind;
      [apply round_step_refl|apply round_step_trans
      |apply round_step_UpdateLayoutCache].
  - intros e' s _. apply round_step_stamp.
Qed.

(** ** The stamp of a call node *)

(** Once a node has an entry and the stamp of the running generation,
    [GetLayout] answers from the map: it visits nothing and runs no rule. *)
Lemma GetLayout_memoized finfer e st r :
  layout_map_ st !! ref_of e = Some r →
  layout_timestamp_ st !! ref_of e = Some (timestamp_ st) →
  GetLayout finfer e st = Ok (r, st).
Proof.
  intros Hlk Hts. apply GetLayout_with_fresh; [done|].
  unfold timestamp_of. rewrite Hts. cbn. lia.
Qed.

(** C10.  When the visit of a call node returns, the generation has not
    moved, the stamp of the call is the running generation and the map holds
    the returned layout for the call.  From then on and for as long as the
    round lasts (after any further visit, and in any state a round can
    reach), [GetLayout] of the call returns the entry of the map and leaves
    the inferencer untouched, whatever the rules are: the node is not visited
    again and no rule is run. *)
Theorem call_visit_stamps finfer ref ty op args attrs st r st' :
  let call := CallNode ref ty op args attrs in
  VisitExpr finfer call st = Ok (r, st') →
  timestamp_ st' = timestamp_ st ∧
  layout_timestamp_ st' !! ref = Some (timestamp_ st') ∧
  layout_map_ st' !! ref = Some r ∧
  (∀ finfer', GetLayout finfer' call st' = Ok (r, st')) ∧
  (∀ e2 r2 st2, VisitExpr finfer e2 st' = Ok (r2, st2) →
     ∃ r', layout_map_ st2 !! ref = Some r' ∧
           ∀ finfer', GetLayout finfer' call st2 = Ok (r', st2)) ∧
  (∀ st2, round_step st' st2 →
     ∃ r', layout_map_ st2 !! ref = Some r' ∧
           ∀ finfer', GetLayout finfer' call st2 = Ok (r', st2)).
Proof.
  intros call Hv.
  assert (timestamp_ st' = timestamp_ st) as Hts
    by apply (VisitExpr_round_step _ _ _ _ _ Hv).
  apply VisitExpr_call_Ok in Hv as (inputs & st1 & name & _ & _ & Hfin).
  cbn zeta in Hfin. fold call in Hfin.
  set (st2 := merged_state finfer name (length args) attrs inputs st1) in *.
  assert (layout_timestamp_ st' !! ref = Some (timestamp_ st')) as Hstamp.
  { apply GetCachedLayout_Ok in Hfin as [[_ ->]|(_ & _ & ->)]; cbn;
      apply lookup_insert_eq. }
  pose proof (GetCachedLayout_lookup _ _ _ _ Hfin) as Hlk. cbn in Hlk.
  assert (∀ s, round_step st' s →
            ∃ r', layout_map_ s !! ref = Some r' ∧
                  ∀ finfer', GetLayout finfer' call s = Ok (r', s)) as Hlater.
  { intros s (Ht & _ & Hdom & Hst).
    destruct (Hdom ref) as [r' Hr']; [by eauto|]. exists r'. split; [done|].
    intros finfer'. apply GetLayout_memoized; [done|]. cbn.
    destruct (Hst ref) as [->| ->]; congruence. }
  split; [done|]. split; [done|]. split; [done|]. split; [|split; [|done]].
  - intros finfer'. by apply GetLayout_memoized.
  - intros e2 r2 s2 Hv2. apply Hlater. by eapply VisitExpr_round_step.
Qed.

Lemma call_visit_stamps_witness :
  ∃ st', VisitExpr conv2d_rules call_conv2d LayoutInferencer_new
           = Ok (NCHW, st') ∧
         layout_timestamp_ st' !! 3%N = Some (timestamp_ st') ∧
         GetLayout (λ _, None) call_conv2d st' = Ok (NCHW, st').
Proof.
  eexists. split; [vm_compute; reflexivity|].
  match goal with
  | |- _ !! _ = Some (timestamp_ ?s) ∧ _ =>
      destruct (call_visit_stamps conv2d_rules 3 tensor4 op_conv2d
                  [var_x; var_w] NoAttrs LayoutInferencer_new NCHW s)
        as (_ & Hstamp & _ & Hmemo & _)
  end; [vm_compute; reflexivity|].
  split; [exact Hstamp|apply Hmemo].
Defined.

(** ** Calls whose rule is missing or declines *)

(** When the rule stage leaves the state as it found it, the visit of a call
    is the assembly of its arrays followed by the stamp. *)
Lemma call_visit_no_merge finfer ref ty op args attrs name st inputs st1 :
  let call := CallNode ref ty op args attrs in
  call_inputs finfer call args st = Ok (inputs, st1) →
  Downcast_Op op = Ok name →
  merged_state finfer name (length args) attrs inputs st1 = st1 →
  ∃ own, last inputs.1.1 = Some own ∧
         layout_map_ st1 !! ref = Some own ∧
         VisitExpr finfer call st
           = Ok (own, set_layout_timestamp ref (timestamp_ st1) st1).
Proof.
  intros call Hin Hop Hsame. subst call.
  rewrite (VisitExpr_call_intro _ _ _ _ _ _ _ _ _ _ Hin Hop). cbn zeta.
  rewrite Hsame.
  apply call_inputs_Ok in Hin as (rs & st0 & own & _ & _ & Hown & ->).
  exists own. split; [apply last_snoc|].
  apply GetCachedLayout_lookup in Hown. split; [done|].
  by apply GetCachedLayout_present.
Qed.

(** C7.  When the rule of a call is run and declines, the visit is what it
    would be without the proposals the rule left in its reporter: the state
    is the one reached once the arguments and the own layout of the call had
    been obtained, with the stamp of the call added, so the layout map and
    the modified flag are those of that moment; and the layout returned is
    the own layout handed to the rule, which is the entry of the call. *)
Theorem declined_rule_merges_nothing finfer ref ty op args attrs name rule
    reporter st inputs st1 :
  let call := CallNode ref ty op args attrs in
  call_inputs finfer call args st = Ok (inputs, st1) →
  Downcast_Op op = Ok name →
  finfer name = Some rule →
  rule inputs.1.1 inputs.1.2 (length args) attrs
    (LayoutReporterNode_make inputs.2 inputs.1.1) = (false, reporter) →
  ∃ own st',
    VisitExpr finfer call st = Ok (own, st') ∧
    last inputs.1.1 = Some own ∧
    layout_map_ st1 !! ref = Some own ∧
    layout_map_ st' = layout_map_ st1 ∧
    modified_ st' = modified_ st1 ∧
    st' = set_layout_timestamp ref (timestamp_ st1) st1.
Proof.
  intros call Hin Hop Hrule Hdecl.
  destruct (call_visit_no_merge finfer ref ty op args attrs name st inputs st1
              Hin Hop) as (own & Hlast & Hlk & Hv).
  { unfold merged_state. by rewrite Hrule, Hdecl. }
  by exists own, (set_layout_timestamp ref (timestamp_ st1) st1).
Qed.

Lemma declined_rule_merges_nothing_witness :
  let st := LayoutInferencer_seeded {[1%N := NHWC]} false 0 in
  let inputs := ([NHWC; TensorLayout Undef; TensorLayout Undef],
                 [tensor4; tensor4; tensor4], [1%N; 2%N; 3%N]) in
  let st1 := mkLayoutInferencer
               {[1%N := NHWC; 2%N := TensorLayout Undef;
                 3%N := TensorLayout Undef]} ∅ true 0 in
  let reporter := LayoutReporterNode_make inputs.2 inputs.1.1 in
  call_inputs conv2d_rules call_conv2d [var_x; var_w] st
    = Ok (inputs, st1) ∧
  conv2d_rule inputs.1.1 inputs.1.2 2%nat NoAttrs reporter
    = (false, reporter) ∧
  VisitExpr conv2d_rules call_conv2d st
    = Ok (TensorLayout Undef, set_layout_timestamp 3 0 st1).
Proof.
  intros st inputs st1 reporter.
  assert (call_inputs conv2d_rules call_conv2d [var_x; var_w] st
          = Ok (inputs, st1)) as Hin by (vm_compute; reflexivity).
  assert (conv2d_rule inputs.1.1 inputs.1.2 2%nat NoAttrs reporter
          = (false, reporter)) as Hdecl by reflexivity.
  split; [exact Hin|]. split; [exact Hdecl|].
  destruct (declined_rule_merges_nothing conv2d_rules 3 tensor4 op_conv2d
              [var_x; var_w] NoAttrs "nn.conv2d" conv2d_rule reporter
              st inputs st1 Hin eq_refl eq_refl Hdecl)
    as (own & st' & Hv & Hlast & _ & _ & _ & ->).
  injection Hlast as <-. exact Hv.
Defined.

(** The visit of a call without a rule can change an entry that was there
    before: here the entry of [x], through the rule of the argument. *)
Lemma unregistered_call_changes_entry :
  let st := LayoutInferencer_seeded {[1%N := TensorLayout Undef]} false 0 in
  conv2d_rules "copy" = None ∧
  layout_map_ st !! 1%N = Some (TensorLayout Undef) ∧
  (∃ st', VisitExpr conv2d_rules call_copy st = Ok (TensorLayout Undef, st') ∧
          layout_map_ st' !! 1%N = Some NCHW) ∧
  ¬ unregistered_call_claim.
Proof.
  intros st. split; [done|]. split; [done|].
  assert (∃ st', VisitExpr conv2d_rules call_copy st
                   = Ok (TensorLayout Undef, st') ∧
                 layout_map_ st' !! 1%N = Some NCHW) as Hex.
  { eexists. split; vm_compute; reflexivity. }
  split; [exact Hex|]. destruct Hex as (st' & Hv & Hlk). intros Hclaim.
  destruct (Hclaim conv2d_rules 4%N tensor4 11%N (FuncType [tensor4] tensor4)
              "copy" [call_conv2d] NoAttrs st _ st' eq_refl Hv) as [Hframe _].
  specialize (Hframe 1%N (TensorLayout Undef) eq_refl).
  rewrite Hlk in Hframe. discriminate Hframe.
Qed.

(** C5, amended.  The visit of a call whose operator has no rule changes the
    layout map only by what obtaining the layouts of its arguments and its
    own cached-or-default layout changes: the state it ends in is the one
    reached at that point, with the stamp of the call added, and the layout
    it returns is that own layout, the entry of the call.  A call without
    arguments that has an entry leaves every entry as it was and returns
    the layout it had. *)
Theorem unregistered_call_visit finfer ref ty op args attrs name st inputs st1 :
  let call := CallNode ref ty op args attrs in
  call_inputs finfer call args st = Ok (inputs, st1) →
  Downcast_Op op = Ok name →
  finfer name = None →
  ∃ own st',
    VisitExpr finfer call st = Ok (own, st') ∧
    last inputs.1.1 = Some own ∧
    layout_map_ st1 !! ref = Some own ∧
    layout_map_ st' = layout_map_ st1 ∧
    modified_ st' = modified_ st1 ∧
    st' = set_layout_timestamp ref (timestamp_ st1) st1 ∧
    (args = [] → ∀ v, layout_map_ st !! ref = Some v →
       own = v ∧ layout_map_ st' = layout_map_ st).
Proof.
  intros call Hin Hop Hrule.
  destruct (call_visit_no_merge finfer ref ty op args attrs name st inputs st1
              Hin Hop) as (own & Hlast & Hlk & Hv).
  { unfold merged_state. by rewrite Hrule. }
  exists own, (set_layout_timestamp ref (timestamp_ st1) st1).
  repeat (split; [done|]).
  intros -> v Hv0. unfold call_inputs, bind in Hin. cbn in Hin.
  rewrite (GetCachedLayout_present call Undef st v Hv0) in Hin.
  injection Hin as <- <-. cbn. split; congruence.
Qed.

Lemma unregistered_call_visit_witness :
  let st := LayoutInferencer_seeded {[1%N := TensorLayout Undef]} false 0 in
  let inputs := ([NCHW; TensorLayout Undef], [tensor4; tensor4],
                 [3%N; 4%N]) in
  let st1 := mkLayoutInferencer
               {[1%N := NCHW; 2%N := OIHW; 3%N := NCHW;
                 4%N := TensorLayout Undef]} {[3%N := 0]} true 0 in
  call_inputs conv2d_rules call_copy [call_conv2d] st = Ok (inputs, st1) ∧
  VisitExpr conv2d_rules call_copy st
    = Ok (TensorLayout Undef, set_layout_timestamp 4 0 st1).
Proof.
  intros st inputs st1.
  assert (call_inputs conv2d_rules call_copy [call_conv2d] st
          = Ok (inputs, st1)) as Hin by (vm_compute; reflexivity).
  split; [exact Hin|].
  destruct (unregistered_call_visit conv2d_rules 4 tensor4 op_copy
              [call_conv2d] NoAttrs "copy" st inputs st1 Hin eq_refl eq_refl)
    as (own & st' & Hv & Hlast & _ & _ & _ & -> & _).
  injection Hlast as <-. exact Hv.
Defined.

(** ** Arity *)

(** A proposal of two fields for a tensor-typed variable is stored, a
    pre-seeded entry of two fields for it is returned, and the arity of an
    entry changes: none of the three parts of C4 holds. *)
Lemma arity_is_not_checked :
  let pair := TupleLayout [LayoutTag "NCHW"; LayoutTag "NHWC"] in
  let st := LayoutInferencer_seeded {[1%N := TensorLayout Undef]} false 0 in
  (∃ st', VisitExpr pair_rules call_split st = Ok (TensorLayout Undef, st') ∧
          layout_map_ st' !! 1%N = Some pair) ∧
  VisitExpr pair_rules var_x (LayoutInferencer_seeded {[1%N := pair]} false 0)
    = Ok (pair, LayoutInferencer_seeded {[1%N := pair]} false 0) ∧
  RelayLayout_arity pair ≠ num_outputs (checked_type var_x) ∧
  ¬ proposal_arity_claim ∧ ¬ seeded_arity_claim ∧ ¬ arity_stable_claim.
Proof.
  intros pair st.
  assert (∃ st', VisitExpr pair_rules call_split st
                   = Ok (TensorLayout Undef, st') ∧
                 layout_map_ st' !! 1%N = Some pair) as Hex.
  { eexists. split; vm_compute; reflexivity. }
  split; [exact Hex|]. split; [done|]. split; [cbn; lia|].
  destruct Hex as (st' & Hv & Hlk). split; [|split].
  - intros Hclaim.
    destruct (Hclaim pair_rules 5%N tensor4 op_split [var_x] NoAttrs st
                ([TensorLayout Undef; TensorLayout Undef], [tensor4; tensor4],
                 [1%N; 5%N])
                (mkLayoutInferencer
                   {[1%N := TensorLayout Undef; 5%N := TensorLayout Undef]}
                   ∅ true 0)
                "split" pair_rule
                (mkLayoutReporter [1%N; 5%N]
                   [TensorLayout Undef; TensorLayout Undef] [(1%N, pair)])
                var_x pair) as [msg Hmsg].
    + vm_compute; reflexivity.
    + reflexivity.
    + reflexivity.
    + reflexivity.
    + apply list_elem_of_further, list_elem_of_here.
    + apply list_elem_of_here.
    + cbn. lia.
    + fold call_split in Hmsg. rewrite Hv in Hmsg. discriminate Hmsg.
  - intros Hclaim.
    destruct (Hclaim pair_rules {[1%N := pair]} false 0 1%N tensor4 pair)
      as [msg Hmsg]; [done|cbn; lia|].
    discriminate Hmsg.
  - intros Hclaim.
    specialize (Hclaim pair_rules call_split st _ st' 1%N (TensorLayout Undef)
                  pair Hv eq_refl Hlk).
    discriminate Hclaim.
Qed.

Lemma UpdateLayoutCache_lookup ref layout st :
  layout_map_ (UpdateLayoutCache ref layout st) !! ref = Some layout.
Proof.
  destruct (UpdateLayoutCache_cases ref layout st) as [[H ->]|[_ ->]];
    [done|]. cbn. apply lookup_insert_eq.
Qed.

Lemma UpdateLayoutCache_lookup_ne ref layout st n :
  n ≠ ref →
  layout_map_ (UpdateLayoutCache ref layout st) !! n = layout_map_ st !! n.
Proof.
  intros Hne.
  destruct (UpdateLayoutCache_cases ref layout st) as [[H ->]|[_ ->]];
    [done|]. cbn. by rewrite lookup_insert_ne.
Qed.

(** C4, amended.  The engine checks no arity.  A proposal is stored exactly
    as the rule supplied it, and sets the modified flag when it differs from
    the entry it replaces; the entries of other nodes stay; the arity of the
    entry is the one it had exactly when the proposal has that arity.  An
    entry made by default insertion has the arity of the static type of its
    node, and a pre-seeded entry is returned as supplied when its variable is
    visited. *)
Theorem arity_unchecked ref layout st :
  let st' := UpdateLayoutCache ref layout st in
  layout_map_ st' !! ref = Some layout ∧
  (∀ n, n ≠ ref → layout_map_ st' !! n = layout_map_ st !! n) ∧
  (layout_map_ st !! ref ≠ Some layout → modified_ st' = true) ∧
  (∀ old new, layout_map_ st !! ref = Some old →
     layout_map_ st' !! ref = Some new →
     (RelayLayout_arity new = RelayLayout_arity old ↔
      RelayLayout_arity layout = RelayLayout_arity old)) ∧
  (∀ expr s, layout_map_ s !! ref_of expr = None →
     ∃ r s', GetCachedLayout expr Undef s = Ok (r, s') ∧
             layout_map_ s' !! ref_of expr = Some r ∧
             RelayLayout_arity r = num_outputs (checked_type expr)) ∧
  (∀ finfer in_layouts modified0 timestamp0 x ty seeded,
     in_layouts !! x = Some seeded →
     VisitExpr finfer (VarNode x ty)
       (LayoutInferencer_seeded in_layouts modified0 timestamp0)
     = Ok (seeded, LayoutInferencer_seeded in_layouts modified0 timestamp0)).
Proof.
  intros st'. subst st'.
  split; [apply UpdateLayoutCache_lookup|].
  split; [intros n Hne; by apply UpdateLayoutCache_lookup_ne|].
  split; [|split; [|split]].
  - intros Hne.
    destruct (UpdateLayoutCache_cases ref layout st) as [[H _]|[_ ->]]; done.
  - intros old new _. rewrite UpdateLayoutCache_lookup. by intros [= ->].
  - intros expr s Hnone.
    destruct (GetCachedLayout_total expr s) as (r & s' & Hget).
    exists r, s'. split; [done|].
    split; [by eapply GetCachedLayout_lookup|].
    apply GetCachedLayout_Ok in Hget as [[Hsome _]|(_ & -> & _)];
      [congruence|apply default_layout_of_arity].
  - intros finfer in_layouts modified0 timestamp0 x ty seeded Hseed.
    by apply GetCachedLayout_present.
Qed.

Lemma arity_unchecked_witness :
  let pair := TupleLayout [LayoutTag "NCHW"; LayoutTag "NHWC"] in
  let st := LayoutInferencer_seeded {[1%N := TensorLayout Undef]} false 0 in
  layout_map_ (UpdateLayoutCache 1 pair st) !! 1%N = Some pair ∧
  modified_ (UpdateLayoutCache 1 pair st) = true.
Proof.
  intros pair st.
  destruct (arity_unchecked 1 pair st) as (Hstored & _ & Hmod & _).
  split; [exact Hstored|]. apply Hmod. done.
Defined.

(** ** The driver, unfolded *)

Lemma while_modified_done fuel body st :
  modified_ st = false → while_modified fuel body st = Some (Ok st).
Proof. intros H. destruct fuel; cbn; by rewrite H. Qed.

Lemma Infer_Ok_modified finfer fuel e st st' :
  Infer finfer fuel e st = Some (Ok st') → modified_ st' = false.
Proof.
  revert st st'. induction fuel as [|fuel IH]; intros st st'; [done|].
  cbn [Infer]. destruct (VisitExpr finfer e st) as [[r st1]|msg]; [|done].
  destruct (modified_ st1) eqn:Hmod.
  - destruct fuel as [|fuel']; cbn [while_modified]; rewrite Hmod; [done|].
    destruct (Infer finfer (S fuel') e _) as [[st2|msg]|] eqn:Hin; try done.
    apply IH in Hin. rewrite (while_modified_done _ _ _ Hin).
    by intros [= <-].
  - rewrite while_modified_done by done. by intros [= <-].
Qed.

(** The loop of [Infer] runs its body at most once: the recursive call
    returns with the flag down. *)
Lemma Infer_unfold finfer fuel e st :
  Infer finfer (S fuel) e st =
  match VisitExpr finfer e st with
  | Fatal msg => Some (Fatal msg)
  | Ok (_, st1) =>
      if modified_ st1
      then Infer finfer fuel e (incr_timestamp (set_modified false st1))
      else Some (Ok st1)
  end.
Proof.
  cbn [Infer]. destruct (VisitExpr finfer e st) as [[r st1]|msg]; [|done].
  destruct (modified_ st1) eqn:Hmod.
  - destruct fuel as [|fuel']; cbn [while_modified]; rewrite Hmod; [done|].
    destruct (Infer finfer (S fuel') e _) as [[st2|msg]|] eqn:Hin; try done.
    apply Infer_Ok_modified in Hin. by apply while_modified_done.
  - by apply while_modified_done.
Qed.

(** A run of [Infer] that returns ends with a visit of the root that leaves
    the flag down. *)
Lemma Infer_last_round finfer fuel e st st' :
  Infer finfer fuel e st = Some (Ok st') →
  ∃ s r, VisitExpr finfer e s = Ok (r, st') ∧ modified_ st' = false.
Proof.
  revert st. induction fuel as [|fuel IH]; intros st; [done|].
  rewrite Infer_unfold.
  destruct (VisitExpr finfer e st) as [[r st1]|msg] eqn:Hv; [|done].
  destruct (modified_ st1) eqn:Hmod; [apply IH|].
  intros [= <-]. by exists st, r.
Qed.

(** ** What a visit returns *)

Lemma set_layout_id ref layout st :
  layout_map_ st !! ref = Some layout → set_layout ref layout st = st.
Proof.
  intros H. destruct st as [m ts b t]. unfold set_layout. cbn in *.
  by rewrite insert_id.
Qed.

Lemma set_layout_timestamp_id ref st :
  layout_timestamp_ st !! ref = Some (timestamp_ st) →
  set_layout_timestamp ref (timestamp_ st) st = st.
Proof.
  intros H. destruct st as [m ts b t]. unfold set_layout_timestamp.
  cbn in *. by rewrite insert_id.
Qed.

Lemma VisitExpr_core_lookup finfer e st r st' :
  VisitExpr finfer e st = Ok (r, st') →
  layout_map_ st' !! ref_of (core e) = Some r.
Proof.
  revert st r st'.
  induction e as [ref ty|ref ty op args attrs _|ref ty params body IH|e Hk]
    using Expr_visit_ind; intros st r st' Hv.
  - by apply GetCachedLayout_lookup in Hv.
  - apply VisitExpr_call_Ok in Hv as (? & ? & ? & _ & _ & Hfin).
    by apply GetCachedLayout_lookup in Hfin.
  - by eapply IH.
  - by rewrite VisitExpr_unsupported in Hv.
Qed.

Lemma core_not_function e : kind_of e ≠ KFunction → core e = e.
Proof. by destruct e. Qed.

Lemma GetLayout_lookup finfer e st r st' :
  GetLayout finfer e st = Ok (r, st') →
  layout_map_ st' !! ref_of e = Some r.
Proof.
  intros H. apply GetLayout_with_Ok in H as [(_ & ? & ->)|(_ & ? & _ & ->)];
    [done|]. cbn. apply lookup_insert_eq.
Qed.

(** ** Supported expressions are visited without error *)

Lemma GetLayout_total finfer e st :
  (∀ st, ∃ r st', VisitExpr finfer e st = Ok (r, st')) →
  ∃ r st', GetLayout finfer e st = Ok (r, st').
Proof.
  intros Hv. destruct (layout_map_ st !! ref_of e) as [l|] eqn:Hlk.
  - destruct (decide (timestamp_of (ref_of e) st < timestamp_ st)) as [Ho|Hf].
    + destruct (Hv st) as (r & st1 & Hr). eexists _, _.
      apply GetLayout_with_stale; [by right|done].
    + eexists _, _. by apply GetLayout_with_fresh.
  - destruct (Hv st) as (r & st1 & Hr). eexists _, _.
    apply GetLayout_with_stale; [by left|done].
Qed.

Lemma collect_args_total finfer args ls ts ns st :
  Forall (λ a, ∀ st, ∃ r st', VisitExpr finfer a st = Ok (r, st')) args →
  ∃ res st', collect_args (GetLayout finfer) args ls ts ns st = Ok (res, st').
Proof.
  intros Hall. revert ls ts ns st.
  induction Hall as [|a args Ha _ IH]; intros ls ts ns st; cbn.
  - by eexists _, _.
  - destruct (GetLayout_total finfer a st Ha) as (r & st1 & Hr).
    unfold bind. rewrite Hr. apply IH.
Qed.

Lemma VisitExpr_total finfer e :
  supported_expr e → ∀ st, ∃ r st', VisitExpr finfer e st = Ok (r, st').
Proof.
  induction e as [ref ty|ref ty op args attrs IH|ref ty params body IH|e Hk]
    using Expr_visit_ind; intros Hsup st.
  - apply GetCachedLayout_total.
  - assert (Forall (λ a, ∀ st, ∃ r st', VisitExpr finfer a st = Ok (r, st'))
              args) as Hargs.
    { rewrite Forall_forall in IH. apply Forall_forall. intros a Ha.
      apply IH; [done|]. intros e' He'. apply Hsup.
      by eapply subexprs_arg. }
    destruct (collect_args_total finfer args [] [] [] st Hargs)
      as ([[ls ts] ns] & st1 & Hc).
    destruct (GetCachedLayout_total (CallNode ref ty op args attrs) st1)
      as (own & st2 & Hown).
    destruct (Hsup _ (subexprs_self _)) as [_ Hop].
    destruct op; try discriminate Hop.
    rewrite (VisitExpr_call_intro finfer _ _ _ _ _ st
               (ls ++ [own], ts ++ [ty], ns ++ [ref]) st2 name).
    + apply GetCachedLayout_total.
    + unfold call_inputs, bind. rewrite Hc, Hown. done.
    + done.
  - apply IH. intros e' He'. apply Hsup. by apply subexprs_body.
  - destruct (Hsup e (subexprs_self e)) as [Hs _]. congruence.
Qed.

(** ** The addresses of an expression *)

Lemma ref_in_refs_of root e : e ∈ subexprs root → ref_of e ∈ refs_of root.
Proof.
  intros He. unfold refs_of. apply elem_of_list_to_set, list_elem_of_fmap.
  by exists e.
Qed.

(** ** The proposals of a visit *)

Lemma merged_state_proposals finfer name num_args attrs inputs st :
  merged_state finfer name num_args attrs inputs st
  = UpdateLayoutCache_all (rule_proposals finfer name num_args attrs inputs) st.
Proof.
  unfold merged_state, rule_proposals.
  destruct (finfer name) as [rule|]; [|done].
  by destruct (rule _ _ _ _ _) as [[] reporter].
Qed.

Lemma GetLayout_proposals_stale visit_proposals ref st :
  stale ref st →
  GetLayout_proposals_with visit_proposals ref st = visit_proposals st.
Proof.
  intros Hstale. unfold GetLayout_proposals_with.
  replace (bool_decide (layout_map_ st !! ref = None)
           || bool_decide (timestamp_of ref st < timestamp_ st)) with true;
    [done|].
  symmetry. apply orb_true_iff. rewrite !bool_decide_eq_true. exact Hstale.
Qed.

Lemma GetLayout_proposals_fresh visit_proposals ref st :
  ¬ stale ref st →
  GetLayout_proposals_with visit_proposals ref st = [].
Proof.
  intros Hfresh. unfold GetLayout_proposals_with.
  replace (bool_decide (layout_map_ st !! ref = None)
           || bool_decide (timestamp_of ref st < timestamp_ st)) with false;
    [done|].
  symmetry. apply orb_false_iff. rewrite !bool_decide_eq_false.
  unfold stale in Hfresh. tauto.
Qed.

Lemma VisitExpr_proposals_call finfer ref ty op args attrs st inputs st1 name :
  call_inputs finfer (CallNode ref ty op args attrs) args st
    = Ok (inputs, st1) →
  Downcast_Op op = Ok name →
  VisitExpr_proposals finfer (CallNode ref ty op args attrs) st
  = args_proposals (GetLayout finfer)
      (λ arg, GetLayout_proposals_with (VisitExpr_proposals finfer arg)
                (ref_of arg)) args st
    ++ rule_proposals finfer name (length args) attrs inputs.
Proof. intros Hin Hop. cbn [VisitExpr_proposals]. by rewrite Hin, Hop. Qed.

Lemma Infer_proposals_unfold finfer fuel e st :
  Infer_proposals finfer (S fuel) e st
  = VisitExpr_proposals finfer e st ++
    match VisitExpr finfer e st with
    | Ok (_, st1) =>
        if modified_ st1
        then Infer_proposals finfer fuel e
               (incr_timestamp (set_modified false st1))
        else []
    | Fatal _ => []
    end.
Proof. done. Qed.

(** ** Induction over a visit and its proposals *)

Section VisitProposalsInduction.

Variable finfer : string → option FInferLayout.
Variable root : Expr.

(** What is known of the proposals of the run: it holds of every run that
    stops earlier. *)
Variable P : list (N * RelayLayout) → Prop.
Hypothesis P_prefix : ∀ l1 l2, P (l1 ++ l2) → P l1.

(** A relation from a state, and the proposals made before it, to a later
    state and the proposals made before that. *)
Variable R : list (N * RelayLayout) → LayoutInferencer →
             list (N * RelayLayout) → LayoutInferencer → Prop.

Hypothesis R_refl : ∀ hist st, R hist st hist st.
Hypothesis R_trans : ∀ h1 st1 h2 st2 h3 st3,
  R h1 st1 h2 st2 → R h2 st2 h3 st3 → R h1 st1 h3 st3.

(** The default insertion of [GetCachedLayout]. *)
Hypothesis R_default : ∀ e hist st,
  e ∈ subexprs root →
  layout_map_ st !! ref_of e = None →
  R hist st hist
    (set_layout (ref_of e) (default_layout_of (checked_type e))
       (set_modified true st)).

(** The [Set] of [GetLayout] after it has visited a stale node. *)
Hypothesis R_write : ∀ e hist st r st1,
  is_call_arg root e →
  VisitExpr finfer e st = Ok (r, st1) →
  R hist st1 hist (set_layout (ref_of e) r st1).

(** One proposal, merged. *)
Hypothesis R_proposal : ∀ hist st n layout,
  P (hist ++ [(n, layout)]) →
  R hist st (hist ++ [(n, layout)]) (UpdateLayoutCache n layout st).

(** The stamp of a call. *)
Hypothesis R_stamp : ∀ hist st ref t,
  R hist st hist (set_layout_timestamp ref t st).

Lemma GetCachedLayout_proposals_R e hist st r st' :
  e ∈ subexprs root →
  GetCachedLayout e Undef st = Ok (r, st') → R hist st hist st'.
Proof.
  intros Hsub H. apply GetCachedLayout_Ok in H as [[_ ->]|(Hn & -> & ->)].
  - apply R_refl.
  - by apply R_default.
Qed.

Lemma UpdateLayoutCache_all_proposals_R proposals hist st :
  P (hist ++ proposals) →
  R hist st (hist ++ proposals) (UpdateLayoutCache_all proposals st).
Proof.
  revert hist st.
  induction proposals as [|[n layout] proposals IH]; intros hist st HP.
  - rewrite app_nil_r. apply R_refl.
  - change (UpdateLayoutCache_all ((n, layout) :: proposals) st)
      with (UpdateLayoutCache_all proposals (UpdateLayoutCache n layout st)).
    replace (hist ++ (n, layout) :: proposals)
      with ((hist ++ [(n, layout)]) ++ proposals) in *
      by (by rewrite <- app_assoc).
    eapply R_trans; [apply R_proposal; by eapply P_prefix|].
    by apply IH.
Qed.

Lemma GetLayout_proposals_R e hist st r st' :
  is_call_arg root e →
  (∀ hist st r st',
     VisitExpr finfer e st = Ok (r, st') →
     P (hist ++ VisitExpr_proposals finfer e st) →
     R hist st (hist ++ VisitExpr_proposals finfer e st) st') →
  GetLayout finfer e st = Ok (r, st') →
  P (hist ++ GetLayout_proposals_with (VisitExpr_proposals finfer e)
               (ref_of e) st) →
  R hist st
    (hist ++ GetLayout_proposals_with (VisitExpr_proposals finfer e)
               (ref_of e) st) st'.
Proof.
  intros Harg IH H.
  apply GetLayout_with_Ok in H as [(Hfresh & _ & ->)|(Hst & st1 & Hv & ->)].
  - rewrite GetLayout_proposals_fresh by done. rewrite app_nil_r.
    intros _. apply R_refl.
  - rewrite GetLayout_proposals_stale by done. intros HP.
    eapply R_trans; [eapply IH; [exact Hv|exact HP]|]. by eapply R_write.
Qed.

Lemma args_proposals_R args ls ts ns hist st res st' :
  (∀ a, a ∈ args → is_call_arg root a) →
  Forall (λ a, ∀ hist st r st',
            VisitExpr finfer a st = Ok (r, st') →
            P (hist ++ VisitExpr_proposals finfer a st) →
            R hist st (hist ++ VisitExpr_proposals finfer a st) st') args →
  collect_args (GetLayout finfer) args ls ts ns st = Ok (res, st') →
  let proposals :=
    args_proposals (GetLayout finfer)
      (λ arg, GetLayout_proposals_with (VisitExpr_proposals finfer arg)
                (ref_of arg)) args st in
  P (hist ++ proposals) → R hist st (hist ++ proposals) st'.
Proof.
  intros Hsub IH. revert ls ts ns hist st.
  induction IH as [|a args Ha _ IHargs]; intros ls ts ns hist st;
    cbn [collect_args args_proposals].
  - intros [= _ <-] _. rewrite app_nil_r. apply R_refl.
  - intros Hb. apply bind_Ok in Hb as (r & st1 & Hget & Hrest).
    rewrite Hget. cbn zeta. rewrite app_assoc. intros HP.
    eapply R_trans.
    + eapply GetLayout_proposals_R; [|exact Ha|exact Hget|by eapply P_prefix].
      apply Hsub, list_elem_of_here.
    + eapply IHargs; [|exact Hrest|exact HP].
      intros a' Ha'. by apply Hsub, list_elem_of_further.
Qed.

Lemma VisitExpr_proposals_R e :
  e ∈ subexprs root →
  ∀ hist st r st',
    VisitExpr finfer e st = Ok (r, st') →
    P (hist ++ VisitExpr_proposals finfer e st) →
    R hist st (hist ++ VisitExpr_proposals finfer e st) st'.
Proof.
  induction e as [ref ty|ref ty op args attrs IH|ref ty params body IH|e Hk]
    using Expr_visit_ind; intros Hsub hist st r st' Hv.
  - cbn [VisitExpr_proposals]. rewrite app_nil_r. intros _.
    by eapply GetCachedLayout_proposals_R.
  - apply VisitExpr_call_Ok in Hv as (inputs & st1 & name & Hin & Hop & Hfin).
    rewrite (VisitExpr_proposals_call _ _ _ _ _ _ _ _ _ _ Hin Hop).
    rewrite app_assoc. intros HP.
    assert (∀ a, a ∈ args → a ∈ subexprs root) as Hargs.
    { intros a Ha. eapply subexprs_trans; [|done].
      eapply subexprs_arg; [done|apply subexprs_self]. }
    cbn zeta in Hfin. rewrite merged_state_proposals in Hfin.
    apply call_inputs_Ok in Hin as (rs & st0 & own & Hc & _ & Hown & _).
    eapply R_trans.
    { eapply args_proposals_R; [| |exact Hc|by eapply P_prefix].
      - intros a Ha. by repeat eexists.
      - rewrite Forall_forall in IH. apply Forall_forall. intros a Ha.
        apply IH; [done|]. by apply Hargs. }
    eapply R_trans; [by eapply GetCachedLayout_proposals_R|].
    eapply R_trans; [by apply UpdateLayoutCache_all_proposals_R|].
    eapply R_trans; [apply R_stamp|].
    by eapply GetCachedLayout_proposals_R.
  - rewrite VisitExpr_function in Hv. cbn [VisitExpr_proposals].
    eapply IH; [|done].
    eapply subexprs_trans; [|done]. apply subexprs_body, subexprs_self.
  - by rewrite VisitExpr_unsupported in Hv.
Qed.

End VisitProposalsInduction.

(** ** Monotone proposals *)

Lemma last_proposals_snoc hist n layout :
  last_proposals (hist ++ [(n, layout)])
  = <[n := layout]> (last_proposals hist).
Proof. unfold last_proposals. by rewrite foldl_app. Qed.

Lemma last_proposals_lookup hist n layout :
  last_proposals hist !! n = Some layout →
  ∃ i, hist !! i = Some (n, layout).
Proof.
  induction hist as [|[n' layout'] hist IH] using rev_ind; [done|].
  rewrite last_proposals_snoc.
  destruct (decide (n' = n)) as [->|Hne].
  - rewrite lookup_insert_eq. intros [= ->]. exists (length hist).
    by rewrite lookup_app_r, Nat.sub_diag by lia.
  - rewrite lookup_insert_ne by done. intros Hl.
    destruct (IH Hl) as [i Hi]. exists i.
    apply lookup_app_l_Some. exact Hi.
Qed.

Lemma monotone_proposals_prefix rank l1 l2 :
  monotone_proposals rank (l1 ++ l2) → monotone_proposals rank l1.
Proof.
  intros Hm i j n earlier later Hij Hi Hj.
  apply (Hm i j n); [done|by apply lookup_app_l_Some..].
Qed.

Lemma monotone_proposals_last rank hist n layout earlier :
  monotone_proposals rank (hist ++ [(n, layout)]) →
  last_proposals hist !! n = Some earlier →
  layout = earlier ∨ (rank earlier < rank layout)%nat.
Proof.
  intros Hm Hlast. apply last_proposals_lookup in Hlast as [i Hi].
  apply (Hm i (length hist) n).
  - by apply lookup_lt_Some in Hi.
  - by apply lookup_app_l_Some.
  - by rewrite lookup_app_r, Nat.sub_diag by lia.
Qed.

(** Proposals that never differ for a node are monotone for every rank. *)
Lemma monotone_proposals_same rank proposals :
  (∀ n l1 l2, (n, l1) ∈ proposals → (n, l2) ∈ proposals → l1 = l2) →
  monotone_proposals rank proposals.
Proof.
  intros Hsame i j n earlier later _ Hi Hj. left. symmetry.
  apply (Hsame n); by eapply list_elem_of_lookup_2.
Qed.

(** ** How a visit moves the levels *)

Section Climbs.

Variable finfer : string → option FInferLayout.
Variable rank : RelayLayout → nat.
Variable root : Expr.

Hypothesis no_fn_args : no_function_args root.

Lemma climbs_refl hist st : climbs rank root hist st hist st.
Proof.
  intros Hinv. split; [done|]. split; [done|]. split; [done|].
  split; [done|]. split; [by left|]. split; [done|]. split; [by left|done].
Qed.

Lemma climbs_trans h1 st1 h2 st2 h3 st3 :
  climbs rank root h1 st1 h2 st2 →
  climbs rank root h2 st2 h3 st3 →
  climbs rank root h1 st1 h3 st3.
Proof.
  intros H12 H23 Hinv1.
  destruct (H12 Hinv1) as (Hinv2 & Hl1 & Hm1 & Hle1 & Hlt1 & Hch1 & Hd1 & He1).
  destruct (H23 Hinv2) as (Hinv3 & Hl2 & Hm2 & Hle2 & Hlt2 & Hch2 & Hd2 & He2).
  split; [done|]. split; [by auto|]. split; [by auto|].
  split; [intros n; specialize (Hle1 n); specialize (Hle2 n); lia|].
  split; [|split; [|split]].
  - intros H3. destruct (Hlt2 H3) as [H2|[n Hn]].
    + destruct (Hlt1 H2) as [H1|[n Hn]]; [by left|].
      right. exists n. specialize (Hle2 n). lia.
    + right. exists n. specialize (Hle1 n). lia.
  - intros n Hn. specialize (Hle1 n). specialize (Hle2 n).
    destruct (decide (layout_map_ st2 !! n = layout_map_ st1 !! n))
      as [Heq|Hne].
    + rewrite <- Heq in Hn. specialize (Hch2 n Hn). lia.
    + specialize (Hch1 n Hne). lia.
  - intros n Hn. destruct (Hd2 n Hn) as [H2|[HR|Hl]]; [|by auto..].
    destruct (Hd1 n H2) as [H1|[HR|Hl]]; by auto.
  - intros H3. assert (modified_ st2 = false) as H2.
    { destruct (modified_ st2); [|done]. rewrite Hm2 in H3; done. }
    rewrite He2, He1; done.
Qed.

Lemma climbs_default e hist st :
  e ∈ subexprs root →
  layout_map_ st !! ref_of e = None →
  climbs rank root hist st hist
    (set_layout (ref_of e) (default_layout_of (checked_type e))
       (set_modified true st)).
Proof.
  intros Hsub Hnone Hinv.
  assert (last_proposals hist !! ref_of e = None) as Hlast.
  { destruct (last_proposals hist !! ref_of e) as [l|] eqn:Hl; [|done].
    apply (lookup_weaken _ _ _ _ Hl) in Hinv. congruence. }
  assert (∀ n, (level rank hist st n
                ≤ level rank hist
                    (set_layout (ref_of e) (default_layout_of (checked_type e))
                       (set_modified true st)) n)%nat ∧
               (n = ref_of e →
                (level rank hist st n
                 < level rank hist
                     (set_layout (ref_of e)
                        (default_layout_of (checked_type e))
                        (set_modified true st)) n)%nat)) as Hlev.
  { intros n. unfold level. cbn.
    destruct (decide (ref_of e = n)) as [<-|Hne].
    - rewrite lookup_insert_eq, Hnone. split; [lia|intros _; lia].
    - rewrite lookup_insert_ne by done. split; [lia|congruence]. }
  split; [by apply insert_subseteq_r|]. split; [done|]. split; [done|].
  split; [intros n; apply Hlev|]. split; [|split; [|split]].
  - intros _. right. exists (ref_of e). by apply Hlev.
  - intros n. cbn. destruct (decide (ref_of e = n)) as [<-|Hne].
    + intros _. by apply Hlev.
    + by rewrite lookup_insert_ne.
  - intros n. cbn. destruct (decide (ref_of e = n)) as [<-|Hne].
    + intros _. right. left. by apply ref_in_refs_of.
    + rewrite lookup_insert_ne by done. by left.
  - done.
Qed.

Lemma climbs_write e hist st r st1 :
  is_call_arg root e →
  VisitExpr finfer e st = Ok (r, st1) →
  climbs rank root hist st1 hist (set_layout (ref_of e) r st1).
Proof.
  intros Harg Hv. rewrite set_layout_id; [apply climbs_refl|].
  apply VisitExpr_core_lookup in Hv.
  by rewrite core_not_function in Hv by by apply no_fn_args.
Qed.

Lemma climbs_stamp hist st ref t :
  climbs rank root hist st hist (set_layout_timestamp ref t st).
Proof.
  intros Hinv. split; [done|]. split; [done|]. split; [done|].
  split; [done|]. split; [by left|]. split; [done|]. split; [by left|done].
Qed.

Lemma climbs_proposal hist st n layout :
  monotone_proposals rank (hist ++ [(n, layout)]) →
  climbs rank root hist st (hist ++ [(n, layout)])
    (UpdateLayoutCache n layout st).
Proof.
  intros Hmono Hinv.
  assert (∀ k, is_Some (last_proposals hist !! k) →
               is_Some (last_proposals (hist ++ [(n, layout)]) !! k)) as Hdom.
  { intros k Hk. rewrite last_proposals_snoc.
    destruct (decide (n = k)) as [<-|Hne].
    - rewrite lookup_insert_eq. by eexists.
    - by rewrite lookup_insert_ne. }
  assert (is_Some (last_proposals (hist ++ [(n, layout)]) !! n)) as Hn.
  { rewrite last_proposals_snoc, lookup_insert_eq. by eexists. }
  (* the part of the level that the proposals give *)
  assert (∀ k,
            (match last_proposals hist !! k with
             | Some l => S (rank l) | None => 0 end
             ≤ match last_proposals (hist ++ [(n, layout)]) !! k with
               | Some l => S (rank l) | None => 0 end)%nat) as Hple.
  { intros k. rewrite last_proposals_snoc.
    destruct (decide (n = k)) as [<-|Hne].
    - rewrite lookup_insert_eq.
      destruct (last_proposals hist !! n) as [earlier|] eqn:Hlast; [|lia].
      destruct (monotone_proposals_last rank hist n layout earlier Hmono Hlast)
        as [->|Hlt]; lia.
    - by rewrite lookup_insert_ne. }
  destruct (UpdateLayoutCache_cases n layout st) as [[Hsame ->]|[Hne ->]].
  - split; [rewrite last_proposals_snoc; by apply insert_subseteq_l|].
    split; [done|]. split; [done|].
    split; [intros k; unfold level; specialize (Hple k); lia|].
    split; [by left|]. split; [done|]. split; [by left|done].
  - split; [rewrite last_proposals_snoc; cbn; by apply insert_mono|].
    split; [done|]. split; [done|].
    assert (level rank hist st n
            < level rank (hist ++ [(n, layout)])
                (set_modified true (set_layout n layout st)) n)%nat as Hup.
    { unfold level. cbn. rewrite lookup_insert_eq.
      rewrite last_proposals_snoc, lookup_insert_eq.
      destruct (last_proposals hist !! n) as [earlier|] eqn:Hlast.
      - assert (layout_map_ st !! n = Some earlier) as Hentry
          by (by eapply lookup_weaken).
        rewrite Hentry.
        destruct (monotone_proposals_last rank hist n layout earlier Hmono Hlast)
          as [->|Hlt]; [done|lia].
      - destruct (layout_map_ st !! n); lia. }
    split; [|split; [|split; [|split]]].
    + intros k. destruct (decide (n = k)) as [<-|Hnk]; [lia|].
      unfold level. cbn. rewrite lookup_insert_ne by done.
      specialize (Hple k). lia.
    + intros _. right. by exists n.
    + intros k. cbn. destruct (decide (n = k)) as [<-|Hnk]; [done|].
      by rewrite lookup_insert_ne.
    + intros k. cbn. destruct (decide (n = k)) as [<-|Hnk]; [by auto|].
      rewrite lookup_insert_ne by done. by left.
    + done.
Qed.

End Climbs.

(** ** Visits from states with the same view *)

Section SameView.

Variable finfer : string → option FInferLayout.
Variable U : gset N.

Lemma same_view_set_layout ref layout st st' :
  same_view U st st' →
  same_view U (set_layout ref layout st) (set_layout ref layout st').
Proof.
  intros [Hm Hs]. split; [|exact Hs]. intros n Hn. cbn.
  destruct (decide (ref = n)) as [<-|Hne].
  - by rewrite !lookup_insert_eq.
  - rewrite !lookup_insert_ne by done. by apply Hm.
Qed.

Lemma same_view_set_modified b b' st st' :
  same_view U st st' →
  same_view U (set_modified b st) (set_modified b' st').
Proof. intros [Hm Hs]. split; [exact Hm|exact Hs]. Qed.

Lemma same_view_stamp ref st st' :
  same_view U st st' →
  same_view U (set_layout_timestamp ref (timestamp_ st) st)
    (set_layout_timestamp ref (timestamp_ st') st').
Proof.
  intros [Hm Hs]. split; [exact Hm|]. intros n Hn.
  unfold timestamp_of. cbn.
  destruct (decide (ref = n)) as [<-|Hne].
  - rewrite !lookup_insert_eq. cbn. lia.
  - rewrite !lookup_insert_ne by done. by apply Hs.
Qed.

Lemma same_view_UpdateLayoutCache ref layout st st' :
  same_view U st st' →
  same_view U (UpdateLayoutCache ref layout st)
    (UpdateLayoutCache ref layout st').
Proof.
  intros Hsame.
  destruct (UpdateLayoutCache_cases ref layout st) as [[Hl ->]|[Hl ->]],
    (UpdateLayoutCache_cases ref layout st') as [[Hl' ->]|[Hl' ->]].
  - done.
  - destruct Hsame as [Hm Hs]. split; [|exact Hs]. intros n Hn. cbn.
    destruct (decide (ref = n)) as [<-|Hne].
    + rewrite lookup_insert_eq. rewrite (Hm ref Hn) in Hl. congruence.
    + rewrite lookup_insert_ne by done. by apply Hm.
  - destruct Hsame as [Hm Hs]. split; [|exact Hs]. intros n Hn. cbn.
    destruct (decide (ref = n)) as [<-|Hne].
    + rewrite lookup_insert_eq. rewrite <- (Hm ref Hn) in Hl'. congruence.
    + rewrite lookup_insert_ne by done. by apply Hm.
  - by apply same_view_set_modified, same_view_set_layout.
Qed.

Lemma same_view_UpdateLayoutCache_all results st st' :
  same_view U st st' →
  same_view U (UpdateLayoutCache_all results st)
    (UpdateLayoutCache_all results st').
Proof.
  revert st st'. induction results as [|it results IH]; intros st st' Hsame;
    [done|].
  change (UpdateLayoutCache_all (it :: results) st)
    with (UpdateLayoutCache_all results (UpdateLayoutCache it.1 it.2 st)).
  change (UpdateLayoutCache_all (it :: results) st')
    with (UpdateLayoutCache_all results (UpdateLayoutCache it.1 it.2 st')).
  by apply IH, same_view_UpdateLayoutCache.
Qed.

Lemma same_view_GetCachedLayout e st st' :
  ref_of e ∈ U →
  same_view U st st' →
  same_view_result U (GetCachedLayout e Undef st) (GetCachedLayout e Undef st').
Proof.
  intros He Hsame. unfold GetCachedLayout.
  rewrite <- (proj1 Hsame _ He).
  destruct (layout_map_ st !! ref_of e) as [layout|]; [done|].
  split; [done|]. by apply same_view_set_layout, same_view_set_modified.
Qed.

Lemma same_view_layout_at ref st st' :
  ref ∈ U →
  same_view U st st' →
  same_view_result U (layout_at ref st) (layout_at ref st').
Proof.
  intros He Hsame. unfold layout_at. rewrite <- (proj1 Hsame _ He).
  by destruct (layout_map_ st !! ref).
Qed.

Lemma same_view_bind {A B} (c c' : M A) (k k' : A → M B) st st' :
  same_view_result U (c st) (c' st') →
  (∀ a s s', same_view U s s' → same_view_result U (k a s) (k' a s')) →
  same_view_result U (bind c k st) (bind c' k' st').
Proof.
  intros Hc Hk. unfold bind.
  destruct (c st) as [[a s]|msg], (c' st') as [[a' s']|msg']; try done.
  destruct Hc as [<- Hs]. by apply Hk.
Qed.

Lemma same_view_infer_call node op num_args attrs layouts types nodes st st' :
  ref_of node ∈ U →
  same_view U st st' →
  same_view_result U
    (infer_call finfer node op num_args attrs layouts types nodes st)
    (infer_call finfer node op num_args attrs layouts types nodes st').
Proof.
  intros Hnode Hsame. unfold infer_call.
  destruct (Downcast_Op op) as [name|msg]; [|done].
  apply same_view_GetCachedLayout; [done|].
  apply same_view_stamp.
  destruct (finfer name) as [rule|]; [|done].
  destruct (rule _ _ _ _ _) as [[] reporter]; [|done].
  by apply same_view_UpdateLayoutCache_all.
Qed.

Lemma same_view_GetLayout_with visit visit' ref st st' :
  ref ∈ U →
  (∀ s s', same_view U s s' → same_view_result U (visit s) (visit' s')) →
  same_view U st st' →
  same_view_result U (GetLayout_with visit ref st)
    (GetLayout_with visit' ref st').
Proof.
  intros Href Hvisit Hsame. unfold GetLayout_with.
  rewrite <- (proj1 Hsame _ Href).
  rewrite <- (bool_decide_ext _ _ (proj2 Hsame _ Href)).
  destruct (_ || _).
  - apply same_view_bind; [by apply Hvisit|].
    intros layout s1 s1' Hs1. apply same_view_bind.
    + split; [done|]. by apply same_view_set_layout.
    + intros _ s2 s2' Hs2. by apply same_view_layout_at.
  - by apply same_view_layout_at.
Qed.

Lemma same_view_GetLayout_proposals visit_proposals visit_proposals' ref
    st st' :
  ref ∈ U →
  (∀ s s', same_view U s s' → visit_proposals s = visit_proposals' s') →
  same_view U st st' →
  GetLayout_proposals_with visit_proposals ref st
  = GetLayout_proposals_with visit_proposals' ref st'.
Proof.
  intros Href Hvisit Hsame. unfold GetLayout_proposals_with.
  rewrite <- (proj1 Hsame _ Href).
  rewrite <- (bool_decide_ext _ _ (proj2 Hsame _ Href)).
  destruct (_ || _); [by apply Hvisit|done].
Qed.

Lemma same_view_collect_args get get' get_proposals get_proposals' args
    ls ts ns st st' :
  Forall (λ a, ∀ s s', same_view U s s' →
            same_view_result U (get a s) (get' a s') ∧
            get_proposals a s = get_proposals' a s') args →
  same_view U st st' →
  same_view_result U (collect_args get args ls ts ns st)
    (collect_args get' args ls ts ns st') ∧
  args_proposals get get_proposals args st
  = args_proposals get' get_proposals' args st'.
Proof.
  intros Hall. revert ls ts ns st st'.
  induction Hall as [|a args Ha _ IH]; intros ls ts ns st st' Hsame;
    cbn [collect_args args_proposals].
  - done.
  - destruct (Ha st st' Hsame) as [Hres Hlog]. rewrite Hlog.
    unfold bind.
    destruct (get a st) as [[r s]|msg], (get' a st') as [[r' s']|msg'];
      try done.
    destruct Hres as [<- Hs].
    destruct (IH (ls ++ [r]) (ts ++ [checked_type a]) (ns ++ [ref_of a])
                s s' Hs) as [Hrest ->].
    done.
Qed.

(** Visits from two states with the same view return the same layout, merge
    the same proposals and end in two states with the same view, or fail
    with the same error. *)
Lemma same_view_VisitExpr root e st st' :
  U = refs_of root →
  e ∈ subexprs root →
  same_view U st st' →
  same_view_result U (VisitExpr finfer e st) (VisitExpr finfer e st') ∧
  VisitExpr_proposals finfer e st = VisitExpr_proposals finfer e st'.
Proof.
  intros HU. revert st st'.
  induction e as [ref ty|ref ty op args attrs IH|ref ty params body IH|e Hk]
    using Expr_visit_ind; intros st st' Hsub Hsame.
  - split; [|done]. apply same_view_GetCachedLayout; [|done].
    rewrite HU. by apply ref_in_refs_of.
  - assert (∀ a, a ∈ args → a ∈ subexprs root) as Hargs.
    { intros a Ha. eapply subexprs_trans; [|done].
      eapply subexprs_arg; [done|apply subexprs_self]. }
    assert (ref ∈ U) as Href.
    { rewrite HU.
      by apply (ref_in_refs_of root (CallNode ref ty op args attrs)). }
    destruct (same_view_collect_args
                (GetLayout finfer) (GetLayout finfer)
                (λ arg, GetLayout_proposals_with
                          (VisitExpr_proposals finfer arg) (ref_of arg))
                (λ arg, GetLayout_proposals_with
                          (VisitExpr_proposals finfer arg) (ref_of arg))
                args [] [] [] st st') as [Hc Hlog]; [|done|].
    { rewrite Forall_forall in IH. apply Forall_forall. intros a Ha s s' Hs.
      assert (ref_of a ∈ U) as HaU
        by (rewrite HU; by apply ref_in_refs_of, Hargs).
      split.
      - apply same_view_GetLayout_with; [done| |done].
        intros s1 s1' Hs1. by apply IH; [|apply Hargs|].
      - apply same_view_GetLayout_proposals; [done| |done].
        intros s1 s1' Hs1. by apply IH; [|apply Hargs|]. }
    assert (same_view_result U
              (call_inputs finfer (CallNode ref ty op args attrs) args st)
              (call_inputs finfer (CallNode ref ty op args attrs) args st'))
      as Hin.
    { unfold call_inputs. apply same_view_bind; [exact Hc|].
      intros [[ls ts] ns] s s' Hs. apply same_view_bind.
      - by apply same_view_GetCachedLayout.
      - intros own s1 s1' Hs1. done. }
    split.
    + rewrite !VisitExpr_call. apply same_view_bind; [exact Hin|].
      intros [[ls ts] ns] s s' Hs. by apply same_view_infer_call.
    + cbn [VisitExpr_proposals]. rewrite Hlog. f_equal.
      destruct (call_inputs _ _ _ st) as [[inputs s]|msg],
        (call_inputs _ _ _ st') as [[inputs' s']|msg']; try done.
      by destruct Hin as [<- _].
  - cbn [VisitExpr VisitExpr_proposals]. apply IH; [|done].
    eapply subexprs_trans; [|done]. apply subexprs_body, subexprs_self.
  - rewrite !VisitExpr_unsupported by done. split; [done|].
    destruct e; try discriminate Hk; done.
Qed.

End SameView.

(** ** Sums over the nodes of an expression *)

Lemma sum_list_with_le {A} (f g : A → nat) l :
  (∀ x, x ∈ l → (f x ≤ g x)%nat) →
  (sum_list_with f l ≤ sum_list_with g l)%nat.
Proof.
  induction l as [|x l IH]; intros Hle; cbn; [done|].
  specialize (Hle x (list_elem_of_here _ _)) as Hx.
  assert (sum_list_with f l ≤ sum_list_with g l)%nat
    by (apply IH; intros y Hy; by apply Hle, list_elem_of_further).
  lia.
Qed.

Lemma sum_list_with_eq {A} (f g : A → nat) l :
  (∀ x, x ∈ l → (f x ≤ g x)%nat) →
  sum_list_with f l = sum_list_with g l →
  ∀ x, x ∈ l → f x = g x.
Proof.
  induction l as [|y l IH]; intros Hle Hsum x Hx;
    [by apply elem_of_nil in Hx|].
  cbn in Hsum.
  specialize (Hle y (list_elem_of_here _ _)) as Hy.
  assert (sum_list_with f l ≤ sum_list_with g l)%nat as Hrest
    by (apply sum_list_with_le; intros z Hz; by apply Hle, list_elem_of_further).
  apply elem_of_cons in Hx as [->|Hx]; [lia|].
  apply IH; [|lia|done]. intros z Hz. by apply Hle, list_elem_of_further.
Qed.

Lemma sum_list_with_bound {A} (f : A → nat) l c :
  (∀ x, (f x ≤ c)%nat) → (sum_list_with f l ≤ length l * c)%nat.
Proof.
  intros Hb. induction l as [|x l IH]; cbn; [done|]. specialize (Hb x). lia.
Qed.

(** ** Proposals made twice *)

Lemma foldl_insert_union (l : list (N * RelayLayout))
    (m : gmap N RelayLayout) :
  foldl (λ m it, <[it.1 := it.2]> m) m l = last_proposals l ∪ m.
Proof.
  induction l as [|[n layout] l IH] using rev_ind.
  - unfold last_proposals. cbn. by rewrite (left_id_L ∅ (∪)).
  - unfold last_proposals in *. rewrite !foldl_app. cbn.
    rewrite IH. by rewrite insert_union_l.
Qed.

Lemma last_proposals_app l1 l2 :
  last_proposals (l1 ++ l2) = last_proposals l2 ∪ last_proposals l1.
Proof.
  unfold last_proposals at 1. rewrite foldl_app.
  apply foldl_insert_union.
Qed.

Lemma last_proposals_twice l1 l2 :
  last_proposals ((l1 ++ l2) ++ l2) = last_proposals (l1 ++ l2).
Proof.
  rewrite (last_proposals_app (l1 ++ l2) l2), last_proposals_app.
  rewrite (assoc_L (∪)). by rewrite (idemp_L (∪)).
Qed.

(** ** The nodes that are due *)

Lemma elem_of_due_set U st n :
  n ∈ due_set U st ↔ timestamp_of n st < timestamp_ st ∧ n ∈ U.
Proof.
  unfold due_set.
  apply (elem_of_filter (λ n, timestamp_of n st < timestamp_ st)).
Qed.

Lemma due_set_size U st : (size (due_set U st) ≤ size U)%nat.
Proof.
  apply subseteq_size. intros n Hn. by apply elem_of_due_set in Hn as [_ Hn].
Qed.

(** A node that is due at the start of a round is due at the start of the
    next. *)
Lemma due_set_next U st st1 :
  round_step st st1 →
  due_set U st ⊆ due_set U (incr_timestamp (set_modified false st1)).
Proof.
  intros (Ht & _ & _ & Hs) n Hn. apply elem_of_due_set in Hn as [Hdue HU].
  apply elem_of_due_set. split; [|done].
  unfold timestamp_of in *. cbn.
  destruct (Hs n) as [-> | ->]; cbn; lia.
Qed.

(** ** Termination for monotone proposals *)

Lemma Infer_proposals_one finfer e st r st1 :
  VisitExpr finfer e st = Ok (r, st1) →
  Infer_proposals finfer 1 e st = VisitExpr_proposals finfer e st.
Proof.
  intros Hv. rewrite Infer_proposals_unfold, Hv.
  destruct (modified_ st1); cbn; by rewrite app_nil_r.
Qed.

Lemma Infer_proposals_next finfer fuel e st r st1 :
  VisitExpr finfer e st = Ok (r, st1) →
  modified_ st1 = true →
  Infer_proposals finfer (S fuel) e st
  = VisitExpr_proposals finfer e st
    ++ Infer_proposals finfer fuel e (incr_timestamp (set_modified false st1)).
Proof. intros Hv Hmod. by rewrite Infer_proposals_unfold, Hv, Hmod. Qed.

Section Termination.

Variable finfer : string → option FInferLayout.
Variable rank : RelayLayout → nat.
Variable bound : nat.
Variable root : Expr.

Hypothesis rank_bound : ∀ layout, (rank layout ≤ bound)%nat.
Hypothesis no_fn_args : no_function_args root.

Lemma VisitExpr_climbs e hist st r st' :
  e ∈ subexprs root →
  VisitExpr finfer e st = Ok (r, st') →
  monotone_proposals rank (hist ++ VisitExpr_proposals finfer e st) →
  climbs rank root hist st (hist ++ VisitExpr_proposals finfer e st) st'.
Proof.
  intros Hsub Hv Hmono.
  by apply (VisitExpr_proposals_R finfer root (monotone_proposals rank)
              (monotone_proposals_prefix rank)
              (climbs rank root) (climbs_refl rank root)
              (climbs_trans rank root) (climbs_default rank root)
              (climbs_write finfer rank root no_fn_args)
              (climbs_proposal rank root) (climbs_stamp rank root)
              e Hsub hist st r st' Hv).
Qed.

Lemma level_bound hist st n : (level rank hist st n ≤ bound + 2)%nat.
Proof.
  unfold level. destruct (layout_map_ st !! n);
    destruct (last_proposals hist !! n) as [l|];
    try specialize (rank_bound l); lia.
Qed.

Lemma levels_bound U hist st :
  (levels rank U hist st ≤ size U * (bound + 2))%nat.
Proof. apply sum_list_with_bound, level_bound. Qed.

(** A round that raises the flag, but no level of a node of the expression,
    and after which the same nodes are due as before it: the next round
    merges the same proposals, and leaves the flag down. *)
Lemma Infer_after_still_round hist st r st1 :
  last_proposals hist ⊆ layout_map_ st →
  VisitExpr finfer root st = Ok (r, st1) →
  modified_ st1 = true →
  (∀ fuel, monotone_proposals rank
             (hist ++ Infer_proposals finfer fuel root st)) →
  levels rank (refs_of root) (hist ++ VisitExpr_proposals finfer root st) st1
  = levels rank (refs_of root) hist st →
  due_set (refs_of root) (incr_timestamp (set_modified false st1))
  = due_set (refs_of root) st →
  ∃ fuel res, Infer finfer fuel root st = Some res ∧ settles finfer root res.
Proof.
  intros Hinv Hv Hmod1 Hmono Hlev Hdue.
  set (L := VisitExpr_proposals finfer root st) in *.
  set (st2 := incr_timestamp (set_modified false st1)) in *.
  pose proof (Hmono 1%nat) as Hmono1.
  rewrite (Infer_proposals_one _ _ _ _ _ Hv) in Hmono1. fold L in Hmono1.
  destruct (VisitExpr_climbs root hist st r st1 (subexprs_self root) Hv Hmono1
              Hinv) as (Hinv1 & _ & _ & Hle & _ & Hch & _ & _).
  fold L in Hinv1, Hle, Hch.
  (* the two rounds start from the same view *)
  assert (same_view (refs_of root) st st2) as Hview.
  { split.
    - intros n Hn. change (layout_map_ st2) with (layout_map_ st1).
      destruct (decide (layout_map_ st1 !! n = layout_map_ st !! n))
        as [Heq|Hne]; [done|].
      specialize (Hch n Hne).
      assert (level rank hist st n = level rank (hist ++ L) st1 n) as Heq.
      { apply (sum_list_with_eq _ _ (elements (refs_of root)));
          [by intros|by symmetry|by apply elem_of_elements]. }
      lia.
    - intros n Hn.
      pose proof (elem_of_due_set (refs_of root) st n) as H1.
      pose proof (elem_of_due_set (refs_of root) st2 n) as H2.
      rewrite Hdue in H2. tauto. }
  destruct (same_view_VisitExpr finfer (refs_of root) root root st st2 eq_refl
              (subexprs_self root) Hview) as [Hres Hlog].
  rewrite Hv in Hres.
  destruct (VisitExpr finfer root st2) as [[r2 st3]|msg] eqn:Hv2; [|done].
  destruct Hres as [<- Hview3]. fold L in Hlog.
  (* the second round *)
  pose proof (Hmono 2%nat) as Hmono2.
  rewrite (Infer_proposals_next _ _ _ _ _ _ Hv Hmod1) in Hmono2.
  fold L st2 in Hmono2.
  rewrite (Infer_proposals_one _ _ _ _ _ Hv2), <- Hlog in Hmono2.
  rewrite app_assoc in Hmono2.
  pose proof (VisitExpr_climbs root (hist ++ L) st2 r st3 (subexprs_self root)
                Hv2) as Hclimb2.
  rewrite <- Hlog in Hclimb2. specialize (Hclimb2 Hmono2).
  destruct (Hclimb2 Hinv1) as (_ & _ & _ & _ & Hlt2 & _ & Hd2 & He2).
  assert (modified_ st3 = false) as Hmod3.
  { destruct (modified_ st3) eqn:Hm3; [|done]. exfalso.
    destruct (Hlt2 eq_refl) as [Habs|[n Hn]]; [done|].
    unfold level in Hn. rewrite last_proposals_twice in Hn.
    assert (is_Some (layout_map_ st3 !! n) → is_Some (layout_map_ st2 !! n))
      as Hpres.
    { intros H3. destruct (Hd2 n H3) as [H2|[HR|Hl]]; [done| |].
      - change (layout_map_ st2) with (layout_map_ st1).
        by rewrite (proj1 Hview3 n HR).
      - rewrite last_proposals_twice in Hl. destruct Hl as [l Hl].
        exists l. by eapply lookup_weaken. }
    destruct (layout_map_ st3 !! n) as [l3|] eqn:H3.
    - destruct (Hpres (mk_is_Some _ _ eq_refl)) as [l2 H2].
      rewrite H2 in Hn. lia.
    - destruct (layout_map_ st2 !! n); lia. }
  exists 2%nat, (Ok st3). rewrite Infer_unfold, Hv, Hmod1.
  fold st2. rewrite Infer_unfold, Hv2, Hmod3.
  split; [done|]. split; [done|]. exists st2, r. split; [done|].
  symmetry. by apply He2.
Qed.

(** From a state with the flag down, [Infer] returns within as many rounds
    as the levels of the nodes of the expression and the set of its due
    nodes have room to grow, and two more. *)
Lemma Infer_settles_from room hist st :
  last_proposals hist ⊆ layout_map_ st →
  modified_ st = false →
  (size (refs_of root) * (bound + 2) + size (refs_of root)
   - (levels rank (refs_of root) hist st + size (due_set (refs_of root) st))
   ≤ room)%nat →
  (∀ fuel, monotone_proposals rank
             (hist ++ Infer_proposals finfer fuel root st)) →
  ∃ fuel res, Infer finfer fuel root st = Some res ∧ settles finfer root res.
Proof.
  revert hist st. induction room as [|room IH];
    intros hist st Hinv Hmod Hroom Hmono.
  all: destruct (VisitExpr finfer root st) as [[r st1]|msg] eqn:Hv.
  all: try (exists 1%nat, (Fatal msg); rewrite Infer_unfold, Hv;
            split; [done|]; intros Hsup;
            destruct (VisitExpr_total finfer root Hsup st) as (? & ? & Hok);
            congruence).
  all: pose proof (Hmono 1%nat) as Hmono1.
  all: rewrite (Infer_proposals_one _ _ _ _ _ Hv) in Hmono1.
  all: destruct (VisitExpr_climbs root hist st r st1 (subexprs_self root) Hv
                   Hmono1 Hinv) as (Hinv1 & _ & _ & Hle & _ & _ & _ & Heq).
  all: destruct (modified_ st1) eqn:Hmod1.
  all: try (exists 1%nat, (Ok st1); rewrite Infer_unfold, Hv, Hmod1;
            split; [done|]; split; [done|]; exists st, r;
            split; [done|]; symmetry; by apply Heq).
  all: pose proof (sum_list_with_le _ _ (elements (refs_of root))
                     (λ n _, Hle n)) as Hlev.
  all: fold (levels rank (refs_of root) hist st) in Hlev.
  all: fold (levels rank (refs_of root)
               (hist ++ VisitExpr_proposals finfer root st) st1) in Hlev.
  all: pose proof (due_set_next (refs_of root) st st1
                     (VisitExpr_round_step _ _ _ _ _ Hv)) as Hdue.
  all: pose proof (subseteq_size _ _ Hdue) as Hdsize.
  all: pose proof (levels_bound (refs_of root)
                     (hist ++ VisitExpr_proposals finfer root st) st1) as Hb1.
  all: pose proof (due_set_size (refs_of root)
                     (incr_timestamp (set_modified false st1))) as Hb2.
  all: destruct (decide
         (levels rank (refs_of root)
            (hist ++ VisitExpr_proposals finfer root st) st1
          = levels rank (refs_of root) hist st ∧
          size (due_set (refs_of root)
                  (incr_timestamp (set_modified false st1)))
          = size (due_set (refs_of root) st))) as [[Hl Hd]|Hgrow].
  all: try (apply (Infer_after_still_round hist st r st1); try done;
            symmetry; apply set_subseteq_size_eq; [done|lia]).
  - lia.
  - destruct (IH (hist ++ VisitExpr_proposals finfer root st)
                (incr_timestamp (set_modified false st1)))
      as (fuel & res & Hin & Hres); try done.
    + change (levels rank (refs_of root)
                (hist ++ VisitExpr_proposals finfer root st)
                (incr_timestamp (set_modified false st1)))
        with (levels rank (refs_of root)
                (hist ++ VisitExpr_proposals finfer root st) st1).
      lia.
    + intros fuel. rewrite <- app_assoc.
      rewrite <- (Infer_proposals_next _ _ _ _ _ _ Hv Hmod1). apply Hmono.
    + destruct fuel as [|fuel]; [done|].
      exists (S (S fuel)), res. split; [|done].
      by rewrite Infer_unfold, Hv, Hmod1.
Qed.

End Termination.

(** C3, amended.  Take a run of [Infer] whose proposals are monotone for a
    specificity rank that is bounded: each later proposal for a node is
    identical to an earlier one or strictly more specific.  Let no call of
    the expression have a function as an argument.  Then [Infer] terminates,
    from every inferencer state: some number of rounds suffices, and the run
    ends with the modified flag down after a round that changed no entry of
    the layout map, or, only when the expression holds an unsupported node,
    with the fatal error. *)
Theorem monotone_rules_converge finfer rank bound root st :
  (∀ layout, (rank layout ≤ bound)%nat) →
  (∀ fuel, monotone_proposals rank (Infer_proposals finfer fuel root st)) →
  no_function_args root →
  ∃ fuel res, Infer finfer fuel root st = Some res ∧ settles finfer root res.
Proof.
  intros Hbound Hmono Hnofn.
  destruct (VisitExpr finfer root st) as [[r st1]|msg] eqn:Hv.
  2:{ exists 1%nat, (Fatal msg). rewrite Infer_unfold, Hv. split; [done|].
      intros Hsup.
      destruct (VisitExpr_total finfer root Hsup st) as (? & ? & Hok).
      congruence. }
  pose proof (Hmono 1%nat) as Hmono1.
  rewrite (Infer_proposals_one _ _ _ _ _ Hv) in Hmono1.
  destruct (VisitExpr_climbs finfer rank root Hnofn root [] st r st1
              (subexprs_self root) Hv Hmono1)
    as (Hinv1 & _ & _ & _ & _ & _ & _ & Heq).
  { apply map_empty_subseteq. }
  cbn [app] in Hinv1.
  destruct (modified_ st1) eqn:Hmod1.
  - destruct (Infer_settles_from finfer rank bound root Hbound Hnofn
                (size (refs_of root) * (bound + 2) + size (refs_of root))
                (VisitExpr_proposals finfer root st)
                (incr_timestamp (set_modified false st1)))
      as (fuel & res & Hin & Hres); try done.
    + lia.
    + intros fuel.
      rewrite <- (Infer_proposals_next _ _ _ _ _ _ Hv Hmod1). apply Hmono.
    + destruct fuel as [|fuel]; [done|].
      exists (S (S fuel)), res. split; [|done].
      by rewrite Infer_unfold, Hv, Hmod1.
  - exists 1%nat, (Ok st1). rewrite Infer_unfold, Hv, Hmod1.
    split; [done|]. split; [done|]. exists st, r. split; [done|].
    symmetry. by apply Heq.
Qed.

(** ** A monotone rule set on which [Infer] does not terminate *)

Lemma GetCachedLayout_lookup_ne expr st r st' n :
  GetCachedLayout expr Undef st = Ok (r, st') →
  n ≠ ref_of expr →
  layout_map_ st' !! n = layout_map_ st !! n.
Proof.
  intros H Hne. apply GetCachedLayout_Ok in H as [[_ ->]|(_ & _ & ->)];
    [done|]. cbn. by rewrite lookup_insert_ne.
Qed.

Lemma rank01_bound layout : (rank01 layout ≤ 1)%nat.
Proof. unfold rank01. case_decide; lia. Qed.

Lemma rank01_Undef_lt layout :
  layout ≠ TensorLayout Undef →
  (rank01 (TensorLayout Undef) < rank01 layout)%nat.
Proof.
  intros Hne. unfold rank01.
  rewrite decide_True by done. rewrite decide_False by done. lia.
Qed.

(** The rule of [call_apply] proposes [NCHW] for the function only when the
    entry of the function is [Undef]: its proposals are monotone. *)
Lemma apply_rules_monotone : monotone_rules apply_rules rank01 call_apply.
Proof.
  intros ref ty op args attrs name rule st inputs st1 reporter Hsub Hin Hop
    Hrule Hr.
  cbn in Hsub. rewrite !elem_of_cons, elem_of_nil in Hsub.
  destruct Hsub as [Heq|[Heq|[Heq|[]]]]; try discriminate Heq.
  injection Heq as -> -> -> -> ->. injection Hop as <-.
  injection Hrule as <-.
  apply call_inputs_Ok in Hin as (rs & s0 & own & Hargs & _ & Hown & ->).
  cbn [collect_args] in Hargs.
  apply bind_Ok in Hargs as (v & s0' & Hget & [= <- <-]).
  apply GetLayout_lookup in Hget.
  assert (layout_map_ st1 !! 7%N = Some v) as Hlk.
  { rewrite (GetCachedLayout_lookup_ne _ _ _ _ 7%N Hown); done. }
  cbn in Hr. destruct v as [[|tag]|fields]; try discriminate Hr.
  injection Hr as <-. cbn. split; [apply list_elem_of_here|]. split; [|done].
  intros old Hold. rewrite Hlk in Hold. injection Hold as <-.
  right. by apply rank01_Undef_lt.
Qed.

(** From round one on, every round undoes the entry of the function through
    [GetLayout] and raises the flag by proposing it again. *)
Lemma apply_round k :
  1 ≤ k →
  VisitExpr apply_rules call_apply (apply_state k)
  = Ok (TensorLayout Undef,
        mkLayoutInferencer (layout_map_ (apply_state k)) {[8%N := k]} true k).
Proof.
  intros Hk.
  assert (GetLayout apply_rules fn_arg (apply_state k)
          = Ok (TensorLayout Undef,
                set_layout 7 (TensorLayout Undef) (apply_state k))) as Hget.
  { apply GetLayout_with_stale; [|done]. right.
    change (timestamp_of 7 (apply_state k)) with 0.
    change (timestamp_ (apply_state k)) with k. lia. }
  unfold call_apply.
  rewrite (VisitExpr_call_intro apply_rules _ _ _ _ _ _
             ([TensorLayout Undef; TensorLayout Undef],
              [FuncType [] tensor4; tensor4], [7%N; 8%N])
             (set_layout 7 (TensorLayout Undef) (apply_state k)) "apply").
  - done.
  - unfold call_inputs. cbn [collect_args]. unfold bind. by rewrite Hget.
  - done.
Qed.

Lemma apply_diverges_from fuel k :
  1 ≤ k → Infer apply_rules fuel call_apply (apply_state k) = None.
Proof.
  revert k. induction fuel as [|fuel IH]; intros k Hk; [done|].
  rewrite Infer_unfold, (apply_round k Hk). cbn [modified_].
  replace (incr_timestamp (set_modified false _)) with (apply_state (k + 1)).
  - apply IH. lia.
  - unfold apply_state, incr_timestamp, set_modified. cbn.
    by replace (k + 1 - 1) with k by lia.
Qed.

(** The rules of [call_apply] are monotone for a rank bounded by one, and
    yet no number of rounds suffices: C3 does not hold as worded. *)
Lemma monotone_rules_diverge :
  (∀ layout, (rank01 layout ≤ 1)%nat) ∧
  monotone_rules apply_rules rank01 call_apply ∧
  (∀ fuel, Infer apply_rules fuel call_apply LayoutInferencer_new = None) ∧
  ¬ monotone_convergence_claim.
Proof.
  assert (∀ fuel, Infer apply_rules fuel call_apply LayoutInferencer_new
                  = None) as Hdiv.
  { intros [|fuel]; [done|]. rewrite Infer_unfold.
    replace (VisitExpr apply_rules call_apply LayoutInferencer_new)
      with (Ok (TensorLayout Undef,
                mkLayoutInferencer (layout_map_ (apply_state 1)) {[8%N := 0]}
                  true 0) : Res (RelayLayout * LayoutInferencer))
      by (vm_compute; reflexivity).
    cbn [modified_]. apply (apply_diverges_from fuel 1). lia. }
  split; [exact rank01_bound|]. split; [exact apply_rules_monotone|].
  split; [exact Hdiv|]. intros Hclaim.
  destruct (Hclaim apply_rules rank01 1%nat call_apply LayoutInferencer_new
              rank01_bound apply_rules_monotone) as [fuel Hfuel].
  by apply Hfuel.
Qed.

(** ** The run that does not terminate has monotone proposals *)

Lemma apply_round_proposals k :
  1 ≤ k →
  VisitExpr_proposals apply_rules call_apply (apply_state k) = [(7%N, NCHW)].
Proof.
  intros Hk.
  assert (stale 7 (apply_state k)) as Hstale.
  { right. change (timestamp_of 7 (apply_state k)) with 0.
    change (timestamp_ (apply_state k)) with k. lia. }
  assert (GetLayout apply_rules fn_arg (apply_state k)
          = Ok (TensorLayout Undef,
                set_layout 7 (TensorLayout Undef) (apply_state k))) as Hget.
  { by apply GetLayout_with_stale. }
  unfold call_apply.
  rewrite (VisitExpr_proposals_call apply_rules _ _ _ _ _ _
             ([TensorLayout Undef; TensorLayout Undef],
              [FuncType [] tensor4; tensor4], [7%N; 8%N])
             (set_layout 7 (TensorLayout Undef) (apply_state k)) "apply").
  - cbn [args_proposals]. rewrite Hget.
    change (ref_of fn_arg) with 7%N.
    rewrite (GetLayout_proposals_stale _ _ _ Hstale). done.
  - unfold call_inputs. cbn [collect_args]. unfold bind. by rewrite Hget.
  - done.
Qed.

Lemma apply_proposals_from fuel k :
  1 ≤ k →
  Infer_proposals apply_rules fuel call_apply (apply_state k)
  = replicate fuel (7%N, NCHW).
Proof.
  revert k. induction fuel as [|fuel IH]; intros k Hk; [done|].
  rewrite Infer_proposals_unfold, (apply_round_proposals k Hk).
  rewrite (apply_round k Hk). cbn [modified_].
  replace (incr_timestamp (set_modified false _)) with (apply_state (k + 1)).
  - rewrite IH by lia. done.
  - unfold apply_state, incr_timestamp, set_modified. cbn.
    by replace (k + 1 - 1) with k by lia.
Qed.

(** The proposals of the run on [call_apply] are the same proposal, for the
    function, in every round: they are monotone in the order of the run as
    well, so that C3 as worded fails in this reading too, and the hypothesis
    on function arguments cannot be dropped. *)
Lemma apply_proposals_monotone :
  (∀ fuel, monotone_proposals rank01
             (Infer_proposals apply_rules fuel call_apply
                LayoutInferencer_new)) ∧
  ¬ no_function_args call_apply ∧
  ¬ monotone_run_convergence_claim.
Proof.
  assert (∀ fuel it,
            it ∈ Infer_proposals apply_rules fuel call_apply
                   LayoutInferencer_new → it = (7%N, NCHW)) as Hall.
  { intros [|fuel] it; [by intros ?%elem_of_nil|].
    rewrite Infer_proposals_unfold.
    replace (VisitExpr apply_rules call_apply LayoutInferencer_new)
      with (Ok (TensorLayout Undef,
                mkLayoutInferencer (layout_map_ (apply_state 1)) {[8%N := 0]}
                  true 0) : Res (RelayLayout * LayoutInferencer))
      by (vm_compute; reflexivity).
    replace (VisitExpr_proposals apply_rules call_apply LayoutInferencer_new)
      with [(7%N, NCHW)] by (vm_compute; reflexivity).
    cbn [modified_].
    change (incr_timestamp (set_modified false _)) with (apply_state 1).
    rewrite apply_proposals_from by lia.
    rewrite elem_of_app. intros [Hin|Hin].
    - by apply list_elem_of_singleton in Hin.
    - by apply elem_of_replicate in Hin as [-> _]. }
  assert (∀ fuel, monotone_proposals rank01
                    (Infer_proposals apply_rules fuel call_apply
                       LayoutInferencer_new)) as Hmono.
  { intros fuel. apply monotone_proposals_same. intros n l1 l2 H1 H2.
    apply Hall in H1, H2. congruence. }
  split; [exact Hmono|]. split.
  - intros Hno. apply (Hno fn_arg); [|done].
    exists 8%N, tensor4, op_apply, [fn_arg], NoAttrs.
    split; [apply subexprs_self|apply list_elem_of_here].
  - intros Hclaim.
    destruct (Hclaim apply_rules rank01 1%nat call_apply
                LayoutInferencer_new rank01_bound Hmono)
      as [[|fuel] Hfuel]; [done|].
    apply Hfuel. rewrite Infer_unfold.
    replace (VisitExpr apply_rules call_apply LayoutInferencer_new)
      with (Ok (TensorLayout Undef,
                mkLayoutInferencer (layout_map_ (apply_state 1)) {[8%N := 0]}
                  true 0) : Res (RelayLayout * LayoutInferencer))
      by (vm_compute; reflexivity).
    cbn [modified_]. apply (apply_diverges_from fuel 1). lia.
Qed.

(** ** A rule set that proposes the same at every run converges *)

Lemma call_conv2d_no_function_args : no_function_args call_conv2d.
Proof.
  intros e (ref & ty & op & args & attrs & Hsub & He).
  cbn in Hsub. rewrite !elem_of_cons, elem_of_nil in Hsub.
  destruct Hsub as [Heq|[Heq|[Heq|[]]]]; try discriminate Heq.
  injection Heq as -> -> -> -> ->.
  rewrite !elem_of_cons, elem_of_nil in He.
  destruct He as [->|[->|[]]]; done.
Qed.

(** The rule of [fixed_rules] proposes [NCHW] and [OIHW] in every round; the
    second round changes nothing. *)
Lemma fixed_rules_proposals fuel :
  Infer_proposals fixed_rules fuel call_conv2d LayoutInferencer_new
  = match fuel with
    | O => []
    | S O => [(1%N, NCHW); (2%N, OIHW)]
    | S (S _) => [(1%N, NCHW); (2%N, OIHW); (1%N, NCHW); (2%N, OIHW)]
    end.
Proof. destruct fuel as [|[|fuel]]; vm_compute; reflexivity. Qed.

Lemma fixed_rules_monotone fuel :
  monotone_proposals rank01
    (Infer_proposals fixed_rules fuel call_conv2d LayoutInferencer_new).
Proof.
  apply monotone_proposals_same. intros n l1 l2.
  rewrite fixed_rules_proposals. destruct fuel as [|[|fuel]].
  all: rewrite ?elem_of_cons, ?elem_of_nil; intros H1 H2.
  all: repeat match goal with H : _ ∨ _ |- _ => destruct H as [H|H] end.
  all: congruence || done.
Qed.

Lemma monotone_rules_converge_witness :
  (∀ layout, (rank01 layout ≤ 1)%nat) ∧
  (∀ fuel, monotone_proposals rank01
             (Infer_proposals fixed_rules fuel call_conv2d
                LayoutInferencer_new)) ∧
  no_function_args call_conv2d ∧
  ∃ fuel res,
    Infer fixed_rules fuel call_conv2d LayoutInferencer_new = Some res ∧
    settles fixed_rules call_conv2d res.
Proof.
  split; [exact rank01_bound|]. split; [exact fixed_rules_monotone|].
  split; [exact call_conv2d_no_function_args|].
  exact (monotone_rules_converge fixed_rules rank01 1 call_conv2d
           LayoutInferencer_new rank01_bound fixed_rules_monotone
           call_conv2d_no_function_args).
Defined.

(** ** A rule set that propagates has monotone proposals *)

(** On [copy(conv2d(x, w))] the rule of the copy proposes for its result the
    layout of the convolution, in every round. *)
Lemma propagating_rules_proposals fuel :
  Infer_proposals propagating_rules fuel call_copy LayoutInferencer_new
  = match fuel with
    | O => []
    | S O => [(1%N, NCHW); (2%N, OIHW); (3%N, NCHW); (4%N, NCHW)]
    | S (S _) =>
        [(1%N, NCHW); (2%N, OIHW); (3%N, NCHW); (4%N, NCHW); (4%N, NCHW)]
    end.
Proof. destruct fuel as [|[|fuel]]; vm_compute; reflexivity. Qed.

Lemma propagating_rules_monotone :
  (∀ fuel, monotone_proposals rank01
             (Infer_proposals propagating_rules fuel call_copy
                LayoutInferencer_new)) ∧
  ∃ st', Infer propagating_rules 2 call_copy LayoutInferencer_new
           = Some (Ok st') ∧
         layout_map_ st'
         = {[1%N := NCHW; 2%N := OIHW; 3%N := NCHW; 4%N := NCHW]}.
Proof.
  split.
  - intros fuel. apply monotone_proposals_same. intros n l1 l2.
    rewrite propagating_rules_proposals. destruct fuel as [|[|fuel]].
    all: rewrite ?elem_of_cons, ?elem_of_nil; intros H1 H2.
    all: repeat match goal with H : _ ∨ _ |- _ => destruct H as [H|H] end.
    all: congruence || done.
  - eexists. split; vm_compute; reflexivity.
Qed.

(** ** Nodes and their addresses *)

Lemma core_subexprs e : core e ∈ subexprs e.
Proof.
  induction e as [ref ty|ref ty op args attrs _|ref ty params body IH|e Hk]
    using Expr_visit_ind; try apply subexprs_self.
  - cbn [core]. by apply subexprs_body.
  - destruct e; try discriminate Hk; apply subexprs_self.
Qed.

Lemma core_kind e : kind_of (core e) ≠ KFunction.
Proof.
  induction e as [ref ty|ref ty op args attrs _|ref ty params body IH|e Hk]
    using Expr_visit_ind; try done.
  destruct e; done.
Qed.

Lemma subexprs_length a b :
  a ∈ subexprs b → (length (subexprs a) ≤ length (subexprs b))%nat.
Proof.
  induction b as [ref ty|ref ty op args attrs IH|ref ty params body IH|e Hk]
    using Expr_visit_ind.
  - cbn. rewrite list_elem_of_singleton. by intros ->.
  - cbn [subexprs]. rewrite elem_of_cons. intros [->|Hin]; [done|].
    cbn [length]. etrans; [|apply Nat.le_succ_diag_r].
    clear -IH Hin. induction args as [|b args IHargs]; cbn in *.
    + by apply elem_of_nil in Hin.
    + apply Forall_cons in IH as [Hb IH]. rewrite length_app.
      apply elem_of_app in Hin as [Hin|Hin].
      * specialize (Hb Hin). lia.
      * specialize (IHargs IH Hin). lia.
  - cbn [subexprs]. rewrite elem_of_cons. intros [->|Hin]; [done|].
    cbn [length]. specialize (IH Hin). lia.
  - destruct e; try discriminate Hk; cbn; rewrite list_elem_of_singleton;
      by intros ->.
Qed.

Lemma function_not_in_body ref ty params body :
  FunctionNode ref ty params body ∉ subexprs body.
Proof. intros Hin. apply subexprs_length in Hin. cbn in Hin. lia. Qed.

Lemma function_ref_fresh root ref ty params body b :
  wf_refs root →
  FunctionNode ref ty params body ∈ subexprs root →
  b ∈ subexprs body → ref_of b ≠ ref.
Proof.
  intros Hwf Hf Hb Heq.
  assert (b ∈ subexprs root) as Hbr.
  { eapply subexprs_trans; [exact Hb|]. eapply subexprs_trans; [|exact Hf].
    apply subexprs_body, subexprs_self. }
  specialize (Hwf b _ Hbr Hf Heq). subst b.
  by apply function_not_in_body in Hb.
Qed.

Lemma function_not_in_refs root ref ty params body :
  wf_refs root →
  FunctionNode ref ty params body ∈ subexprs root →
  ref ∉ refs_of body.
Proof.
  intros Hwf Hf Hin. unfold refs_of in Hin.
  apply elem_of_list_to_set, list_elem_of_fmap in Hin as (b & Heq & Hb).
  by eapply function_ref_fresh.
Qed.

(** ** What a visit does not touch *)

Lemma UpdateLayoutCache_all_cons it results st :
  UpdateLayoutCache_all (it :: results) st
  = UpdateLayoutCache_all results (UpdateLayoutCache it.1 it.2 st).
Proof. done. Qed.

Lemma UpdateLayoutCache_all_frame results st n :
  (∀ it, it ∈ results → it.1 ≠ n) →
  layout_map_ (UpdateLayoutCache_all results st) !! n = layout_map_ st !! n ∧
  layout_timestamp_ (UpdateLayoutCache_all results st) = layout_timestamp_ st.
Proof.
  revert st. induction results as [|[ref layout] results IH]; intros st Hne;
    [done|].
  rewrite UpdateLayoutCache_all_cons. cbn [fst snd].
  destruct (IH (UpdateLayoutCache ref layout st)) as [-> ->].
  { intros it Hit. by apply Hne, list_elem_of_further. }
  rewrite UpdateLayoutCache_lookup_ne
    by (symmetry; apply (Hne (ref, layout)), list_elem_of_here).
  split; [done|].
  by destruct (UpdateLayoutCache_cases ref layout st) as [[_ ->]|[_ ->]].
Qed.

(** A visit changes entries and stamps of the nodes it reaches only. *)
Lemma VisitExpr_frame finfer e st r st' n :
  proposals_for_nodes finfer →
  n ∉ refs_of e →
  VisitExpr finfer e st = Ok (r, st') →
  layout_map_ st' !! n = layout_map_ st !! n ∧
  layout_timestamp_ st' !! n = layout_timestamp_ st !! n.
Proof.
  intros Hnodes Hn. revert st r st'.
  apply (VisitExpr_R finfer e
           (λ s s', layout_map_ s' !! n = layout_map_ s !! n ∧
                    layout_timestamp_ s' !! n = layout_timestamp_ s !! n));
    [done| | | | | |apply subexprs_self].
  - intros s1 s2 s3 [-> ->] [-> ->]. done.
  - intros e' s He' _. cbn. split; [|done]. apply lookup_insert_ne.
    intros <-. by apply Hn, ref_in_refs_of.
  - intros e' s r' s1 He' _ _ _ _. cbn. split; [|done].
    apply lookup_insert_ne. intros <-. by apply Hn, ref_in_refs_of.
  - intros ref ty op args attrs name s inputs s1 Hcall Hin _ _.
    unfold merged_state. destruct (finfer name) as [rule|] eqn:Hrule; [|done].
    destruct (rule _ _ _ _ _) as [[] reporter] eqn:Hr; [|done].
    destruct (UpdateLayoutCache_all_frame (results reporter) s1 n)
      as [-> ->]; [|done].
    intros it Hit <-. apply Hn.
    pose proof (Hnodes _ _ _ _ _ _ _ _ Hrule Hr it Hit) as Hnode.
    apply call_inputs_Ok in Hin as (rs & s0 & own & _ & _ & _ & ->).
    cbn in Hnode. apply elem_of_app in Hnode as [Hnode|Hnode].
    + apply list_elem_of_fmap in Hnode as (a & -> & Ha).
      apply ref_in_refs_of. eapply subexprs_trans; [|exact Hcall].
      eapply subexprs_arg; [done|apply subexprs_self].
    + apply list_elem_of_singleton in Hnode. rewrite Hnode.
      by apply (ref_in_refs_of e (CallNode ref ty op args attrs)).
  - intros e' s He'. cbn. split; [done|]. apply lookup_insert_ne.
    intros <-. by apply Hn, ref_in_refs_of.
Qed.

(** ** Merges that change nothing *)

Lemma round_step_UpdateLayoutCache_all results st :
  round_step st (UpdateLayoutCache_all results st).
Proof.
  revert st. induction results as [|it results IH]; intros st.
  - apply round_step_refl.
  - rewrite UpdateLayoutCache_all_cons.
    eapply round_step_trans; [apply round_step_UpdateLayoutCache|apply IH].
Qed.

Lemma UpdateLayoutCache_all_quiet results st :
  modified_ (UpdateLayoutCache_all results st) = false →
  UpdateLayoutCache_all results st = st ∧
  ∀ it, it ∈ results → layout_map_ st !! it.1 = Some it.2.
Proof.
  revert st. induction results as [|[ref layout] results IH]; intros st Hmod.
  - split; [done|]. intros it Hit. by apply elem_of_nil in Hit.
  - rewrite UpdateLayoutCache_all_cons in *. cbn [fst snd] in *.
    destruct (UpdateLayoutCache_cases ref layout st) as [[Hsame Heq]|[_ Heq]];
      rewrite Heq in *.
    + destruct (IH st Hmod) as [-> Hall]. split; [done|].
      intros it Hit. apply elem_of_cons in Hit as [->|Hit]; [done|].
      by apply Hall.
    + destruct (round_step_UpdateLayoutCache_all results
                  (set_modified true (set_layout ref layout st)))
        as (_ & Hmono & _).
      rewrite Hmono in Hmod; done.
Qed.

Lemma UpdateLayoutCache_all_id results st :
  (∀ it, it ∈ results → layout_map_ st !! it.1 = Some it.2) →
  UpdateLayoutCache_all results st = st.
Proof.
  induction results as [|[ref layout] results IH]; intros Hall; [done|].
  rewrite UpdateLayoutCache_all_cons. cbn [fst snd].
  destruct (UpdateLayoutCache_cases ref layout st) as [[_ ->]|[Hne _]].
  - apply IH. intros it Hit. by apply Hall, list_elem_of_further.
  - destruct Hne. apply (Hall (ref, layout)), list_elem_of_here.
Qed.

(** ** Rounds that leave the flag down *)

Section Idempotence.

Variable finfer : string → option FInferLayout.
Variable root : Expr.

Hypothesis refs_wf : wf_refs root.
Hypothesis rules_for_nodes : proposals_for_nodes finfer.

Lemma quiet_refl st : modified_ st = false → quiet_step root st st.
Proof. intros H. repeat split; auto. Qed.

Lemma quiet_keeps_node s u e :
  quiet_step root s u →
  e ∈ subexprs root → kind_of e ≠ KFunction →
  layout_map_ u !! ref_of e = layout_map_ s !! ref_of e.
Proof.
  intros (_ & _ & _ & _ & Hm) He Hk.
  destruct (Hm (ref_of e)) as [H|(_ & ty & params & body & v & Hf & _)];
    [done|].
  pose proof (refs_wf e _ He Hf eq_refl) as Heq.
  destruct Hk. by rewrite Heq.
Qed.

Lemma core_body_reachable ref ty params body :
  FunctionNode ref ty params body ∈ subexprs root →
  core body ∈ subexprs root.
Proof.
  intros Hf. eapply subexprs_trans; [|exact Hf].
  apply subexprs_body, core_subexprs.
Qed.

Lemma quiet_keeps_function s u ref ty params body v :
  quiet_step root s u →
  FunctionNode ref ty params body ∈ subexprs root →
  layout_map_ s !! ref = Some v →
  layout_map_ s !! ref_of (core body) = Some v →
  layout_map_ u !! ref = Some v.
Proof.
  intros Hq Hf Hs Hc. pose proof Hq as (_ & _ & _ & _ & Hm).
  destruct (Hm ref) as [->|(_ & ty' & params' & body' & v' & Hf' & Hu & Hc')];
    [done|].
  pose proof (refs_wf _ _ Hf Hf' eq_refl) as Heq. injection Heq as <- <- <-.
  rewrite Hu. rewrite <- Hc', (quiet_keeps_node s u (core body) Hq); [done|..].
  - by eapply core_body_reachable.
  - apply core_kind.
Qed.

Lemma quiet_keeps_fresh s u n :
  quiet_step root s u → ¬ stale n s →
  layout_map_ u !! n = layout_map_ s !! n.
Proof.
  intros (_ & _ & _ & _ & Hm) Hfresh. by destruct (Hm n) as [H|[Hst _]].
Qed.

Lemma quiet_keeps_stamp s u n :
  quiet_step root s u →
  layout_timestamp_ s !! n = Some (timestamp_ s) →
  layout_timestamp_ u !! n = Some (timestamp_ u).
Proof.
  intros (_ & _ & Ht & Hs & _) Hn. destruct (Hs n) as [->| ->]; congruence.
Qed.

Lemma quiet_stale s u n :
  quiet_step root s u →
  timestamp_of n u < timestamp_ u → timestamp_of n s < timestamp_ s.
Proof.
  intros (_ & _ & Ht & Hs & _). unfold timestamp_of. rewrite Ht.
  destruct (Hs n) as [->| ->]; [done|]. cbn. lia.
Qed.

Lemma quiet_trans s u w :
  quiet_step root s u → quiet_step root u w → quiet_step root s w.
Proof.
  intros Hsu Huw.
  pose proof Hsu as (Hm1 & Hm2 & Ht1 & Hs1 & He1).
  pose proof Huw as (_ & Hm3 & Ht2 & Hs2 & He2).
  split; [done|]. split; [done|]. split; [congruence|]. split.
  - intros n. destruct (Hs2 n) as [->| ->]; [apply Hs1|]. right. congruence.
  - intros n.
    destruct (He2 n) as [Heq|(Hst & ty & params & body & v & Hf & Hw & Hc)].
    + rewrite Heq.
      destruct (He1 n) as [Heq1|(Hst1 & ty & params & body & v & Hf & Hu & Hc)];
        [by left|].
      right. split; [done|]. exists ty, params, body, v.
      split; [done|]. split; [done|].
      rewrite (quiet_keeps_node u w (core body) Huw); [done|..].
      * by eapply core_body_reachable.
      * apply core_kind.
    + right. split; [|by exists ty, params, body, v].
      destruct (He1 n) as [Heq1|[Hst1 _]]; [|done].
      destruct Hst as [Hnone|Hold].
      * left. by rewrite <- Heq1.
      * right. by eapply quiet_stale.
Qed.

Lemma quiet_round_refl st : quiet_round root st st.
Proof. split; [apply round_step_refl|apply quiet_refl]. Qed.

Lemma quiet_round_trans st1 st2 st3 :
  quiet_round root st1 st2 → quiet_round root st2 st3 →
  quiet_round root st1 st3.
Proof.
  intros [Hr1 Hq1] [Hr2 Hq2]. split; [by eapply round_step_trans|].
  intros H3. assert (modified_ st2 = false) as H2.
  { destruct Hr2 as (_ & Hmono & _). destruct (modified_ st2); [|done].
    rewrite Hmono in H3; done. }
  eapply quiet_trans; [by apply Hq1|by apply Hq2].
Qed.

Lemma quiet_round_default e st :
  layout_map_ st !! ref_of e = None →
  quiet_round root st
    (set_layout (ref_of e) (default_layout_of (checked_type e))
       (set_modified true st)).
Proof.
  intros _. split; [|done].
  eapply round_step_trans; [apply round_step_set_modified|].
  apply round_step_set_layout.
Qed.

Lemma quiet_round_write e st r st1 :
  e ∈ subexprs root →
  stale (ref_of e) st →
  VisitExpr finfer e st = Ok (r, st1) →
  quiet_round root st1 (set_layout (ref_of e) r st1).
Proof.
  intros He Hstale Hv. split; [apply round_step_set_layout|].
  cbn. intros Hmod. split; [done|]. split; [done|]. split; [done|].
  split; [by left|]. intros n. cbn.
  destruct (decide (n = ref_of e)) as [->|Hne];
    [|left; by rewrite lookup_insert_ne].
  pose proof (VisitExpr_core_lookup _ _ _ _ _ Hv) as Hcore.
  destruct (decide (kind_of e = KFunction)) as [Hk|Hk].
  - destruct e; try discriminate Hk. cbn [ref_of core] in *. right.
    pose proof (function_not_in_refs _ _ _ _ _ refs_wf He) as Hfresh.
    rewrite VisitExpr_function in Hv.
    destruct (VisitExpr_frame finfer _ _ _ _ _ rules_for_nodes Hfresh Hv)
      as [Hmap Hts].
    pose proof (VisitExpr_round_step _ _ _ _ _ Hv) as (Ht & _).
    split.
    { unfold stale, timestamp_of in *. by rewrite Hmap, Hts, Ht. }
    exists checked_type0, params, e, r. split; [done|].
    rewrite lookup_insert_eq. split; [done|].
    rewrite lookup_insert_ne; [done|]. intros Heq.
    eapply (function_ref_fresh root); [done|exact He| |by symmetry].
    apply core_subexprs.
  - rewrite core_not_function in Hcore by done. left.
    by rewrite lookup_insert_eq.
Qed.

Lemma merged_state_quiet name num_args attrs inputs st :
  modified_ (merged_state finfer name num_args attrs inputs st) = false →
  merged_state finfer name num_args attrs inputs st = st.
Proof.
  unfold merged_state. destruct (finfer name) as [rule|]; [|done].
  destruct (rule _ _ _ _ _) as [[] reporter]; [|done].
  intros H. by apply UpdateLayoutCache_all_quiet in H as [-> _].
Qed.

Lemma quiet_round_merge name num_args attrs inputs st :
  quiet_round root st (merged_state finfer name num_args attrs inputs st).
Proof.
  split.
  - apply merged_state_ind;
      [apply round_step_refl|apply round_step_trans
      |apply round_step_UpdateLayoutCache].
  - intros H. pose proof H as Hmod.
    rewrite (merged_state_quiet _ _ _ _ _ H) in *. by apply quiet_refl.
Qed.

Lemma quiet_round_stamp ref st :
  quiet_round root st (set_layout_timestamp ref (timestamp_ st) st).
Proof.
  split; [apply round_step_stamp|]. cbn. intros Hmod.
  split; [done|]. split; [done|]. split; [done|]. split; [|by left].
  intros n. cbn. destruct (decide (ref = n)) as [->|Hne].
  - right. apply lookup_insert_eq.
  - left. by rewrite lookup_insert_ne.
Qed.

Lemma VisitExpr_quiet_round e st r st' :
  e ∈ subexprs root →
  VisitExpr finfer e st = Ok (r, st') → quiet_round root st st'.
Proof.
  intros He. revert st r st'.
  apply (VisitExpr_R finfer root (quiet_round root) quiet_round_refl
           quiet_round_trans); [| | | |exact He].
  - intros e' s _ Hnone. by apply quiet_round_default.
  - intros e' s r' s1 He' _ Hst Hv _. by eapply quiet_round_write.
  - intros ref ty op args attrs name s inputs s1 _ _ _ _.
    apply quiet_round_merge.
  - intros e' s _. apply quiet_round_stamp.
Qed.

Lemma collect_args_quiet_round args ls ts ns st res st' :
  (∀ a, a ∈ args → a ∈ subexprs root ∧ is_call_arg root a) →
  collect_args (GetLayout finfer) args ls ts ns st = Ok (res, st') →
  quiet_round root st st'.
Proof.
  intros Hargs.
  apply (collect_args_R finfer root (quiet_round root) quiet_round_refl
           quiet_round_trans); [|exact Hargs|].
  - intros e' s r' s1 He' _ Hst Hv _. by eapply quiet_round_write.
  - apply Forall_forall. intros a Ha s r s'.
    apply VisitExpr_quiet_round. by apply Hargs.
Qed.

(** *** The same visit, once more *)

Lemma GetLayout_result_kept a st v st1 u :
  a ∈ subexprs root →
  GetLayout finfer a st = Ok (v, st1) →
  quiet_step root st1 u →
  layout_map_ u !! ref_of a = Some v.
Proof.
  intros Ha Hget Hq.
  apply GetLayout_with_Ok in Hget as [(Hfresh & Hlk & ->)|(Hst & s0 & Hv & ->)].
  - by rewrite (quiet_keeps_fresh _ _ _ Hq Hfresh).
  - pose proof (VisitExpr_core_lookup _ _ _ _ _ Hv) as Hcore.
    destruct (decide (kind_of a = KFunction)) as [Hk|Hk].
    + destruct a; try discriminate Hk. cbn [ref_of core] in *.
      eapply quiet_keeps_function; [exact Hq|exact Ha|..]; cbn.
      * apply lookup_insert_eq.
      * rewrite lookup_insert_ne; [done|]. intros Heq.
        eapply (function_ref_fresh root); [done|exact Ha| |by symmetry].
        apply core_subexprs.
    + rewrite (quiet_keeps_node _ _ _ Hq Ha Hk). cbn. apply lookup_insert_eq.
Qed.

Lemma GetLayout_again a st v st1 u :
  a ∈ subexprs root →
  (∀ s r s', VisitExpr finfer a s = Ok (r, s') → modified_ s' = false →
     ∀ u, quiet_step root s' u → VisitExpr finfer a u = Ok (r, u)) →
  GetLayout finfer a st = Ok (v, st1) →
  quiet_step root st1 u →
  GetLayout finfer a u = Ok (v, u).
Proof.
  intros Ha IH Hget Hq.
  pose proof (GetLayout_result_kept a st v st1 u Ha Hget Hq) as Hu.
  destruct (decide (timestamp_of (ref_of a) u < timestamp_ u)) as [Hold|Hnew];
    [|by apply GetLayout_with_fresh].
  apply GetLayout_with_Ok in Hget as [(Hfresh & Hlk & ->)|(Hst & s0 & Hv & ->)].
  - destruct Hfresh. right. by eapply quiet_stale.
  - rewrite <- (set_layout_id (ref_of a) v u Hu) at 2.
    apply GetLayout_with_stale; [by right|].
    pose proof Hq as (Hmod & _). cbn in Hmod.
    eapply IH; [exact Hv|exact Hmod|].
    eapply quiet_trans; [|exact Hq].
    by apply (quiet_round_write a st v s0 Ha Hst Hv).
Qed.

Lemma collect_args_again args ls ts ns st res st' u :
  (∀ a, a ∈ args → a ∈ subexprs root ∧ is_call_arg root a) →
  Forall (λ a, ∀ s r s', VisitExpr finfer a s = Ok (r, s') →
                 modified_ s' = false →
                 ∀ u, quiet_step root s' u → VisitExpr finfer a u = Ok (r, u))
    args →
  collect_args (GetLayout finfer) args ls ts ns st = Ok (res, st') →
  quiet_step root st' u →
  collect_args (GetLayout finfer) args ls ts ns u = Ok (res, u) ∧
  ∀ a, a ∈ args → layout_map_ u !! ref_of a = layout_map_ st' !! ref_of a.
Proof.
  intros Hargs HIH. revert Hargs ls ts ns st.
  induction HIH as [|a args Ha _ IHargs]; intros Hargs ls ts ns st Hc Hq.
  - cbn in *. injection Hc as <- <-. split; [done|].
    intros a Ha. by apply elem_of_nil in Ha.
  - cbn [collect_args] in *. apply bind_Ok in Hc as (v & s1 & Hget & Hrest).
    assert (∀ a', a' ∈ args → a' ∈ subexprs root ∧ is_call_arg root a')
      as Hargs' by (intros a' Ha'; by apply Hargs, list_elem_of_further).
    destruct (Hargs a (list_elem_of_here _ _)) as [Hsub _].
    pose proof Hq as (Hmod & _).
    assert (quiet_step root s1 st') as Hq1
      by by apply (collect_args_quiet_round args _ _ _ s1 res st' Hargs' Hrest).
    assert (quiet_step root s1 u) as Hq1u by by eapply quiet_trans.
    unfold bind. rewrite (GetLayout_again a st v s1 u Hsub Ha Hget Hq1u).
    destruct (IHargs Hargs' _ _ _ _ Hrest Hq) as [Hrest' Hkept].
    split; [done|]. intros a' Ha'.
    apply elem_of_cons in Ha' as [->|Ha']; [|by apply Hkept].
    by rewrite (GetLayout_result_kept a st v s1 u Hsub Hget Hq1u),
               (GetLayout_result_kept a st v s1 st' Hsub Hget Hq1).
Qed.

(** A visit that left the flag down, run again in any state the rest of the
    round leads to, returns the same layout and changes nothing at all. *)
Lemma VisitExpr_again e :
  e ∈ subexprs root →
  ∀ s r s', VisitExpr finfer e s = Ok (r, s') → modified_ s' = false →
  ∀ u, quiet_step root s' u → VisitExpr finfer e u = Ok (r, u).
Proof.
  induction e as [ref ty|ref ty op args attrs IH|ref ty params body IH|e Hk]
    using Expr_visit_ind; intros He s r s' Hv Hmod u Hq.
  - apply GetCachedLayout_Ok in Hv as [[Hlk ->]|(_ & _ & ->)]; [|done].
    apply GetCachedLayout_present.
    by rewrite (quiet_keeps_node _ _ _ Hq He).
  - assert (∀ a, a ∈ args → a ∈ subexprs root ∧ is_call_arg root a) as Hargs.
    { intros a Ha. split; [|by repeat eexists].
      eapply subexprs_trans; [|exact He].
      eapply subexprs_arg; [done|apply subexprs_self]. }
    apply VisitExpr_call_Ok in Hv as (inputs & s1 & name & Hin & Hop & Hfin).
    cbn zeta in Hfin.
    apply GetCachedLayout_Ok in Hfin as [[Hlk ->]|(_ & _ & ->)]; [|done].
    cbn in Hmod, Hlk.
    pose proof (merged_state_quiet _ _ _ _ _ Hmod) as Hsame.
    assert (∀ rule reporter,
              finfer name = Some rule →
              rule inputs.1.1 inputs.1.2 (length args) attrs
                (LayoutReporterNode_make inputs.2 inputs.1.1)
              = (true, reporter) →
              ∀ it, it ∈ results reporter →
                    layout_map_ s1 !! it.1 = Some it.2) as Hres.
    { intros rule reporter Hrule Hr. unfold merged_state in Hmod.
      rewrite Hrule, Hr in Hmod.
      by apply UpdateLayoutCache_all_quiet in Hmod as [_ Hall]. }
    rewrite Hsame in *. clear Hsame.
    assert (quiet_step root s1 u) as Hq1.
    { eapply quiet_trans; [|exact Hq]. by apply quiet_round_stamp. }
    pose proof Hin as Hin1.
    apply call_inputs_Ok in Hin1 as (rs & s0 & own & Hc & _ & Hown & Hinputs).
    apply GetCachedLayout_Ok in Hown as [[Hown ->]|(_ & _ & ->)]; [|done].
    edestruct (collect_args_again args [] [] [] s) as [Hc' Hkept];
      [exact Hargs| |exact Hc|exact Hq1|].
    { rewrite Forall_forall in IH. apply Forall_forall. intros a Ha.
      by apply IH, Hargs. }
    assert (layout_map_ u !! ref = layout_map_ s0 !! ref) as Hself
      by by apply (quiet_keeps_node s0 u (CallNode ref ty op args attrs)).
    assert (call_inputs finfer (CallNode ref ty op args attrs) args u
            = Ok (inputs, u)) as Hin'.
    { unfold call_inputs, bind. rewrite Hc'.
      rewrite (GetCachedLayout_present _ Undef u own);
        [by rewrite Hinputs|]. cbn. by rewrite Hself. }
    rewrite (VisitExpr_call_intro _ _ _ _ _ _ _ _ _ _ Hin' Hop). cbn zeta.
    assert (merged_state finfer name (length args) attrs inputs u = u) as ->.
    { unfold merged_state. destruct (finfer name) as [rule|] eqn:Hrule; [|done].
      destruct (rule _ _ _ _ _) as [[] reporter] eqn:Hr; [|done].
      apply UpdateLayoutCache_all_id. intros it Hit.
      rewrite <- (Hres rule reporter eq_refl Hr it Hit).
      pose proof (rules_for_nodes _ _ _ _ _ _ _ _ Hrule Hr it Hit) as Hnode.
      rewrite Hinputs in Hnode. cbn in Hnode.
      apply elem_of_app in Hnode as [Hnode|Hnode].
      - apply list_elem_of_fmap in Hnode as (a & -> & Ha). by apply Hkept.
      - apply list_elem_of_singleton in Hnode. by rewrite Hnode. }
    rewrite set_layout_timestamp_id.
    + apply GetCachedLayout_present. cbn. by rewrite Hself.
    + apply (quiet_keeps_stamp _ _ _ Hq). cbn. apply lookup_insert_eq.
  - rewrite VisitExpr_function in *. eapply IH; [|done..].
    eapply subexprs_trans; [|exact He]. apply subexprs_body, subexprs_self.
  - by rewrite VisitExpr_unsupported in Hv.
Qed.

End Idempotence.

(** C6.  Addresses identify nodes and rules report for the nodes of their
    reporter only.  When [Infer] has returned, the modified flag is down, and
    a second call of [Infer] on the inferencer it left returns after a single
    visit of the root with that very inferencer: the flag is still down, the
    layout map is the same, and so is every stamp. *)
Theorem second_Infer_is_noop finfer root fuel st st' :
  wf_refs root →
  proposals_for_nodes finfer →
  Infer finfer fuel root st = Some (Ok st') →
  modified_ st' = false ∧
  ∀ fuel', ∃ st'',
    Infer finfer (S fuel') root st' = Some (Ok st'') ∧
    modified_ st'' = false ∧
    layout_map_ st'' = layout_map_ st' ∧
    st'' = st'.
Proof.
  intros Hwf Hnodes Hinfer.
  apply Infer_last_round in Hinfer as (s & r & Hv & Hmod).
  split; [done|]. intros fuel'. exists st'.
  rewrite Infer_unfold.
  rewrite (VisitExpr_again finfer root Hwf Hnodes root (subexprs_self root)
             s r st' Hv Hmod st' (quiet_refl root st' Hmod)).
  by rewrite Hmod.
Qed.

Lemma call_conv2d_wf_refs : wf_refs call_conv2d.
Proof.
  intros a b Ha Hb Heq. cbn in Ha, Hb.
  rewrite !elem_of_cons, elem_of_nil in Ha, Hb.
  destruct Ha as [->|[->|[->|[]]]], Hb as [->|[->|[->|[]]]];
    first [done|discriminate Heq].
Qed.

Lemma conv2d_rules_for_nodes : proposals_for_nodes conv2d_rules.
Proof.
  intros name rule layouts types num_args attrs reporter reporter' Hrule Hr
    it Hit.
  unfold conv2d_rules in Hrule. case_decide; [|done]. injection Hrule as <-.
  unfold conv2d_rule in Hr.
  repeat match type of Hr with
         | context [match ?x with _ => _ end] =>
             destruct x; try discriminate Hr
         end.
  injection Hr as <-. cbn in Hit.
  rewrite !elem_of_cons, elem_of_nil in Hit.
  destruct Hit as [->|[->|[->|[]]]]; cbn;
    repeat first [apply list_elem_of_here|apply list_elem_of_further].
Qed.

Lemma second_Infer_is_noop_witness :
  let st' := mkLayoutInferencer {[1%N := NCHW; 2%N := OIHW; 3%N := NCHW]}
               {[3%N := 1]} false 1 in
  wf_refs call_conv2d ∧
  proposals_for_nodes conv2d_rules ∧
  Infer conv2d_rules 2 call_conv2d LayoutInferencer_new = Some (Ok st') ∧
  Infer conv2d_rules 1 call_conv2d st' = Some (Ok st').
Proof.
  intros st'.
  assert (Infer conv2d_rules 2 call_conv2d LayoutInferencer_new
          = Some (Ok st')) as Hfirst by (vm_compute; reflexivity).
  split; [exact call_conv2d_wf_refs|]. split; [exact conv2d_rules_for_nodes|].
  split; [exact Hfirst|].
  destruct (second_Infer_is_noop conv2d_rules call_conv2d 2
              LayoutInferencer_new st' call_conv2d_wf_refs
              conv2d_rules_for_nodes Hfirst) as [_ Hsecond].
  destruct (Hsecond 0%nat) as (st'' & Hin & _ & _ & ->). exact Hin.
Defined.

(** ** The scenarios of the design document, run on the embedding *)

Example scenario_single_variable :
  CollectLayoutInfo_of (λ _, None) 2 var_x ∅ false 0
  = Some (Ok {[1%N := [Undef]]}).
Proof. vm_compute. reflexivity. Qed.

Example scenario_convolution :
  CollectLayoutInfo_of conv2d_rules 2 call_conv2d ∅ false 0
  = Some (Ok {[1%N := [LayoutTag "NCHW"]; 2%N := [LayoutTag "OIHW"];
               3%N := [LayoutTag "NCHW"]]}).
Proof. vm_compute. reflexivity. Qed.

Example scenario_seeded_variable :
  CollectLayoutInfo_of (λ _, None) 1 var_x {[1%N := NHWC]} false 0
  = Some (Ok {[1%N := [LayoutTag "NHWC"]]}).
Proof. vm_compute. reflexivity. Qed.

(** One round does not suffice for a variable that has no entry: the default
    insertion raises the flag, and a second visit follows. *)
Example scenario_single_variable_one_round :
  Infer (λ _, None) 1 var_x LayoutInferencer_new = None.
Proof. vm_compute. reflexivity. Qed.

(** * Further properties of the engine *)

(** ** Rounds and the generation *)

Lemma round_start_timestamp finfer e k st sk :
  round_start finfer e k st = Ok sk →
  timestamp_ sk = timestamp_ st + Z.of_nat k.
Proof.
  revert st. induction k as [|k IH]; intros st; cbn [round_start].
  - intros [= <-]. lia.
  - destruct (VisitExpr finfer e st) as [[r st1]|msg] eqn:Hv; [|done].
    apply VisitExpr_round_step in Hv as (Ht & _).
    intros Hk. apply IH in Hk. cbn in Hk. lia.
Qed.

Lemma Infer_rounds finfer fuel e st st' :
  Infer finfer fuel e st = Some (Ok st') ↔
  ∃ k sk r,
    (k < fuel)%nat ∧ round_start finfer e k st = Ok sk ∧
    VisitExpr finfer e sk = Ok (r, st') ∧ modified_ st' = false ∧
    ∀ i si ri si', (i < k)%nat → round_start finfer e i st = Ok si →
      VisitExpr finfer e si = Ok (ri, si') → modified_ si' = true.
Proof.
  split.
  - revert st. induction fuel as [|fuel IH]; intros st; [done|].
    rewrite Infer_unfold.
    destruct (VisitExpr finfer e st) as [[r st1]|msg] eqn:Hv; [|done].
    destruct (modified_ st1) eqn:Hmod.
    + intros Hin. apply IH in Hin as (k & sk & rk & Hk & Hsk & Hvk & Hm & Hup).
      exists (S k), sk, rk. split; [lia|]. cbn [round_start]. rewrite Hv.
      split; [done|]. split; [done|]. split; [done|].
      intros [|i] si ri si' Hi; cbn [round_start].
      * intros [= <-]. rewrite Hv. by intros [= _ <-].
      * rewrite Hv. apply Hup. lia.
    + intros [= <-]. exists 0%nat, st, r. split; [lia|].
      split; [done|]. split; [done|]. split; [done|]. intros; lia.
  - intros (k & sk & rk & Hk & Hsk & Hvk & Hm & Hup).
    revert fuel st Hk Hsk Hup. induction k as [|k IH]; intros fuel st Hk.
    + destruct fuel as [|fuel]; [lia|]. cbn [round_start]. intros [= <-] _.
      by rewrite Infer_unfold, Hvk, Hm.
    + destruct fuel as [|fuel]; [lia|]. cbn [round_start].
      destruct (VisitExpr finfer e st) as [[r st1]|msg] eqn:Hv; [|done].
      intros Hsk Hup. rewrite Infer_unfold, Hv.
      rewrite (Hup 0%nat st r st1); [|lia|done|done].
      apply IH; [lia|done|].
      intros i si ri si' Hi Hsi. apply (Hup (S i)); [lia|].
      cbn [round_start]. by rewrite Hv.
Qed.

(** X1.  Take a run of [Infer] during which the generation stays within
    the values of an [int].  [Infer] returns a state exactly when some round
    ends with the modified flag down: the rounds before it, as many as the
    count [k] says, have each left the flag up and been followed by clearing
    the flag and incrementing the generation; the state returned is the one
    the visit of round [k] leaves, and its generation has advanced by [k],
    one for each round that left the flag up. *)
Theorem Infer_counts_rounds finfer fuel e st st' :
  int_range (timestamp_ st) →
  int_range (timestamp_ st + Z.of_nat fuel) →
  (Infer finfer fuel e st = Some (Ok st') ↔
   ∃ k sk r,
     (k < fuel)%nat ∧ round_start finfer e k st = Ok sk ∧
     VisitExpr finfer e sk = Ok (r, st') ∧ modified_ st' = false ∧
     (∀ i si ri si', (i < k)%nat → round_start finfer e i st = Ok si →
        VisitExpr finfer e si = Ok (ri, si') → modified_ si' = true) ∧
     timestamp_ st' = timestamp_ st + Z.of_nat k) ∧
  (∀ i si, (i ≤ fuel)%nat → round_start finfer e i st = Ok si →
     timestamp_ si = timestamp_ st + Z.of_nat i ∧ int_range (timestamp_ si)).
Proof.
  intros [Hlo _] [_ Hhi]. split; [split|].
  - intros Hin. apply Infer_rounds in Hin
      as (k & sk & r & Hk & Hsk & Hv & Hmod & Hup).
    exists k, sk, r. repeat (split; [done|]).
    apply round_start_timestamp in Hsk.
    apply VisitExpr_round_step in Hv as (Ht & _). lia.
  - intros (k & sk & r & Hk & Hsk & Hv & Hmod & Hup & _).
    apply Infer_rounds. by exists k, sk, r.
  - intros i si Hi Hsi. apply round_start_timestamp in Hsi.
    unfold int_range. lia.
Qed.

Lemma Infer_counts_rounds_witness :
  ∃ st', Infer conv2d_rules 2 call_conv2d LayoutInferencer_new
           = Some (Ok st') ∧
         modified_ st' = false ∧ timestamp_ st' = 1.
Proof.
  eexists. split; [vm_compute; reflexivity|].
  match goal with
  | |- modified_ ?s = _ ∧ _ =>
      destruct (Infer_counts_rounds conv2d_rules 2 call_conv2d
                  LayoutInferencer_new s) as [[Hrounds _] _]
  end; [by vm_compute..|].
  destruct Hrounds as (k & sk & r & Hk & Hsk & Hv & Hmod & Hup & Hts);
    [vm_compute; reflexivity|].
  split; [exact Hmod|].
  assert (k = 1%nat) as ->.
  { destruct k as [|[|k]]; [|done|lia].
    injection Hsk as <-. vm_compute in Hv. discriminate Hv. }
  exact Hts.
Defined.

(** ** The keys of the export *)

Lemma VisitExpr_dom_upper finfer e st r st' :
  proposals_for_nodes finfer →
  VisitExpr finfer e st = Ok (r, st') →
  dom (layout_map_ st') ⊆ dom (layout_map_ st) ∪ refs_of e.
Proof.
  intros Hnodes Hv n Hn. destruct (decide (n ∈ refs_of e)) as [Hin|Hout].
  - by apply elem_of_union_r.
  - apply elem_of_union_l.
    destruct (VisitExpr_frame finfer e st r st' n Hnodes Hout Hv) as [Hm _].
    apply elem_of_dom. rewrite <- Hm. by apply elem_of_dom.
Qed.

Lemma Infer_dom finfer fuel e st st' :
  Infer finfer fuel e st = Some (Ok st') →
  dom (layout_map_ st) ⊆ dom (layout_map_ st') ∧
  (proposals_for_nodes finfer →
   dom (layout_map_ st') ⊆ dom (layout_map_ st) ∪ refs_of e).
Proof.
  revert st. induction fuel as [|fuel IH]; intros st; [done|].
  rewrite Infer_unfold.
  destruct (VisitExpr finfer e st) as [[r st1]|msg] eqn:Hv; [|done].
  assert (dom (layout_map_ st) ⊆ dom (layout_map_ st1)) as Hlow.
  { apply VisitExpr_round_step in Hv as (_ & _ & Hdom & _).
    intros n Hn. apply elem_of_dom, Hdom. by apply elem_of_dom. }
  destruct (modified_ st1).
  - intros Hin. apply IH in Hin as [Hlow' Hup']. cbn in Hlow', Hup'.
    split; [by etrans|]. intros Hnodes. etrans; [by apply Hup'|].
    apply union_subseteq. split; [|apply union_subseteq_r].
    by eapply VisitExpr_dom_upper.
  - intros [= <-]. split; [done|]. intros Hnodes.
    by eapply VisitExpr_dom_upper.
Qed.

(** X2.  The mapping that [CollectLayoutInfo(expr, in_layouts)] returns
    binds every node that was pre-seeded; and, when rules report for the
    nodes of their reporter only, it binds nothing but pre-seeded nodes and
    nodes reachable from [expr]. *)
Theorem CollectLayoutInfo_of_keys finfer fuel expr in_layouts modified0
    timestamp0 out :
  CollectLayoutInfo_of finfer fuel expr in_layouts modified0 timestamp0
    = Some (Ok out) →
  dom in_layouts ⊆ dom out ∧
  (proposals_for_nodes finfer → dom out ⊆ dom in_layouts ∪ refs_of expr).
Proof.
  unfold CollectLayoutInfo_of.
  destruct (Infer finfer fuel expr _) as [[st'|msg]|] eqn:Hin; try done.
  intros Heq. assert (out = (CollectLayoutInfo st').1) as -> by congruence.
  clear Heq. apply Infer_dom in Hin as [Hlow Hup].
  assert (dom (CollectLayoutInfo st').1 = dom (layout_map_ st')) as ->.
  { apply set_eq. intros k. rewrite !elem_of_dom.
    assert ((CollectLayoutInfo st').1 !! k
            = layout_array <$> layout_map_ st' !! k) as ->.
    { apply option_eq. intros b. cbn.
      rewrite foldl_Set_lookup by apply NoDup_fst_map_to_list.
      rewrite fmap_Some. split.
      - intros [(a & Ha & ->)|[_ H]]; [|by rewrite lookup_empty in H].
        exists a. split; [by apply elem_of_map_to_list|done].
      - intros (a & Hlk & ->). left. exists a.
        split; [by apply elem_of_map_to_list|done]. }
    by rewrite fmap_is_Some. }
  done.
Qed.

Lemma CollectLayoutInfo_of_keys_witness :
  ∃ out, CollectLayoutInfo_of conv2d_rules 2 call_conv2d {[9%N := NHWC]}
           false 0 = Some (Ok out) ∧
         9%N ∈ dom out.
Proof.
  eexists. split; [vm_compute; reflexivity|].
  match goal with
  | |- _ ∈ dom ?o =>
      destruct (CollectLayoutInfo_of_keys conv2d_rules 2 call_conv2d
                  {[9%N := NHWC]} false 0 o) as [Hlow _]
  end; [vm_compute; reflexivity|].
  apply Hlow. apply elem_of_dom. by exists NHWC.
Defined.

(** ** The fatal errors of a visit *)

Lemma GetLayout_with_Fatal visit ref st msg :
  GetLayout_with visit ref st = Fatal msg → visit st = Fatal msg.
Proof.
  unfold GetLayout_with.
  destruct (bool_decide (layout_map_ st !! ref = None)) eqn:Hnone;
    destruct (bool_decide (timestamp_of ref st < timestamp_ st)) eqn:Hold;
    cbn [orb].
  4:{ apply bool_decide_eq_false in Hnone. unfold layout_at.
      by destruct (layout_map_ st !! ref). }
  all: unfold bind; destruct (visit st) as [[layout st1]|msg']; [|congruence];
    unfold layout_at; cbn; by rewrite lookup_insert_eq.
Qed.

Lemma collect_args_Fatal finfer args ls ts ns st msg :
  collect_args (GetLayout finfer) args ls ts ns st = Fatal msg →
  ∃ a st1, a ∈ args ∧ VisitExpr finfer a st1 = Fatal msg.
Proof.
  revert ls ts ns st. induction args as [|a args IH]; intros ls ts ns st;
    cbn [collect_args]; [done|].
  unfold bind. destruct (GetLayout finfer a st) as [[r st1]|msg'] eqn:Hget.
  - intros Hrest. apply IH in Hrest as (a' & st' & Ha' & Hv).
    exists a', st'. split; [by apply list_elem_of_further|done].
  - intros [= ->]. apply GetLayout_with_Fatal in Hget.
    exists a, st. split; [apply list_elem_of_here|done].
Qed.

Lemma VisitExpr_Fatal_cause finfer e st msg :
  VisitExpr finfer e st = Fatal msg → failure_cause e msg.
Proof.
  revert st.
  induction e as [ref ty|ref ty op args attrs IH|ref ty params body IH|e Hk]
    using Expr_visit_ind; intros st Hv.
  - destruct (GetCachedLayout_total (VarNode ref ty) st) as (r & st' & Hok).
    cbn in Hv. congruence.
  - destruct (call_inputs finfer (CallNode ref ty op args attrs) args st)
      as [[inputs st1]|msg'] eqn:Hin.
    + destruct (Downcast_Op op) as [name|msg'] eqn:Hop.
      * rewrite (VisitExpr_call_intro _ _ _ _ _ _ _ _ _ _ Hin Hop) in Hv.
        cbn zeta in Hv.
        match type of Hv with
        | GetCachedLayout ?c Undef ?s = _ =>
            destruct (GetCachedLayout_total c s) as (r & st3 & Hfin)
        end.
        congruence.
      * rewrite VisitExpr_call in Hv. unfold bind in Hv. rewrite Hin in Hv.
        destruct inputs as [[ls ts] ns]. unfold infer_call in Hv.
        rewrite Hop in Hv. injection Hv as <-.
        exists (CallNode ref ty op args attrs).
        split; [apply subexprs_self|]. right. exists ref, ty, op, args, attrs.
        split; [done|]. destruct op; try discriminate Hop;
          cbn in Hop; injection Hop as <-; done.
    + rewrite VisitExpr_call in Hv. unfold bind in Hv. rewrite Hin in Hv.
      injection Hv as <-. unfold call_inputs, bind in Hin.
      destruct (collect_args (GetLayout finfer) args [] [] [] st)
        as [[[[ls ts] ns] st1]|msg2] eqn:Hc.
      * destruct (GetCachedLayout_total (CallNode ref ty op args attrs) st1)
          as (own & st2 & Hown).
        rewrite Hown in Hin. discriminate Hin.
      * injection Hin as <-.
        apply collect_args_Fatal in Hc as (a & st1 & Ha & Hva).
        rewrite Forall_forall in IH.
        destruct (IH a Ha st1 Hva) as (e' & He' & Hcause).
        exists e'. split; [by eapply subexprs_arg|done].
  - rewrite VisitExpr_function in Hv.
    destruct (IH st Hv) as (e' & He' & Hcause).
    exists e'. split; [by apply subexprs_body|done].
  - rewrite VisitExpr_unsupported in Hv by done. injection Hv as <-.
    exists e. split; [apply subexprs_self|by left].
Qed.

(** X3.  A visit ends in a fatal error only because a node reachable from the
    expression is of a kind the visitor does not handle, the message being
    the name of that node type, or because the operator of a reachable call
    is not an [OpNode]; the lookups in the layout map never fail.  The same
    holds of a run of [Infer]; and an expression made of variables, functions
    and calls of operators is visited without error from every state. *)
Theorem visit_failure_cause finfer e :
  (∀ st msg, VisitExpr finfer e st = Fatal msg →
     failure_cause e msg ∧ msg ≠ "Map::at: key not found") ∧
  (∀ fuel st msg, Infer finfer fuel e st = Some (Fatal msg) →
     failure_cause e msg) ∧
  (supported_expr e → ∀ st, ∃ r st', VisitExpr finfer e st = Ok (r, st')).
Proof.
  split; [|split].
  - intros st msg Hv. apply VisitExpr_Fatal_cause in Hv as Hc.
    split; [done|]. destruct Hc as (e' & _ & [[Hk ->]|Hd]).
    + destruct (kind_of e'); done.
    + by destruct Hd as (? & ? & ? & ? & ? & _ & _ & ->).
  - intros fuel. induction fuel as [|fuel IH]; intros st msg; [done|].
    rewrite Infer_unfold.
    destruct (VisitExpr finfer e st) as [[r st1]|msg'] eqn:Hv.
    + destruct (modified_ st1); [apply IH|done].
    + intros [= <-]. by eapply VisitExpr_Fatal_cause.
  - apply VisitExpr_total.
Qed.

Lemma visit_failure_cause_witness :
  let e := CallNode 20 tensor4 op_copy
             [var_x; ConstantNode 21 tensor4] NoAttrs in
  VisitExpr conv2d_rules e LayoutInferencer_new = Fatal "ConstantNode" ∧
  failure_cause e "ConstantNode".
Proof.
  intros e.
  assert (VisitExpr conv2d_rules e LayoutInferencer_new
          = Fatal "ConstantNode") as Hv by (vm_compute; reflexivity).
  split; [exact Hv|].
  destruct (visit_failure_cause conv2d_rules e) as (Hcause & _ & _).
  exact (proj1 (Hcause LayoutInferencer_new "ConstantNode" Hv)).
Defined.

(** ** What [Infer] does not touch *)

(** X4.  When rules report for the nodes of their reporter only, a run of
    [Infer] leaves the entry and the stamp of every node that is not
    reachable from the expression as they were. *)
Theorem Infer_frame finfer fuel e st st' n :
  proposals_for_nodes finfer →
  n ∉ refs_of e →
  Infer finfer fuel e st = Some (Ok st') →
  layout_map_ st' !! n = layout_map_ st !! n ∧
  layout_timestamp_ st' !! n = layout_timestamp_ st !! n.
Proof.
  intros Hnodes Hn. revert st.
  induction fuel as [|fuel IH]; intros st; [done|].
  rewrite Infer_unfold.
  destruct (VisitExpr finfer e st) as [[r st1]|msg] eqn:Hv; [|done].
  destruct (VisitExpr_frame finfer e st r st1 n Hnodes Hn Hv) as [Hm Hs].
  destruct (modified_ st1).
  - intros Hin. apply IH in Hin as [Hm' Hs']. cbn in Hm', Hs'.
    split; congruence.
  - by intros [= <-].
Qed.

Lemma Infer_frame_witness :
  let st := LayoutInferencer_seeded {[9%N := NHWC]} false 0 in
  ∃ st', Infer conv2d_rules 2 call_conv2d st = Some (Ok st') ∧
         layout_map_ st' !! 9%N = Some NHWC.
Proof.
  intros st. eexists. split; [vm_compute; reflexivity|].
  match goal with
  | |- layout_map_ ?s !! _ = _ =>
      destruct (Infer_frame conv2d_rules 2 call_conv2d st s 9%N
                  conv2d_rules_for_nodes) as [Hm _]
  end; [vm_compute; set_solver|vm_compute; reflexivity|].
  rewrite Hm. reflexivity.
Defined.

(** ** The stamp map with its keys *)

Lemma same_reads_trans st1 st2 st3 :
  same_reads st1 st2 → same_reads st2 st3 → same_reads st1 st3.
Proof.
  intros (Hm1 & Hf1 & Ht1 & Hs1) (Hm2 & Hf2 & Ht2 & Hs2).
  repeat split; [congruence..|]. intros n. by rewrite Hs1.
Qed.

Lemma stamp_at_read ref st :
  (StampKeys.stamp_at ref st).1 = timestamp_of ref st.
Proof.
  unfold StampKeys.stamp_at, timestamp_of.
  by destruct (layout_timestamp_ st !! ref).
Qed.

(** The key [operator[]] inserts reads as the missing key did. *)
Lemma stamp_at_same_reads ref st :
  same_reads st (StampKeys.stamp_at ref st).2.
Proof.
  unfold StampKeys.stamp_at.
  destruct (layout_timestamp_ st !! ref) as [t|] eqn:Hlk; [done|].
  repeat split. intros n. unfold timestamp_of. cbn.
  destruct (decide (ref = n)) as [<-|Hne].
  - by rewrite lookup_insert_eq, Hlk.
  - by rewrite lookup_insert_ne.
Qed.

Lemma same_reads_set_layout ref layout st st' :
  same_reads st st' →
  same_reads (set_layout ref layout st) (set_layout ref layout st').
Proof.
  intros (Hm & Hf & Ht & Hs). split; [cbn; by rewrite Hm|].
  split; [done|]. split; [done|exact Hs].
Qed.

Lemma same_reads_set_modified b st st' :
  same_reads st st' → same_reads (set_modified b st) (set_modified b st').
Proof.
  intros (Hm & Hf & Ht & Hs). split; [done|].
  split; [done|]. split; [done|exact Hs].
Qed.

Lemma same_reads_set_layout_timestamp ref t st st' :
  same_reads st st' →
  same_reads (set_layout_timestamp ref t st) (set_layout_timestamp ref t st').
Proof.
  intros (Hm & Hf & Ht & Hs). split; [done|]. split; [done|]. split; [done|].
  intros n. specialize (Hs n). unfold timestamp_of in *. cbn.
  destruct (decide (ref = n)) as [<-|Hne].
  - by rewrite !lookup_insert_eq.
  - by rewrite !lookup_insert_ne.
Qed.

Lemma same_reads_UpdateLayoutCache ref layout st st' :
  same_reads st st' →
  same_reads (UpdateLayoutCache ref layout st)
    (UpdateLayoutCache ref layout st').
Proof.
  intros Hsame. unfold UpdateLayoutCache.
  destruct Hsame as (Hm & Hrest). rewrite <- Hm.
  assert (same_reads st st') as Hsame by done.
  destruct (layout_map_ st !! ref) as [old|].
  - destruct (decide (old = layout)); [done|].
    by apply same_reads_set_modified, same_reads_set_layout.
  - by apply same_reads_set_modified, same_reads_set_layout.
Qed.

Lemma same_reads_UpdateLayoutCache_all results st st' :
  same_reads st st' →
  same_reads (UpdateLayoutCache_all results st)
    (UpdateLayoutCache_all results st').
Proof.
  revert st st'. induction results as [|it results IH]; intros st st' Hsame;
    [done|].
  rewrite !UpdateLayoutCache_all_cons.
  by apply IH, same_reads_UpdateLayoutCache.
Qed.

Lemma same_result_GetCachedLayout e default_layout st st' :
  same_reads st st' →
  same_result (GetCachedLayout e default_layout st)
    (GetCachedLayout e default_layout st').
Proof.
  intros Hsame. unfold GetCachedLayout.
  destruct Hsame as (Hm & Hrest). rewrite <- Hm.
  assert (same_reads st st') as Hsame by done.
  destruct (layout_map_ st !! ref_of e) as [layout|]; [done|].
  split; [done|]. by apply same_reads_set_layout, same_reads_set_modified.
Qed.

Lemma same_result_layout_at ref st st' :
  same_reads st st' → same_result (layout_at ref st) (layout_at ref st').
Proof.
  intros Hsame. unfold layout_at.
  destruct Hsame as (Hm & Hrest). rewrite <- Hm.
  by destruct (layout_map_ st !! ref).
Qed.

Lemma same_result_bind {A B} (c c' : M A) (k k' : A → M B) st st' :
  same_result (c st) (c' st') →
  (∀ a s s', same_reads s s' → same_result (k a s) (k' a s')) →
  same_result (bind c k st) (bind c' k' st').
Proof.
  intros Hc Hk. unfold bind.
  destruct (c st) as [[a s]|msg], (c' st') as [[a' s']|msg']; try done.
  destruct Hc as [<- Hs]. by apply Hk.
Qed.

Lemma same_result_infer_call finfer node op num_args attrs layouts types
    nodes st st' :
  same_reads st st' →
  same_result
    (infer_call finfer node op num_args attrs layouts types nodes st)
    (infer_call finfer node op num_args attrs layouts types nodes st').
Proof.
  intros Hsame. unfold infer_call.
  destruct (Downcast_Op op) as [name|msg]; [|done].
  apply same_result_GetCachedLayout.
  assert (same_reads
            match finfer name with
            | Some rule =>
                let '(infer_success, reporter') :=
                  rule layouts types num_args attrs
                    (LayoutReporterNode_make nodes layouts) in
                if infer_success
                then UpdateLayoutCache_all (results reporter') st
                else st
            | None => st
            end
            match finfer name with
            | Some rule =>
                let '(infer_success, reporter') :=
                  rule layouts types num_args attrs
                    (LayoutReporterNode_make nodes layouts) in
                if infer_success
                then UpdateLayoutCache_all (results reporter') st'
                else st'
            | None => st'
            end) as Hmerged.
  { destruct (finfer name) as [rule|]; [|done].
    destruct (rule _ _ _ _ _) as [[] reporter]; [|done].
    by apply same_reads_UpdateLayoutCache_all. }
  destruct Hmerged as (Hm & Hf & Ht & Hs) eqn:Heq. rewrite Ht.
  apply same_reads_set_layout_timestamp. repeat split; done.
Qed.

Lemma same_result_GetLayout_with visit visit' ref st st' :
  (∀ s s', same_reads s s' → same_result (visit s) (visit' s')) →
  same_reads st st' →
  same_result (GetLayout_with visit ref st)
    (StampKeys.GetLayout_with visit' ref st').
Proof.
  intros Hvisit Hsame.
  assert (∀ s s', same_reads s s' →
            same_result
              ((let* layout := visit in
                let* _ := (λ s0, Ok (tt, set_layout ref layout s0)) in
                layout_at ref) s)
              ((let* layout := visit' in
                let* _ := (λ s0, Ok (tt, set_layout ref layout s0)) in
                layout_at ref) s')) as Hset.
  { intros s s' Hs. apply same_result_bind; [by apply Hvisit|].
    intros layout s1 s1' Hs1. apply same_result_bind.
    - split; [done|]. by apply same_reads_set_layout.
    - intros _ s2 s2' Hs2. by apply same_result_layout_at. }
  unfold GetLayout_with, StampKeys.GetLayout_with.
  pose proof Hsame as (Hm & _ & Ht & Hs). rewrite <- Hm.
  destruct (layout_map_ st !! ref) as [layout|] eqn:Hlk.
  - rewrite bool_decide_eq_false_2 by done. cbn [orb].
    pose proof (stamp_at_read ref st') as Hread.
    pose proof (stamp_at_same_reads ref st') as Hkey.
    destruct (StampKeys.stamp_at ref st') as [t st1]. cbn in Hread, Hkey.
    assert (same_reads st st1) as Hsame1
      by (eapply same_reads_trans; done).
    subst t. rewrite <- Hs.
    destruct Hkey as (_ & _ & <- & _). rewrite <- Ht.
    destruct (bool_decide (timestamp_of ref st < timestamp_ st)).
    + by apply Hset.
    + by apply same_result_layout_at.
  - rewrite bool_decide_eq_true_2 by done. cbn [orb]. by apply Hset.
Qed.

Lemma same_result_collect_args get get' args ls ts ns st st' :
  Forall (λ a, ∀ s s', same_reads s s' → same_result (get a s) (get' a s'))
    args →
  same_reads st st' →
  same_result (collect_args get args ls ts ns st)
    (collect_args get' args ls ts ns st').
Proof.
  intros Hall. revert ls ts ns st st'.
  induction Hall as [|a args Ha _ IH]; intros ls ts ns st st' Hsame;
    cbn [collect_args].
  - done.
  - apply same_result_bind; [by apply Ha|].
    intros r s s' Hs. by apply IH.
Qed.

(** X17.  The visitor that keeps the keys [operator[]] inserts into the
    stamp map and the visitor that reads stamps without inserting go through
    states that no read tells apart: started from two such states, they
    return the same layout and end in two such states, or fail with the same
    error. *)
Theorem StampKeys_VisitExpr_same_reads finfer e st st' :
  same_reads st st' →
  same_result (VisitExpr finfer e st) (StampKeys.VisitExpr finfer e st').
Proof.
  revert st st'.
  induction e as [ref ty|ref ty op args attrs IH|ref ty params body IH|e Hk]
    using Expr_visit_ind; intros st st' Hsame.
  - by apply same_result_GetCachedLayout.
  - cbn [VisitExpr StampKeys.VisitExpr].
    apply same_result_bind.
    + apply same_result_collect_args; [|done].
      rewrite Forall_forall in IH. apply Forall_forall. intros a Ha s s' Hs.
      apply same_result_GetLayout_with; [|done]. by apply IH.
    + intros [[ls ts] ns] s s' Hs. apply same_result_bind.
      * by apply same_result_GetCachedLayout.
      * intros own s1 s1' Hs1. by apply same_result_infer_call.
  - by apply IH.
  - destruct e; try discriminate Hk; done.
Qed.

Lemma StampKeys_VisitExpr_same_reads_witness :
  let st := mkLayoutInferencer {[1%N := NCHW; 2%N := OIHW; 3%N := NCHW]}
              {[3%N := 0]} false 1 in
  VisitExpr conv2d_rules call_conv2d st
    = Ok (NCHW, mkLayoutInferencer (layout_map_ st) {[3%N := 1]} false 1) ∧
  StampKeys.VisitExpr conv2d_rules call_conv2d st
    = Ok (NCHW, mkLayoutInferencer (layout_map_ st)
                  {[1%N := 0; 2%N := 0; 3%N := 1]} false 1) ∧
  same_result (VisitExpr conv2d_rules call_conv2d st)
    (StampKeys.VisitExpr conv2d_rules call_conv2d st).
Proof.
  intros st. split; [vm_compute; reflexivity|].
  split; [vm_compute; reflexivity|].
  apply (StampKeys_VisitExpr_same_reads conv2d_rules call_conv2d st st).
  repeat split.
Defined.

(** ** Lookups of nodes that are never stamped *)

(** X5.  [GetLayout] of a variable that has an entry returns the entry,
    whether the variable is due for recomputation or not.  The layout map,
    the flag and the generation stay as they were, and the stamp map gains
    at most the key of the variable, with the stamp [0] that [operator[]]
    gives a missing key, so that every stamp still reads as before. *)
Theorem GetLayout_var_present finfer x ty st layout :
  layout_map_ st !! x = Some layout →
  let st' := match layout_timestamp_ st !! x with
             | Some _ => st
             | None => set_layout_timestamp x 0 st
             end in
  StampKeys.GetLayout finfer (VarNode x ty) st = Ok (layout, st') ∧
  same_reads st st'.
Proof.
  intros Hlk st'.
  assert (st' = (StampKeys.stamp_at x st).2) as ->.
  { subst st'. unfold StampKeys.stamp_at.
    by destruct (layout_timestamp_ st !! x). }
  split; [|apply stamp_at_same_reads].
  unfold StampKeys.GetLayout, StampKeys.GetLayout_with. cbn [ref_of].
  rewrite Hlk.
  pose proof (stamp_at_same_reads x st) as (Hm & _).
  destruct (StampKeys.stamp_at x st) as [t st1]. cbn [snd] in *.
  assert (layout_map_ st1 !! x = Some layout) as Hlk1 by (by rewrite <- Hm).
  destruct (bool_decide (t < timestamp_ st1)).
  - unfold bind. cbn [StampKeys.VisitExpr].
    rewrite (GetCachedLayout_present (VarNode x ty) _ _ _ Hlk1).
    rewrite (set_layout_id _ _ _ Hlk1). unfold layout_at. by rewrite Hlk1.
  - unfold layout_at. by rewrite Hlk1.
Qed.

Lemma GetLayout_var_present_witness :
  let st := mkLayoutInferencer {[1%N := NCHW]} ∅ false 5 in
  layout_map_ st !! 1%N = Some NCHW ∧
  StampKeys.GetLayout conv2d_rules var_x st
    = Ok (NCHW, mkLayoutInferencer {[1%N := NCHW]} {[1%N := 0]} false 5).
Proof.
  intros st. split; [done|].
  destruct (GetLayout_var_present conv2d_rules 1 tensor4 st NCHW) as [Hget _];
    [done|].
  etrans; [exact Hget|]. vm_compute. reflexivity.
Defined.

(** X6.  [GetLayout] of a node of an unsupported kind: when the node has an
    entry and the generation is not above its stamp, the entry is returned and
    nothing is visited, so no error is raised; in every other case the
    lookup is the fatal error of the kind. *)
Theorem GetLayout_unsupported finfer e st :
  supported_kind (kind_of e) = false →
  (∀ layout, layout_map_ st !! ref_of e = Some layout →
     ¬ timestamp_of (ref_of e) st < timestamp_ st →
     GetLayout finfer e st = Ok (layout, st)) ∧
  (stale (ref_of e) st →
   GetLayout finfer e st = Fatal (node_type_name (kind_of e))).
Proof.
  intros Hk. split.
  - intros layout Hlk Hnew. by apply GetLayout_with_fresh.
  - intros Hstale. unfold GetLayout, GetLayout_with.
    replace (bool_decide (layout_map_ st !! ref_of e = None)
             || bool_decide (timestamp_of (ref_of e) st < timestamp_ st))
      with true.
    + unfold bind. by rewrite VisitExpr_unsupported.
    + symmetry. apply orb_true_iff. rewrite !bool_decide_eq_true.
      exact Hstale.
Qed.

Lemma GetLayout_unsupported_witness :
  let c := ConstantNode 21 tensor4 in
  let seeded := mkLayoutInferencer {[21%N := NCHW]} ∅ false 0 in
  let later := mkLayoutInferencer {[21%N := NCHW]} ∅ false 1 in
  supported_kind (kind_of c) = false ∧
  GetLayout conv2d_rules c seeded = Ok (NCHW, seeded) ∧
  GetLayout conv2d_rules c later = Fatal "ConstantNode".
Proof.
  intros c seeded later. split; [done|].
  destruct (GetLayout_unsupported conv2d_rules c seeded eq_refl) as [Hok _].
  destruct (GetLayout_unsupported conv2d_rules c later eq_refl) as [_ Hbad].
  split; [apply Hok; [done|vm_compute; discriminate]|].
  apply Hbad. right. vm_compute. reflexivity.
Defined.

(** ** The modified flag as a change detector *)

(** X7.  In an expression where no call has a function as an argument, a
    visit that ends with the modified flag down has changed no entry of the
    layout map and added none. *)
Theorem quiet_visit_keeps_map finfer root st r st' :
  no_function_args root →
  VisitExpr finfer root st = Ok (r, st') →
  modified_ st' = false →
  layout_map_ st' = layout_map_ st.
Proof.
  intros Hnofn Hv Hmod.
  assert (round_step st st' ∧
          (modified_ st' = false → layout_map_ st' = layout_map_ st))
    as [_ Hsame]; [|by apply Hsame].
  revert st r st' Hv Hmod.
  assert (∀ st r st', VisitExpr finfer root st = Ok (r, st') →
            round_step st st' ∧
            (modified_ st' = false → layout_map_ st' = layout_map_ st))
    as Hall; [|by intros st r st' Hv _; eapply Hall].
  apply (VisitExpr_R finfer root
           (λ s s', round_step s s' ∧
                    (modified_ s' = false → layout_map_ s' = layout_map_ s)));
    [| | | | | |apply subexprs_self].
  - intros s. split; [apply round_step_refl|done].
  - intros s1 s2 s3 [Hr1 Hs1] [Hr2 Hs2].
    split; [by eapply round_step_trans|]. intros H3.
    assert (modified_ s2 = false) as H2.
    { destruct Hr2 as (_ & Hmono & _). destruct (modified_ s2); [|done].
      rewrite Hmono in H3; done. }
    rewrite Hs2, Hs1; done.
  - intros e s _ _. split; [|done].
    eapply round_step_trans; [apply round_step_set_modified|].
    apply round_step_set_layout.
  - intros e s r' s1 _ Harg _ Hv _.
    rewrite set_layout_id; [split; [apply round_step_refl|done]|].
    apply VisitExpr_core_lookup in Hv.
    by rewrite core_not_function in Hv by by apply Hnofn.
  - intros ref ty op args attrs name s inputs s1 _ _ _ _. split.
    + apply merged_state_ind;
        [apply round_step_refl|apply round_step_trans
        |apply round_step_UpdateLayoutCache].
    + intros H. by rewrite (merged_state_quiet _ _ _ _ _ _ H).
  - intros e s _. split; [apply round_step_stamp|done].
Qed.

Lemma quiet_visit_keeps_map_witness :
  let st := mkLayoutInferencer {[1%N := NCHW; 2%N := OIHW; 3%N := NCHW]}
              {[3%N := 0]} false 1 in
  no_function_args call_conv2d ∧
  VisitExpr conv2d_rules call_conv2d st
    = Ok (NCHW, set_layout_timestamp 3 1 st) ∧
  layout_map_ (set_layout_timestamp 3 1 st) = layout_map_ st.
Proof.
  intros st.
  assert (VisitExpr conv2d_rules call_conv2d st
          = Ok (NCHW, set_layout_timestamp 3 1 st)) as Hv
    by (vm_compute; reflexivity).
  split; [exact call_conv2d_no_function_args|]. split; [exact Hv|].
  apply (quiet_visit_keeps_map conv2d_rules call_conv2d st NCHW _
           call_conv2d_no_function_args Hv).
  reflexivity.
Defined.

(** X8.  The flag does not see what [GetLayout] stores: for a function that
    is due for recomputation and whose body is a variable with an entry,
    [GetLayout] returns the entry of the variable and stores it as the entry
    of the function in place of whatever was there.  The modified flag and
    the generation stay as they were; the stamp map gains at most the key of
    the function, with the stamp [0], when the function had an entry and no
    stamp. *)
Theorem GetLayout_function_overwrites finfer ref ty params y ty_y st layout :
  stale ref st →
  layout_map_ st !! y = Some layout →
  let st0 := match layout_map_ st !! ref, layout_timestamp_ st !! ref with
             | Some _, None => set_layout_timestamp ref 0 st
             | _, _ => st
             end in
  StampKeys.GetLayout finfer (FunctionNode ref ty params (VarNode y ty_y)) st
  = Ok (layout, set_layout ref layout st0).
Proof.
  intros Hstale Hy st0.
  assert (st0 = match layout_map_ st !! ref with
                | Some _ => (StampKeys.stamp_at ref st).2
                | None => st
                end) as ->.
  { subst st0. unfold StampKeys.stamp_at.
    by destruct (layout_map_ st !! ref), (layout_timestamp_ st !! ref). }
  unfold StampKeys.GetLayout, StampKeys.GetLayout_with. cbn [ref_of].
  assert (∀ s, layout_map_ s !! y = Some layout →
            (let* l := StampKeys.VisitExpr finfer
                         (FunctionNode ref ty params (VarNode y ty_y)) in
             let* _ := (λ s0, Ok (tt, set_layout ref l s0)) in
             layout_at ref) s
            = Ok (layout, set_layout ref layout s)) as Hset.
  { intros s Hs. unfold bind. cbn [StampKeys.VisitExpr].
    rewrite (GetCachedLayout_present (VarNode y ty_y) _ _ _ Hs).
    unfold layout_at. cbn. by rewrite lookup_insert_eq. }
  destruct (layout_map_ st !! ref) as [old|] eqn:Hlk; [|by apply Hset].
  destruct Hstale as [Hnone|Hold]; [congruence|].
  pose proof (stamp_at_read ref st) as Hread.
  pose proof (stamp_at_same_reads ref st) as (Hm & _ & Ht & _).
  destruct (StampKeys.stamp_at ref st) as [t st1]. cbn [fst snd] in *.
  subst t. rewrite <- Ht. rewrite bool_decide_eq_true_2 by done.
  apply Hset. by rewrite <- Hm.
Qed.

Lemma GetLayout_function_overwrites_witness :
  let st := mkLayoutInferencer
              {[6%N := TensorLayout Undef; 7%N := NCHW]} ∅ false 1 in
  StampKeys.GetLayout apply_rules fn_arg st
  = Ok (TensorLayout Undef,
        mkLayoutInferencer
          {[6%N := TensorLayout Undef; 7%N := TensorLayout Undef]}
          {[7%N := 0]} false 1).
Proof.
  intros st.
  etrans;
    [exact (GetLayout_function_overwrites apply_rules 7 (FuncType [] tensor4)
              [] 6 tensor4 st (TensorLayout Undef)
              (or_intror (eq_refl : (0 ?= 1) = Lt)) eq_refl)|].
  vm_compute. reflexivity.
Defined.

(** ** Merging proposals *)

(** X9.  Merging the proposals of a rule leaves the modified flag down
    exactly when the flag was down and every proposal is the entry its node
    already has; the inferencer is then unchanged. *)
Theorem merge_raises_flag results st :
  (modified_ (UpdateLayoutCache_all results st) = false ↔
   modified_ st = false ∧
   ∀ it, it ∈ results → layout_map_ st !! it.1 = Some it.2) ∧
  (modified_ (UpdateLayoutCache_all results st) = false →
   UpdateLayoutCache_all results st = st).
Proof.
  split; [split|].
  - intros H. destruct (UpdateLayoutCache_all_quiet results st H) as [Heq Hall].
    split; [by rewrite Heq in H|done].
  - intros [Hmod Hall]. by rewrite UpdateLayoutCache_all_id.
  - intros H. by apply UpdateLayoutCache_all_quiet.
Qed.

Lemma merge_raises_flag_witness :
  let st := mkLayoutInferencer {[1%N := NCHW; 2%N := OIHW]} ∅ false 0 in
  UpdateLayoutCache_all [(1%N, NCHW); (2%N, OIHW)] st = st ∧
  modified_ (UpdateLayoutCache_all [(1%N, NCHW); (2%N, NHWC)] st) ≠ false.
Proof.
  intros st.
  destruct (merge_raises_flag [(1%N, NCHW); (2%N, OIHW)] st) as [_ Hid].
  destruct (merge_raises_flag [(1%N, NCHW); (2%N, NHWC)] st) as [[Hdown _] _].
  split; [by apply Hid|].
  intros H. destruct (Hdown H) as [_ Hall].
  specialize (Hall (2%N, NHWC)). cbn in Hall.
  assert (Some OIHW = Some NHWC) as Habs
    by (apply Hall; apply list_elem_of_further, list_elem_of_here).
  discriminate Habs.
Defined.

(** X10.  Storing and reading back: after [UpdateLayoutCache] has stored a
    layout for a node, [GetCachedLayout] of the node returns that layout and
    changes nothing; and a second [GetCachedLayout] returns what the first
    returned, without a second insertion. *)
Theorem cache_round_trip expr layout st :
  GetCachedLayout expr Undef (UpdateLayoutCache (ref_of expr) layout st)
    = Ok (layout, UpdateLayoutCache (ref_of expr) layout st) ∧
  ∀ r st1, GetCachedLayout expr Undef st = Ok (r, st1) →
           GetCachedLayout expr Undef st1 = Ok (r, st1).
Proof.
  split.
  - apply GetCachedLayout_present, UpdateLayoutCache_lookup.
  - intros r st1 H. apply GetCachedLayout_present.
    by eapply GetCachedLayout_lookup.
Qed.

Lemma cache_round_trip_witness :
  ∃ st1, GetCachedLayout var_x Undef LayoutInferencer_new
           = Ok (TensorLayout Undef, st1) ∧
         GetCachedLayout var_x Undef st1 = Ok (TensorLayout Undef, st1).
Proof.
  eexists. split; [vm_compute; reflexivity|].
  match goal with
  | |- GetCachedLayout _ _ ?s = _ =>
      apply (proj2 (cache_round_trip var_x NCHW LayoutInferencer_new)
               (TensorLayout Undef) s)
  end.
  vm_compute. reflexivity.
Defined.

(** ** The export of one entry *)

(** X11.  The sequence exported for an entry has as many layouts as the
    entry has arity, and two entries export to the same sequence exactly when
    they are equal or one is a tensor layout and the other the tuple layout
    of that one field: the export does not tell these two apart. *)
Theorem layout_array_injective_up_to a b :
  length (layout_array a) = RelayLayout_arity a ∧
  (layout_array a = layout_array b ↔
   a = b ∨
   (∃ l, a = TensorLayout l ∧ b = TupleLayout [l]) ∨
   (∃ l, a = TupleLayout [l] ∧ b = TensorLayout l)).
Proof.
  split; [by destruct a|]. split.
  - destruct a as [la|fa], b as [lb|fb]; cbn.
    + intros [= ->]. by left.
    + intros <-. right. left. by exists la.
    + intros ->. right. right. by exists lb.
    + intros ->. by left.
  - intros [->|[(l & -> & ->)|(l & -> & ->)]]; done.
Qed.

(** ** Every variable and every call gets an entry *)

Lemma covered_mono e (m m' : gmap N RelayLayout) :
  covered e m → (∀ n, is_Some (m !! n) → is_Some (m' !! n)) → covered e m'.
Proof. intros Hc Hdom a Ha Hk. by apply Hdom, Hc. Qed.

Lemma closed_empty root : closed root ∅.
Proof. intros a _ [v Hv]. by rewrite lookup_empty in Hv. Qed.

Lemma closed_insert root (m : gmap N RelayLayout) e v :
  wf_refs root → closed root m → e ∈ subexprs root →
  covered e (<[ref_of e := v]> m) →
  closed root (<[ref_of e := v]> m).
Proof.
  intros Hwf Hcl He Hcov a Ha Hpres.
  destruct (decide (ref_of a = ref_of e)) as [Heq|Hne].
  - by rewrite (Hwf a e Ha He Heq).
  - rewrite lookup_insert_ne in Hpres by done.
    eapply covered_mono; [by apply Hcl|]. intros n Hn.
    destruct (decide (ref_of e = n)) as [<-|Hne'].
    + rewrite lookup_insert_eq. eauto.
    + by rewrite lookup_insert_ne.
Qed.

Lemma closed_same_dom root (m m' : gmap N RelayLayout) :
  closed root m → (∀ n, is_Some (m' !! n) ↔ is_Some (m !! n)) →
  closed root m'.
Proof.
  intros Hcl Hdom a Ha Hpres. eapply covered_mono.
  - apply Hcl; [done|]. by apply Hdom.
  - intros n. apply Hdom.
Qed.

Lemma UpdateLayoutCache_all_dom results st :
  (∀ it, it ∈ results → is_Some (layout_map_ st !! it.1)) →
  ∀ n, is_Some (layout_map_ (UpdateLayoutCache_all results st) !! n) ↔
       is_Some (layout_map_ st !! n).
Proof.
  revert st. induction results as [|[ref layout] results IH]; intros st Hall n;
    [done|].
  rewrite UpdateLayoutCache_all_cons. cbn [fst snd].
  assert (∀ k, is_Some (layout_map_ (UpdateLayoutCache ref layout st) !! k) ↔
               is_Some (layout_map_ st !! k)) as Hstep.
  { intros k. destruct (decide (k = ref)) as [->|Hne].
    - rewrite UpdateLayoutCache_lookup. split; [|by eauto].
      intros _. apply (Hall (ref, layout)), list_elem_of_here.
    - by rewrite UpdateLayoutCache_lookup_ne. }
  rewrite IH; [apply Hstep|].
  intros it Hit. apply Hstep. by apply Hall, list_elem_of_further.
Qed.

Lemma GetLayout_round_step finfer e st r st' :
  GetLayout finfer e st = Ok (r, st') → round_step st st'.
Proof.
  intros H.
  apply GetLayout_with_Ok in H as [(_ & _ & ->)|(_ & st1 & Hv & ->)].
  - apply round_step_refl.
  - eapply round_step_trans; [by eapply VisitExpr_round_step|].
    apply round_step_set_layout.
Qed.

Lemma collect_args_round_step finfer args ls ts ns st res st' :
  collect_args (GetLayout finfer) args ls ts ns st = Ok (res, st') →
  round_step st st'.
Proof.
  revert ls ts ns st. induction args as [|a args IH]; intros ls ts ns st;
    cbn [collect_args].
  - intros [= _ <-]. apply round_step_refl.
  - intros Hb. apply bind_Ok in Hb as (r & st1 & Hget & Hrest).
    eapply round_step_trans; [by eapply GetLayout_round_step|by eapply IH].
Qed.

Section Coverage.

Variable finfer : string → option FInferLayout.
Variable root : Expr.

Hypothesis refs_wf : wf_refs root.
Hypothesis rules_for_nodes : proposals_for_nodes finfer.

Lemma GetLayout_covers a st v st1 :
  a ∈ subexprs root →
  (∀ st r st', closed root (layout_map_ st) →
     VisitExpr finfer a st = Ok (r, st') →
     closed root (layout_map_ st') ∧ covered a (layout_map_ st')) →
  closed root (layout_map_ st) →
  GetLayout finfer a st = Ok (v, st1) →
  closed root (layout_map_ st1) ∧ covered a (layout_map_ st1).
Proof.
  intros Ha IH Hcl Hget.
  apply GetLayout_with_Ok in Hget as [(_ & Hlk & ->)|(_ & s0 & Hv & ->)].
  - split; [done|]. apply Hcl; [done|by eauto].
  - destruct (IH _ _ _ Hcl Hv) as [Hcl0 Hcov0].
    assert (covered a (<[ref_of a := v]> (layout_map_ s0))) as Hcov.
    { eapply covered_mono; [exact Hcov0|]. intros n Hn.
      destruct (decide (ref_of a = n)) as [<-|Hne].
      - rewrite lookup_insert_eq. eauto.
      - by rewrite lookup_insert_ne. }
    split; [by apply closed_insert|done].
Qed.

Lemma collect_args_covers args ls ts ns st res st' :
  (∀ a, a ∈ args → a ∈ subexprs root) →
  Forall (λ a, ∀ st r st', closed root (layout_map_ st) →
                 VisitExpr finfer a st = Ok (r, st') →
                 closed root (layout_map_ st') ∧
                 covered a (layout_map_ st')) args →
  closed root (layout_map_ st) →
  collect_args (GetLayout finfer) args ls ts ns st = Ok (res, st') →
  closed root (layout_map_ st') ∧
  ∀ a, a ∈ args → covered a (layout_map_ st') ∧
                  is_Some (layout_map_ st' !! ref_of a).
Proof.
  intros Hsub HIH. revert Hsub ls ts ns st.
  induction HIH as [|a args Ha _ IHargs]; intros Hsub ls ts ns st Hcl Hc.
  - cbn in Hc. injection Hc as _ <-. split; [done|].
    intros a Ha. by apply elem_of_nil in Ha.
  - cbn [collect_args] in Hc. apply bind_Ok in Hc as (v & s1 & Hget & Hrest).
    destruct (GetLayout_covers a st v s1 (Hsub a (list_elem_of_here _ _))
                Ha Hcl Hget) as [Hcl1 Hcov1].
    destruct (IHargs (λ a' Ha', Hsub a' (list_elem_of_further _ _ _ Ha'))
                _ _ _ _ Hcl1 Hrest) as [Hcl' Hcov'].
    split; [done|]. intros a' Ha'.
    apply elem_of_cons in Ha' as [->|Ha']; [|by apply Hcov'].
    apply collect_args_round_step in Hrest as (_ & _ & Hdom & _).
    split; [by eapply covered_mono|].
    apply Hdom. apply GetLayout_lookup in Hget. eauto.
Qed.

Lemma VisitExpr_covers e :
  e ∈ subexprs root →
  ∀ st r st', closed root (layout_map_ st) →
    VisitExpr finfer e st = Ok (r, st') →
    closed root (layout_map_ st') ∧ covered e (layout_map_ st').
Proof.
  induction e as [ref ty|ref ty op args attrs IH|ref ty params body IH|e Hk]
    using Expr_visit_ind; intros He st r st' Hcl Hv.
  - assert (covered (VarNode ref ty) (layout_map_ st')) as Hcov.
    { intros a Ha _. cbn in Ha. apply list_elem_of_singleton in Ha as ->.
      apply GetCachedLayout_lookup in Hv. eauto. }
    split; [|done].
    apply GetCachedLayout_Ok in Hv as [[_ ->]|(_ & _ & ->)]; [done|].
    by apply (closed_insert root _ (VarNode ref ty)).
  - set (call := CallNode ref ty op args attrs) in *.
    assert (∀ a, a ∈ args → a ∈ subexprs root) as Hargs.
    { intros a Ha. eapply subexprs_trans; [|exact He].
      eapply subexprs_arg; [done|apply subexprs_self]. }
    apply VisitExpr_call_Ok in Hv as (inputs & s1 & name & Hin & Hop & Hfin).
    cbn zeta in Hfin.
    apply call_inputs_Ok in Hin as (rs & s0 & own & Hc & _ & Hown & Hinputs).
    edestruct (collect_args_covers args [] [] [] st) as [Hcl0 Hcov0];
      [exact Hargs| |exact Hcl|exact Hc|].
    { rewrite Forall_forall in IH. apply Forall_forall. intros a Ha.
      by apply IH, Hargs. }
    assert (∀ n, is_Some (layout_map_ s0 !! n) →
                 is_Some (layout_map_ s1 !! n)) as Hdom01.
    { intros n Hn.
      apply GetCachedLayout_Ok in Hown as [[_ ->]|(_ & _ & ->)]; [done|].
      cbn. destruct (decide (ref_of call = n)) as [<-|Hne].
      - rewrite lookup_insert_eq. eauto.
      - by rewrite lookup_insert_ne. }
    assert (is_Some (layout_map_ s1 !! ref)) as Hself
      by (apply GetCachedLayout_lookup in Hown; eauto).
    assert (covered call (layout_map_ s1)) as Hcov1.
    { intros a Ha Hkind. cbn [subexprs call] in Ha.
      apply elem_of_cons in Ha as [->|Ha]; [done|].
      apply list_elem_of_In, in_flat_map in Ha as (b & Hb & Ha).
      apply list_elem_of_In in Hb, Ha.
      apply Hdom01. by apply (Hcov0 b Hb). }
    assert (closed root (layout_map_ s1)) as Hcl1.
    { apply GetCachedLayout_Ok in Hown as Hcase.
      destruct Hcase as [[_ ->]|(_ & _ & Heq)]; [done|].
      rewrite Heq in *. by apply (closed_insert root _ call). }
    set (s2 := merged_state finfer name (length args) attrs inputs s1) in *.
    assert (∀ n, is_Some (layout_map_ s2 !! n) ↔
                 is_Some (layout_map_ s1 !! n)) as Hdom12.
    { subst s2. unfold merged_state.
      destruct (finfer name) as [rule|] eqn:Hrule; [|done].
      destruct (rule _ _ _ _ _) as [[] reporter] eqn:Hr; [|done].
      apply UpdateLayoutCache_all_dom. intros it Hit.
      pose proof (rules_for_nodes _ _ _ _ _ _ _ _ Hrule Hr it Hit) as Hnode.
      rewrite Hinputs in Hnode. cbn in Hnode.
      apply elem_of_app in Hnode as [Hnode|Hnode].
      - apply list_elem_of_fmap in Hnode as (a & -> & Ha).
        by apply Hdom01, (Hcov0 a Ha).
      - apply list_elem_of_singleton in Hnode. by rewrite Hnode. }
    apply GetCachedLayout_Ok in Hfin as [[_ ->]|(Hnone & _ & _)].
    + cbn. split.
      * by eapply closed_same_dom.
      * eapply covered_mono; [exact Hcov1|]. intros n. apply Hdom12.
    + cbn in Hnone. apply Hdom12 in Hself.
      rewrite Hnone in Hself. by destruct Hself.
  - rewrite VisitExpr_function in Hv.
    destruct (IH (subexprs_trans _ _ _ (subexprs_body ref ty params body _
                    (subexprs_self body)) He) st r st' Hcl Hv) as [Hcl' Hcov].
    split; [done|]. intros a Ha Hkind. cbn [subexprs] in Ha.
    apply elem_of_cons in Ha as [->|Ha]; [by destruct Hkind|].
    by apply Hcov.
  - by rewrite VisitExpr_unsupported in Hv.
Qed.

End Coverage.

(** X12.  Addresses identify nodes and rules report for the nodes of their
    reporter only.  When [Infer] is run on an inferencer whose layout map is
    closed on the expression, as the empty map of a new inferencer is, and
    returns, every variable and every call reachable from the expression has
    an entry, so the export binds each of them; and the map is closed
    again. *)
Theorem Infer_covers finfer root fuel st st' :
  wf_refs root →
  proposals_for_nodes finfer →
  closed root (layout_map_ st) →
  Infer finfer fuel root st = Some (Ok st') →
  closed root (layout_map_ st') ∧
  ∀ a, a ∈ subexprs root → kind_of a = KVar ∨ kind_of a = KCall →
       is_Some (layout_map_ st' !! ref_of a) ∧
       ref_of a ∈ dom (CollectLayoutInfo st').1.
Proof.
  intros Hwf Hnodes. revert st.
  induction fuel as [|fuel IH]; intros st Hcl; [done|].
  rewrite Infer_unfold.
  destruct (VisitExpr finfer root st) as [[r st1]|msg] eqn:Hv; [|done].
  destruct (VisitExpr_covers finfer root Hwf Hnodes root (subexprs_self root)
              st r st1 Hcl Hv) as [Hcl1 Hcov1].
  destruct (modified_ st1); [by apply IH|].
  intros [= <-]. split; [done|]. intros a Ha Hkind.
  pose proof (Hcov1 a Ha Hkind) as [v Hv1]. split; [by eauto|].
  apply elem_of_dom. exists (layout_array v). apply option_eq. intros b.
  cbn. rewrite foldl_Set_lookup by apply NoDup_fst_map_to_list. split.
  - intros [(v' & Hin & ->)|[_ H]]; [|by rewrite lookup_empty in H].
    apply elem_of_map_to_list in Hin. congruence.
  - intros [= <-]. left. exists v. by rewrite elem_of_map_to_list.
Qed.

Lemma Infer_covers_witness :
  ∃ st', Infer conv2d_rules 3 call_copy LayoutInferencer_new
           = Some (Ok st') ∧
         is_Some (layout_map_ st' !! ref_of var_w) ∧
         ref_of call_conv2d ∈ dom (CollectLayoutInfo st').1.
Proof.
  eexists. split; [vm_compute; reflexivity|].
  match goal with
  | |- is_Some (layout_map_ ?s !! _) ∧ _ =>
      destruct (Infer_covers conv2d_rules call_copy 3 LayoutInferencer_new s)
        as [_ Hall]
  end.
  - intros a b Ha Hb Heq. cbn in Ha, Hb.
    rewrite !elem_of_cons, elem_of_nil in Ha, Hb.
    destruct Ha as [->|[->|[->|[->|[]]]]], Hb as [->|[->|[->|[->|[]]]]];
      first [done|discriminate Heq].
  - exact conv2d_rules_for_nodes.
  - apply closed_empty.
  - vm_compute. reflexivity.
  - split.
    + apply (Hall var_w); [|by left].
      cbn. rewrite !elem_of_cons. tauto.
    + apply (Hall call_conv2d); [|by right].
      cbn. rewrite !elem_of_cons. tauto.
Defined.

(** ** The arity of entries, for proposals that match it *)

Lemma arity_ok_insert root (m : gmap N RelayLayout) n layout :
  arity_ok root m →
  (∀ e, e ∈ subexprs root → ref_of e = n →
        RelayLayout_arity layout = num_outputs (checked_type e)) →
  arity_ok root (<[n := layout]> m).
Proof.
  intros Hok Hnew e l He Hlk.
  destruct (decide (ref_of e = n)) as [Heq|Hne].
  - rewrite <- Heq, lookup_insert_eq in Hlk. injection Hlk as <-.
    by apply Hnew.
  - rewrite lookup_insert_ne in Hlk by done. by eapply Hok.
Qed.

Lemma arity_matching_prefix root l1 l2 :
  arity_matching root (l1 ++ l2) → arity_matching root l1.
Proof. intros Hm it e Hit. apply Hm, elem_of_app. by left. Qed.

Lemma VisitExpr_arity_ok finfer root e st r st' :
  wf_refs root → no_function_args root →
  e ∈ subexprs root →
  VisitExpr finfer e st = Ok (r, st') →
  arity_matching root (VisitExpr_proposals finfer e st) →
  arity_ok root (layout_map_ st) → arity_ok root (layout_map_ st').
Proof.
  intros Hwf Hnofn He Hv Hmatch.
  apply (VisitExpr_proposals_R finfer root (arity_matching root)
           (arity_matching_prefix root)
           (λ _ s _ s', arity_ok root (layout_map_ s) →
                        arity_ok root (layout_map_ s')))
    with (e := e) (hist := []) (r := r); try done.
  - by auto.
  - intros e' hist s He' _ Hok. cbn. apply arity_ok_insert; [done|].
    intros e'' He'' Heq. rewrite (Hwf e'' e' He'' He' Heq).
    apply default_layout_of_arity.
  - intros e' hist s r' s1 Harg Hv' Hok.
    rewrite set_layout_id; [done|].
    apply VisitExpr_core_lookup in Hv'.
    by rewrite core_not_function in Hv' by by apply Hnofn.
  - intros hist s n layout HP Hok.
    destruct (UpdateLayoutCache_cases n layout s) as [[_ ->]|[_ ->]];
      [done|]. cbn. apply arity_ok_insert; [done|].
    intros e' He' Heq. apply (HP (n, layout) e'); [|done..].
    apply elem_of_app. right. apply list_elem_of_here.
Qed.

(** X13.  Addresses identify nodes and no call has a function as an
    argument.  When every layout that a rule reports during a visit for a
    node of the expression has the arity of the static type of that node,
    the visit keeps this: if every entry of a node of the expression has the
    arity of the static type of its node before, as in a new inferencer that
    has no entry, it is so after.  The same holds of a run of [Infer] and
    the layouts reported during the run. *)
Theorem arity_invariant finfer root :
  wf_refs root → no_function_args root →
  (∀ st r st', VisitExpr finfer root st = Ok (r, st') →
     arity_matching root (VisitExpr_proposals finfer root st) →
     arity_ok root (layout_map_ st) → arity_ok root (layout_map_ st')) ∧
  (∀ fuel st st', Infer finfer fuel root st = Some (Ok st') →
     arity_matching root (Infer_proposals finfer fuel root st) →
     arity_ok root (layout_map_ st) → arity_ok root (layout_map_ st')).
Proof.
  intros Hwf Hnofn.
  assert (∀ st r st', VisitExpr finfer root st = Ok (r, st') →
            arity_matching root (VisitExpr_proposals finfer root st) →
            arity_ok root (layout_map_ st) → arity_ok root (layout_map_ st'))
    as Hvisit.
  { intros st r st'. apply VisitExpr_arity_ok; [done..|apply subexprs_self]. }
  split; [exact Hvisit|].
  intros fuel. induction fuel as [|fuel IH]; intros st st'; [done|].
  rewrite Infer_unfold, Infer_proposals_unfold.
  destruct (VisitExpr finfer root st) as [[r st1]|msg] eqn:Hv; [|done].
  destruct (modified_ st1).
  - intros Hin Hmatch Hok. apply (IH _ _ Hin).
    + intros it e Hit. apply Hmatch, elem_of_app. by right.
    + cbn. eapply Hvisit; [done| |done].
      by eapply arity_matching_prefix.
  - intros [= <-] Hmatch Hok. eapply Hvisit; [done| |done].
    by eapply arity_matching_prefix.
Qed.

Lemma call_halves_wf_refs : wf_refs call_halves.
Proof.
  intros a b Ha Hb Heq. cbn in Ha, Hb.
  rewrite !elem_of_cons, elem_of_nil in Ha, Hb.
  destruct Ha as [->|[->|[]]], Hb as [->|[->|[]]];
    first [done|discriminate Heq].
Qed.

Lemma call_halves_no_function_args : no_function_args call_halves.
Proof.
  intros e (ref & ty & op & args & attrs & Hsub & He).
  cbn in Hsub. rewrite !elem_of_cons, elem_of_nil in Hsub.
  destruct Hsub as [Heq|[Heq|[]]]; try discriminate Heq.
  injection Heq as -> -> -> -> ->.
  rewrite !elem_of_cons, elem_of_nil in He.
  destruct He as [->|[]]; done.
Qed.

Lemma arity_invariant_witness :
  ∃ st', Infer halves_rules 2 call_halves LayoutInferencer_new
           = Some (Ok st') ∧
         layout_map_ st' = {[1%N := NCHW; 30%N := NCHW_pair]} ∧
         arity_ok call_halves (layout_map_ st').
Proof.
  eexists. split; [vm_compute; reflexivity|]. split; [vm_compute; reflexivity|].
  match goal with
  | |- arity_ok _ (layout_map_ ?s) =>
      apply (proj2 (arity_invariant halves_rules call_halves
                      call_halves_wf_refs call_halves_no_function_args)
               2%nat LayoutInferencer_new s)
  end.
  - vm_compute. reflexivity.
  - replace (Infer_proposals halves_rules 2 call_halves LayoutInferencer_new)
      with [(1%N, NCHW); (30%N, NCHW_pair); (1%N, NCHW); (30%N, NCHW_pair)]
      by (vm_compute; reflexivity).
    intros it e Hit He Heq. cbn in He.
    rewrite !elem_of_cons, elem_of_nil in Hit.
    rewrite !elem_of_cons, elem_of_nil in He.
    destruct He as [->|[->|[]]];
      destruct Hit as [->|[->|[->|[->|[]]]]]; first [done|discriminate Heq].
  - intros e l _ Hlk. cbn in Hlk. by rewrite lookup_empty in Hlk.
Defined.

(** * Properties of the first revision *)

Lemma FirstRevision_GetLayout_eq e (m : gmap N RelayLayout) :
  FirstRevision.GetLayout e Undef m
  = Ok (default (default_layout_of (checked_type e)) (m !! ref_of e),
        <[ref_of e := default (default_layout_of (checked_type e))
                        (m !! ref_of e)]> m).
Proof.
  unfold FirstRevision.GetLayout.
  destruct (m !! ref_of e) as [l|] eqn:Hlk; cbn.
  - by rewrite insert_id.
  - by destruct (checked_type e) as [| fields |].
Qed.

Lemma FirstRevision_collect_args_Ok args ls ts ns (m : gmap N RelayLayout) :
  ∃ rs m',
    FirstRevision.collect_args args ls ts ns m
      = Ok ((ls ++ rs, ts ++ (checked_type <$> args),
             ns ++ (ref_of <$> args)), m') ∧
    (∀ n v, m !! n = Some v → m' !! n = Some v) ∧
    (∀ n, n ∉ (ref_of <$> args) → m' !! n = m !! n) ∧
    (∀ a, a ∈ args → is_Some (m' !! ref_of a)).
Proof.
  revert ls ts ns m. induction args as [|a args IH]; intros ls ts ns m.
  - exists [], m. cbn. rewrite !app_nil_r. repeat split; try done.
    intros a Ha. by apply elem_of_nil in Ha.
  - cbn [FirstRevision.collect_args]. rewrite FirstRevision_GetLayout_eq.
    set (l := default (default_layout_of (checked_type a)) (m !! ref_of a)).
    destruct (IH (ls ++ [l]) (ts ++ [checked_type a]) (ns ++ [ref_of a])
                (<[ref_of a := l]> m)) as (rs & m' & -> & Hkeep & Hframe & Hin).
    exists (l :: rs), m'. rewrite <- !app_assoc. cbn.
    assert (∀ n v, m !! n = Some v → <[ref_of a := l]> m !! n = Some v)
      as Hstep.
    { intros n v Hv. destruct (decide (ref_of a = n)) as [<-|Hne].
      - rewrite lookup_insert_eq. subst l. by rewrite Hv.
      - by rewrite lookup_insert_ne. }
    split; [done|]. split; [|split].
    + intros n v Hv. by apply Hkeep, Hstep.
    + intros n Hn. rewrite not_elem_of_cons in Hn. destruct Hn as [Hne Hn].
      rewrite (Hframe n Hn). by rewrite lookup_insert_ne.
    + intros a' Ha'. apply elem_of_cons in Ha' as [->|Ha']; [|by apply Hin].
      exists l. apply Hkeep, lookup_insert_eq.
Qed.

Lemma FirstRevision_VisitExpr_call finfer ref ty op args attrs name
    (m : gmap N RelayLayout) :
  Downcast_Op op = Ok name →
  ∃ rs m1,
    FirstRevision.collect_args args [] [] [] m
      = Ok ((rs, checked_type <$> args, ref_of <$> args), m1) ∧
    let own := default (default_layout_of ty) (m1 !! ref) in
    FirstRevision.VisitExpr finfer (CallNode ref ty op args attrs) m
    = Ok (own,
          FirstRevision.run_rule finfer name (length args) attrs
            (rs ++ [own]) ((checked_type <$> args) ++ [ty])
            ((ref_of <$> args) ++ [ref]) (<[ref := own]> m1)).
Proof.
  intros Hop.
  destruct (FirstRevision_collect_args_Ok args [] [] [] m)
    as (rs & m1 & Hc & _).
  exists rs, m1. split; [exact Hc|]. cbn zeta.
  cbn [FirstRevision.VisitExpr]. rewrite Hc.
  rewrite FirstRevision_GetLayout_eq. cbn [ref_of checked_type].
  rewrite Hop. by rewrite last_snoc.
Qed.

(** X14.  In the first revision the visit of a call whose operator is an
    [OpNode] never fails, whatever its arguments are: an argument is not
    visited, it only gets its cached-or-default layout, be it a call with a
    rule of its own or a node of a kind the visitor does not handle.  So the
    visit depends on no rule but the one of the operator of the call, and
    after it every argument and the call have an entry. *)
Theorem first_revision_call_ignores_arguments finfer ref ty op args attrs
    name (m : gmap N RelayLayout) :
  let call := CallNode ref ty op args attrs in
  Downcast_Op op = Ok name →
  (∃ r m', FirstRevision.VisitExpr finfer call m = Ok (r, m')) ∧
  (∀ finfer', finfer' name = finfer name →
     FirstRevision.VisitExpr finfer' call m
     = FirstRevision.VisitExpr finfer call m).
Proof.
  intros call Hop. split.
  - destruct (FirstRevision_VisitExpr_call finfer ref ty op args attrs name m
                Hop) as (rs & m1 & _ & Hv).
    eexists _, _. exact Hv.
  - intros finfer' Hsame.
    destruct (FirstRevision_VisitExpr_call finfer ref ty op args attrs name m
                Hop) as (rs & m1 & Hc & Hv).
    destruct (FirstRevision_VisitExpr_call finfer' ref ty op args attrs name m
                Hop) as (rs' & m1' & Hc' & Hv').
    rewrite Hc in Hc'. injection Hc' as <- <-.
    subst call. rewrite Hv, Hv'. unfold FirstRevision.run_rule.
    by rewrite Hsame.
Qed.

Lemma first_revision_call_ignores_arguments_witness :
  let call := CallNode 20 tensor4 op_copy
                [call_conv2d; ConstantNode 21 tensor4] NoAttrs in
  FirstRevision.VisitExpr conv2d_rules0 call ∅
  = Ok (TensorLayout Undef,
        {[3%N := TensorLayout Undef; 21%N := TensorLayout Undef;
          20%N := TensorLayout Undef]}).
Proof.
  intros call.
  destruct (first_revision_call_ignores_arguments conv2d_rules0 20 tensor4
              op_copy [call_conv2d; ConstantNode 21 tensor4] NoAttrs "copy" ∅
              eq_refl) as [(r & m' & Hv) _].
  fold call in Hv. rewrite Hv.
  assert (FirstRevision.VisitExpr conv2d_rules0 call ∅
          = Ok (TensorLayout Undef,
                {[3%N := TensorLayout Undef; 21%N := TensorLayout Undef;
                  20%N := TensorLayout Undef]})) as Hc
    by (vm_compute; reflexivity).
  congruence.
Defined.

(** X15.  In the first revision the layout a call visit returns is the one
    the call had before its rule ran, its entry or else the default, whatever
    the rule reports: when the rule reports another layout for the call
    itself, the map holds that one and the visit still returns the old one.
    The second revision returns the entry of the call as it is after the
    merge. *)
Theorem first_revision_returns_layout_before_rule finfer0 ref ty op args attrs
    (m : gmap N RelayLayout) r0 m0 :
  ref ∉ (ref_of <$> args) →
  FirstRevision.VisitExpr finfer0 (CallNode ref ty op args attrs) m
    = Ok (r0, m0) →
  r0 = default (default_layout_of ty) (m !! ref) ∧
  ∀ finfer st r st',
    VisitExpr finfer (CallNode ref ty op args attrs) st = Ok (r, st') →
    layout_map_ st' !! ref = Some r.
Proof.
  intros Hfresh Hv. split.
  - destruct (Downcast_Op op) as [name|msg] eqn:Hop.
    + destruct (FirstRevision_VisitExpr_call finfer0 ref ty op args attrs name
                  m Hop) as (rs & m1 & Hc & Hv').
      cbn zeta in Hv'. rewrite Hv' in Hv. injection Hv as <- _.
      destruct (FirstRevision_collect_args_Ok args [] [] [] m)
        as (rs' & m1' & Hc' & _ & Hframe & _).
      rewrite Hc in Hc'. injection Hc' as _ <-.
      by rewrite (Hframe ref Hfresh).
    + cbn [FirstRevision.VisitExpr] in Hv.
      destruct (FirstRevision.collect_args args [] [] [] m)
        as [[[[ls ts] ns] m1]|msg']; [|done].
      rewrite FirstRevision_GetLayout_eq in Hv. by rewrite Hop in Hv.
  - intros finfer st r st' Hv2.
    exact (VisitExpr_core_lookup finfer (CallNode ref ty op args attrs)
             st r st' Hv2).
Qed.

Lemma first_revision_returns_layout_before_rule_witness :
  FirstRevision.VisitExpr conv2d_rules0 call_conv2d ∅
    = Ok (TensorLayout Undef, {[1%N := NCHW; 2%N := OIHW; 3%N := NCHW]}) ∧
  ∃ st', VisitExpr conv2d_rules call_conv2d LayoutInferencer_new
         = Ok (NCHW, st').
Proof.
  assert (FirstRevision.VisitExpr conv2d_rules0 call_conv2d ∅
          = Ok (TensorLayout Undef,
                {[1%N := NCHW; 2%N := OIHW; 3%N := NCHW]})) as Hv
    by (vm_compute; reflexivity).
  split; [exact Hv|].
  assert (3%N ∉ (ref_of <$> [var_x; var_w])) as Hfresh.
  { cbn. rewrite !elem_of_cons, elem_of_nil. intros [H|[H|[]]]; discriminate. }
  pose proof (first_revision_returns_layout_before_rule conv2d_rules0 3 tensor4
                op_conv2d [var_x; var_w] NoAttrs ∅ _ _ Hfresh Hv)
    as [_ Hsecond].
  eexists. vm_compute. reflexivity.
Defined.

(** ** The two revisions on a call of variables *)

Lemma GetCachedLayout_FirstRevision e st :
  ∃ st',
    GetCachedLayout e Undef st
      = Ok (default (default_layout_of (checked_type e))
              (layout_map_ st !! ref_of e), st') ∧
    layout_map_ st'
      = <[ref_of e := default (default_layout_of (checked_type e))
                        (layout_map_ st !! ref_of e)]> (layout_map_ st).
Proof.
  unfold GetCachedLayout.
  destruct (layout_map_ st !! ref_of e) as [l|] eqn:Hlk.
  - exists st. cbn [default]. by rewrite insert_id.
  - exists (set_layout (ref_of e) (default_layout_of (checked_type e))
              (set_modified true st)).
    split; [|done]. by destruct (checked_type e) as [| fields |].
Qed.

Lemma GetLayout_var_FirstRevision finfer x ty st :
  ∃ st',
    GetLayout finfer (VarNode x ty) st
      = Ok (default (default_layout_of ty) (layout_map_ st !! x), st') ∧
    layout_map_ st'
      = <[x := default (default_layout_of ty) (layout_map_ st !! x)]>
          (layout_map_ st).
Proof.
  destruct (GetCachedLayout_FirstRevision (VarNode x ty) st)
    as (st1 & Hc & Hm1). cbn [ref_of checked_type] in Hc, Hm1.
  destruct (layout_map_ st !! x) as [l|] eqn:Hlk;
    [destruct (decide (timestamp_of x st < timestamp_ st)) as [Hold|Hnew]|].
  - eexists. split.
    + apply GetLayout_with_stale; [by right|exact Hc].
    + cbn. by rewrite Hm1, insert_insert_eq.
  - exists st. split; [by apply GetLayout_with_fresh|].
    cbn. by rewrite insert_id.
  - eexists. split.
    + apply GetLayout_with_stale; [by left|exact Hc].
    + cbn. by rewrite Hm1, insert_insert_eq.
Qed.

Lemma collect_args_vars_FirstRevision finfer args ls ts ns st res m' :
  Forall (λ a, kind_of a = KVar) args →
  FirstRevision.collect_args args ls ts ns (layout_map_ st) = Ok (res, m') →
  ∃ st', collect_args (GetLayout finfer) args ls ts ns st = Ok (res, st') ∧
         layout_map_ st' = m'.
Proof.
  intros Hvars. revert ls ts ns st.
  induction Hvars as [|a args Ha _ IH]; intros ls ts ns st; cbn.
  - intros [= <- <-]. by exists st.
  - destruct a as [x tx| | | | | | | | | | | | | |]; try discriminate Ha.
    rewrite FirstRevision_GetLayout_eq. cbn [ref_of checked_type].
    destruct (GetLayout_var_FirstRevision finfer x tx st)
      as (st1 & Hg & Hm1).
    rewrite <- Hm1. intros Hrest. apply IH in Hrest as (st' & Hc & Hm').
    exists st'. split; [|done]. unfold bind. by rewrite Hg.
Qed.

Lemma UpdateLayoutCache_all_Set_all rs st :
  layout_map_ (UpdateLayoutCache_all rs st)
  = FirstRevision.Set_all rs (layout_map_ st).
Proof.
  unfold UpdateLayoutCache_all, FirstRevision.Set_all. revert st.
  induction rs as [|[ref layout] rs IH]; intros st; cbn; [done|].
  rewrite IH. f_equal.
  destruct (UpdateLayoutCache_cases ref layout st) as [[Hlk ->]|[_ ->]].
  - by rewrite insert_id.
  - done.
Qed.

Lemma merged_state_run_rule finfer0 finfer name num_args attrs ls ts ns st :
  rules_agree finfer0 finfer →
  layout_map_ (merged_state finfer name num_args attrs (ls, ts, ns) st)
  = FirstRevision.run_rule finfer0 name num_args attrs ls ts ns
      (layout_map_ st).
Proof.
  intros Hagree. specialize (Hagree name).
  unfold merged_state, FirstRevision.run_rule.
  destruct (finfer0 name) as [rule0|], (finfer name) as [rule|]; try done.
  specialize (Hagree ls ts num_args attrs ns). cbn in Hagree. cbn.
  destruct (rule0 _ _ _ _ _) as [ok0 rep0], (rule _ _ _ _ _) as [ok rep].
  cbn in Hagree. destruct Hagree as [-> ->].
  destruct ok; [|done]. apply UpdateLayoutCache_all_Set_all.
Qed.

(** X16.  On a call whose arguments are all variables the two revisions
    compute the same layout map: when the rules of the two registries agree,
    a visit of the second revision from a state whose map is [m] ends, as
    the visit of the first revision from [m] does, and with the same map.
    The layout it returns is the entry of the call in that map. *)
Theorem revisions_agree_on_calls_of_variables finfer0 finfer ref ty op args
    attrs st r0 m0 :
  let call := CallNode ref ty op args attrs in
  rules_agree finfer0 finfer →
  Forall (λ a, kind_of a = KVar) args →
  FirstRevision.VisitExpr finfer0 call (layout_map_ st) = Ok (r0, m0) →
  ∃ r st', VisitExpr finfer call st = Ok (r, st') ∧
           layout_map_ st' = m0 ∧ m0 !! ref = Some r.
Proof.
  intros call Hagree Hvars Hv0. subst call.
  destruct (Downcast_Op op) as [name|msg] eqn:Hop.
  2:{ cbn [FirstRevision.VisitExpr] in Hv0.
      destruct (FirstRevision.collect_args args [] [] [] (layout_map_ st))
        as [[[[ls ts] ns] m1]|msg']; [|done].
      rewrite FirstRevision_GetLayout_eq in Hv0. by rewrite Hop in Hv0. }
  destruct (FirstRevision_VisitExpr_call finfer0 ref ty op args attrs name
              (layout_map_ st) Hop) as (rs & m1 & Hc0 & Hv0').
  cbn zeta in Hv0'. rewrite Hv0' in Hv0. injection Hv0 as <- <-.
  destruct (collect_args_vars_FirstRevision finfer args [] [] [] st _ _
              Hvars Hc0) as (st1 & Hc & Hm1).
  destruct (GetCachedLayout_FirstRevision (CallNode ref ty op args attrs) st1)
    as (st2 & Hown & Hm2). cbn [ref_of checked_type] in Hown, Hm2.
  rewrite Hm1 in Hown, Hm2.
  set (own := default (default_layout_of ty) (m1 !! ref)) in *.
  set (inputs := (rs ++ [own], (checked_type <$> args) ++ [ty],
                  (ref_of <$> args) ++ [ref])).
  assert (call_inputs finfer (CallNode ref ty op args attrs) args st
          = Ok (inputs, st2)) as Hin.
  { unfold call_inputs, bind, ret. rewrite Hc. by rewrite Hown. }
  set (st3 := merged_state finfer name (length args) attrs inputs st2).
  assert (layout_map_ st3
          = FirstRevision.run_rule finfer0 name (length args) attrs
              (rs ++ [own]) ((checked_type <$> args) ++ [ty])
              ((ref_of <$> args) ++ [ref]) (<[ref := own]> m1)) as Hm3.
  { subst st3 inputs. rewrite <- Hm2.
    by apply merged_state_run_rule. }
  assert (is_Some (layout_map_ st3 !! ref)) as [r Hr].
  { assert (round_step st2 st3) as (_ & _ & Hdom & _).
    { apply merged_state_ind;
        [apply round_step_refl|apply round_step_trans
        |apply round_step_UpdateLayoutCache]. }
    apply Hdom. rewrite Hm2. exists own. apply lookup_insert_eq. }
  exists r, (set_layout_timestamp ref (timestamp_ st3) st3).
  split; [|split].
  - rewrite (VisitExpr_call_intro finfer ref ty op args attrs st inputs st2
               name Hin Hop). cbn zeta. fold st3.
    by apply GetCachedLayout_present.
  - cbn. exact Hm3.
  - by rewrite <- Hm3.
Qed.

Lemma conv2d_rules_agree : rules_agree conv2d_rules0 conv2d_rules.
Proof.
  intros name. unfold conv2d_rules0, conv2d_rules.
  destruct (decide (name = "nn.conv2d")); [|done].
  intros layouts types num_args attrs nodes. cbn.
  unfold conv2d_rule0, conv2d_rule. cbn.
  repeat case_match; done.
Qed.

Lemma revisions_agree_on_calls_of_variables_witness :
  ∃ r st',
    VisitExpr conv2d_rules call_conv2d LayoutInferencer_new = Ok (r, st') ∧
    layout_map_ st' = {[1%N := NCHW; 2%N := OIHW; 3%N := NCHW]} ∧
    ({[1%N := NCHW; 2%N := OIHW; 3%N := NCHW]} : gmap N RelayLayout) !! 3%N
      = Some r.
Proof.
  apply (revisions_agree_on_calls_of_variables conv2d_rules0 conv2d_rules 3
           tensor4 op_conv2d [var_x; var_w] NoAttrs LayoutInferencer_new
           (TensorLayout Undef)).
  - exact conv2d_rules_agree.
  - repeat constructor.
  - vm_compute. reflexivity.
Defined.
